(** * ImgKit-L: duplicate-image detection and deletion planning

    A shallow embedding of [image_deduplication.py]:

    - [ImageDeduplicator.find_duplicate_groups] (perceptual-hash clustering),
    - [ImageDeduplicator.find_duplicate_groups_by_sift] (feature clustering),
    - the check-state handling of [ImageDeduplicationController]
      ([on_selection_changed], [auto_select_files],
      [get_selected_files_to_delete]),
    - [ImageDeduplicationController.export_results] (audit file, then the
      deletion loop).

    Image decoding, the hash and SIFT libraries, the file system and the
    dialogs are collaborators of the program; they enter the model as
    section variables.  Python dictionaries keep insertion order, and the
    program depends on it, so they are association lists here. *)

From Stdlib Require Import ZArith NArith QArith Qcanon Ascii Lia.
From stdpp Require Import numbers strings pretty gmap option list.

Set Warnings "-clear-no-such-hyp".

(** ** Outcomes of Python calls *)

Inductive exception : Type :=
| ValueError       (* [int(s, 16)] on a string that is no number *)
| AttributeError   (* a method called on the [None] that [child(j)] returns *)
| RecursionError.  (* the interpreter's recursion limit is reached *)

Inductive outcome (A : Type) : Type :=
| Returns (a : A)
| Raises (e : exception).
Arguments Returns {A} a.
Arguments Raises {A} e.

#[global] Instance outcome_ret : MRet outcome := @Returns.
#[global] Instance outcome_bind : MBind outcome := λ A B f m,
  match m with
  | Returns a => f a
  | Raises e => Raises e
  end.
#[global] Instance outcome_fmap : FMap outcome := λ A B f m,
  match m with
  | Returns a => Returns (f a)
  | Raises e => Raises e
  end.

(** ** Fingerprints: [int(h, 16)] and the Hamming distance *)

Module Hex.

(** The value of one hexadecimal digit. *)
Definition digit (c : ascii) : option N :=
  let n := N_of_ascii c in
  if (48 <=? n)%N && (n <=? 57)%N then Some (n - 48)%N
  else if (97 <=? n)%N && (n <=? 102)%N then Some (n - 87)%N
  else if (65 <=? n)%N && (n <=? 70)%N then Some (n - 55)%N
  else None.

Fixpoint digits (s : string) (acc : N) : outcome N :=
  match s with
  | EmptyString => Returns acc
  | String c s' =>
      match digit c with
      | Some d => digits s' (16 * acc + d)%N
      | None => Raises ValueError
      end
  end.

(** [int(s, 16)] on the strings [str(ImageHash)] produces: a non-empty run
    of hexadecimal digits.  Anything else is a [ValueError] here (Python
    also reads a sign, a [0x] prefix, underscores and surrounding blanks,
    none of which a printed hash contains). *)
Definition int16 (s : string) : outcome N :=
  match s with
  | EmptyString => Raises ValueError
  | _ => digits s 0
  end.

Fixpoint ones (p : positive) : nat :=
  match p with
  | xH => 1
  | xO q => ones q
  | xI q => S (ones q)
  end.

(** [bin(n).count("1")] for a non-negative [n]. *)
Definition bit_count (n : N) : nat :=
  match n with
  | N0 => 0
  | Npos p => ones p
  end.

(** [bin(int(a, 16) ^ int(b, 16)).count("1")] *)
Definition hamming_distance (a b : string) : outcome nat :=
  x ← int16 a; y ← int16 b; mret (bit_count (N.lxor x y)).

Definition is_hex (s : string) : bool :=
  match int16 s with
  | Returns _ => true
  | Raises _ => false
  end.

End Hex.

(** ** Insertion-ordered dictionaries *)

Module Dict.
Section Dict.
Context {V : Type}.

(** A [defaultdict(list)]-style update [d[k].append(x)]: the entry of an
    existing key is extended in place, a missing key is created at the
    end of the dictionary. *)
Fixpoint append (k : string) (x : V) (d : list (string * list V))
  : list (string * list V) :=
  match d with
  | [] => [(k, [x])]
  | (k', g) :: d' =>
      if decide (k' = k) then (k', g ++ [x]) :: d'
      else (k', g) :: append k x d'
  end.

(** [d[k] = v]: an existing key keeps its position. *)
Fixpoint set (k : string) (v : V) (d : list (string * V))
  : list (string * V) :=
  match d with
  | [] => [(k, v)]
  | (k', v') :: d' =>
      if decide (k' = k) then (k', v) :: d'
      else (k', v') :: set k v d'
  end.

Definition keys {W} (d : list (string * W)) : list string := d.*1.
Definition values {W} (d : list (string * W)) : list W := d.*2.
End Dict.
End Dict.

(** ** HashClusterer: [find_duplicate_groups] *)

Module HashClusterer.
Section Clusterer.

(** [image_hash m p] is [str(imagehash.m(Image.open(p)))], or [None]
    when opening or hashing the image raises. *)
Variable image_hash : string → string → option string.

Definition compute_hash (image_path hash_method : string) : option string :=
  if decide (hash_method ∈ ["ahash"; "phash"; "dhash"; "whash"])
  then image_hash hash_method image_path
  else None.

(** The inner [for existing_hash in list(hash_groups.keys())] loop with
    its [break]: the first key within [threshold], if any. *)
Fixpoint first_match (img_hash : string) (threshold : Z)
    (existing : list string) : outcome (option string) :=
  match existing with
  | [] => Returns None
  | existing_hash :: rest =>
      hamming_distance ← Hex.hamming_distance img_hash existing_hash;
      if decide (Z.of_nat hamming_distance ≤ threshold)%Z
      then Returns (Some existing_hash)
      else first_match img_hash threshold rest
  end.

(** One iteration of [for path in image_paths]. *)
Definition step (hash_method : string) (threshold : Z)
    (hash_groups : list (string * list string)) (path : string)
  : outcome (list (string * list string)) :=
  match compute_hash path hash_method with
  | None => Returns hash_groups
  | Some img_hash =>
      matched ← first_match img_hash threshold (Dict.keys hash_groups);
      match matched with
      | Some existing_hash => Returns (Dict.append existing_hash path hash_groups)
      | None => Returns (Dict.append img_hash path hash_groups)
      end
  end.

Fixpoint loop (hash_method : string) (threshold : Z)
    (hash_groups : list (string * list string)) (image_paths : list string)
  : outcome (list (string * list string)) :=
  match image_paths with
  | [] => Returns hash_groups
  | path :: rest =>
      hash_groups' ← step hash_method threshold hash_groups path;
      loop hash_method threshold hash_groups' rest
  end.

Definition find_duplicate_groups (image_paths : list string)
    (hash_method : string) (threshold : Z) : outcome (list (list string)) :=
  hash_groups ← loop hash_method threshold [] image_paths;
  mret (filter (λ group, 1 < length group) (Dict.values hash_groups)).

(** [within t h k]: the distance from [h] to [k] is at most [t];
    [beyond t h k]: it is more than [t]. *)
Definition within (threshold : Z) (h k : string) : Prop :=
  ∃ d, Hex.hamming_distance h k = Returns d ∧ (Z.of_nat d ≤ threshold)%Z.

Definition beyond (threshold : Z) (h k : string) : Prop :=
  ∃ d, Hex.hamming_distance h k = Returns d ∧ (threshold < Z.of_nat d)%Z.

(** What holds of every entry of [hash_groups] during a run: the key is
    the fingerprint of the group's first path, and every member's
    fingerprint is the key itself or lies within the threshold of it. *)
Definition group_ok (hash_method : string) (threshold : Z)
    (e : string * list string) : Prop :=
  Hex.is_hex e.1 = true ∧
  (∃ seed rest, e.2 = seed :: rest ∧ compute_hash seed hash_method = Some e.1) ∧
  ∀ p, p ∈ e.2 →
    ∃ h, compute_hash p hash_method = Some h ∧ (h = e.1 ∨ within threshold h e.1).

Definition state_ok (hash_method : string) (threshold : Z)
    (hash_groups : list (string * list string)) : Prop :=
  NoDup (Dict.keys hash_groups) ∧ Forall (group_ok hash_method threshold) hash_groups.

(** [housed m t hash_groups seen]: every image of [seen] that has a
    fingerprint sits in the group of the first representative within the
    threshold of that fingerprint. *)
Definition housed (hash_method : string) (threshold : Z)
    (hash_groups : list (string * list string)) (seen : list string) : Prop :=
  ∀ p h, p ∈ seen → compute_hash p hash_method = Some h →
    ∃ k g, first_match h threshold (Dict.keys hash_groups) = Returns (Some k) ∧
           (k, g) ∈ hash_groups ∧ p ∈ g.

(** [homed m t hash_groups]: every member of a group is where the loop
    files its fingerprint: under the first representative within the
    threshold or, when there is none, under the fingerprint itself. *)
Definition homed (hash_method : string) (threshold : Z)
    (hash_groups : list (string * list string)) : Prop :=
  ∀ k g p, (k, g) ∈ hash_groups → p ∈ g →
    ∃ h, compute_hash p hash_method = Some h ∧
         (first_match h threshold (Dict.keys hash_groups) = Returns (Some k) ∨
          (first_match h threshold (Dict.keys hash_groups) = Returns None ∧ h = k)).

(** Every fingerprint computed for the input reads as a hexadecimal
    number. *)
Definition hashes_ok (image_paths : list string) (hash_method : string) : bool :=
  forallb (λ p, match compute_hash p hash_method with
                | Some h => Hex.is_hex h
                | None => true
                end) image_paths.

End Clusterer.
End HashClusterer.

(** ** FeatureClusterer: [find_duplicate_groups_by_sift] *)

Module FeatureClusterer.

(** What a run does, in order: a ghost record next to the result. *)
Inductive event : Type :=
| Detect (path : string)             (* [features[path] = des]: [sift.detectAndCompute] gave descriptors *)
| Compare (path1 path2 : string)     (* [matcher.knnMatch(des1, des2, k=2)] *)
| Join (path1 path2 : string).       (* [group.append(path2)], group seeded by [path1] *)

(** The images a record has appended to some group, and the seeds of the
    groups that took them. *)
Fixpoint members_of (trace : list event) : gset string :=
  match trace with
  | [] => ∅
  | Join _ path2 :: trace' => {[path2]} ∪ members_of trace'
  | _ :: trace' => members_of trace'
  end.

Fixpoint seeds_of (trace : list event) : gset string :=
  match trace with
  | [] => ∅
  | Join path1 _ :: trace' => {[path1]} ∪ seeds_of trace'
  | _ :: trace' => seeds_of trace'
  end.

(** [scans_fresh members seeds trace]: replaying [trace] from a moment at
    which [members] have been appended to groups seeded by [seeds], every
    comparison is against an image that is in no group yet, and is made
    for a seed that is not a member of any group. *)
Fixpoint scans_fresh (members seeds : gset string) (trace : list event) : Prop :=
  match trace with
  | [] => True
  | Detect _ :: trace' => scans_fresh members seeds trace'
  | Compare path1 path2 :: trace' =>
      (path2 ∉ members) ∧ (path2 ∉ seeds) ∧ (path1 ∉ members) ∧
      scans_fresh members seeds trace'
  | Join path1 path2 :: trace' =>
      scans_fresh (members ∪ {[path2]}) (seeds ∪ {[path1]}) trace'
  end.

Section Clusterer.
Context {descriptors : Type}.

(** [detect p]: the descriptors [sift.detectAndCompute] returns for the
    image at [p]; [None] when the image cannot be read or [des is None]. *)
Variable detect : string → option descriptors.

(** [good_matches des1 des2]: [len(good_matches)] after the ratio test
    (which is floating-point arithmetic on the matcher's distances, for
    the [ratio] of the call); [None] when the [try] block raises. *)
Variable good_matches : descriptors → descriptors → option nat.

(** [for path in image_paths: ... features[path] = des].  An image that
    cannot be opened, for which [sift.detectAndCompute] raises, or that has
    no descriptors leaves [features] as it is and no entry in the record:
    the [except] or the [if] skips the assignment. *)
Fixpoint detect_loop (image_paths : list string)
    (features : list (string * descriptors))
  : list (string * descriptors) * list event :=
  match image_paths with
  | [] => (features, [])
  | path :: rest =>
      match detect path with
      | Some des =>
          let '(features', trace) := detect_loop rest (Dict.set path des features) in
          (features', Detect path :: trace)
      | None => detect_loop rest features
      end
  end.

(** The input images for which descriptors are stored, as often as the
    input lists them. *)
Definition detected (image_paths : list string) : list string :=
  filter (λ path, is_Some (detect path)) image_paths.

(** [for j, path2 in enumerate(paths[i+1:], i+1)], the scan of one seed. *)
Fixpoint scan (min_matches : Z) (path1 : string) (des1 : descriptors)
    (rest : list (string * descriptors))
    (group : list string) (processed : gset string)
  : list string * gset string * list event :=
  match rest with
  | [] => (group, processed, [])
  | (path2, des2) :: rest' =>
      if decide (path2 ∈ processed)
      then scan min_matches path1 des1 rest' group processed
      else
        match good_matches des1 des2 with
        | Some good =>
            if decide (min_matches ≤ Z.of_nat good)%Z
            then
              let '(group', processed', trace) :=
                scan min_matches path1 des1 rest'
                     (group ++ [path2]) (processed ∪ {[path2]}) in
              (group', processed', Compare path1 path2 :: Join path1 path2 :: trace)
            else
              let '(group', processed', trace) :=
                scan min_matches path1 des1 rest' group processed in
              (group', processed', Compare path1 path2 :: trace)
        | None =>
            let '(group', processed', trace) :=
              scan min_matches path1 des1 rest' group processed in
            (group', processed', Compare path1 path2 :: trace)
        end
  end.

(** [for i, path1 in enumerate(paths)]; [items] holds [paths[i:]] with
    the descriptors [features[path]] stored under each key. *)
Fixpoint group_loop (min_matches : Z) (items : list (string * descriptors))
    (processed : gset string) (groups : list (list string))
  : list (list string) * list event :=
  match items with
  | [] => (groups, [])
  | (path1, des1) :: rest =>
      if decide (path1 ∈ processed)
      then group_loop min_matches rest processed groups
      else
        let '(group, processed', trace) :=
          scan min_matches path1 des1 rest [path1] processed in
        let '(groups', trace') :=
          if decide (1 < length group)
          then group_loop min_matches rest (processed' ∪ {[path1]}) (groups ++ [group])
          else group_loop min_matches rest processed' groups in
        (groups', trace ++ trace')
  end.

(** [paths = list(features.keys())]: the images that have descriptors,
    each once, in the order of their first occurrence. *)
Definition feature_paths (image_paths : list string) : list string :=
  Dict.keys (detect_loop image_paths []).1.

Definition run (image_paths : list string) (min_matches : Z)
  : list (list string) * list event :=
  let '(features, trace) := detect_loop image_paths [] in
  let '(groups, trace') := group_loop min_matches features ∅ [] in
  (groups, trace ++ trace').

(** [matched m des1 items x]: [x] has descriptors among [items] that reach
    [m] good matches with [des1]. *)
Definition matched (min_matches : Z) (des1 : descriptors)
    (items : list (string * descriptors)) (x : string) : Prop :=
  ∃ des n, (x, des) ∈ items ∧ good_matches des1 des = Some n ∧
           (min_matches ≤ Z.of_nat n)%Z.

(** [grown m items g]: [g] is a seed of [items] followed, in order, by
    images of [items] that match the seed. *)
Definition grown (min_matches : Z) (items : list (string * descriptors))
    (g : list string) : Prop :=
  ∃ seed des_seed members,
    g = seed :: members ∧ (seed, des_seed) ∈ items ∧
    g `sublist_of` Dict.keys items ∧
    ∀ x, x ∈ members → matched min_matches des_seed items x.

(** The function has no [raise] and catches what its collaborators
    raise: it always returns its list of groups. *)
Definition find_duplicate_groups_by_sift (image_paths : list string)
    (min_matches : Z) : outcome (list (list string)) :=
  Returns (run image_paths min_matches).1.

Definition events (image_paths : list string) (min_matches : Z) : list event :=
  (run image_paths min_matches).2.

End Clusterer.
End FeatureClusterer.

(** ** The duplicate tree: check states and the keep-one rule *)

Module Selection.

(** [Qt.CheckState].  A checked file is kept; an unchecked one is deleted
    by [export_results]. *)
Inductive CheckState : Type :=
| Unchecked
| PartiallyChecked
| Checked.

#[global] Instance CheckState_eq_dec : EqDecision CheckState.
Proof. solve_decision. Defined.

(** A file row of [duplicate_tree]: [text(1)] and [checkState(0)]. *)
Record file_item : Type := FileItem {
  text1 : string;
  checkState : CheckState
}.

(** The tree: one top-level item per duplicate group, its children the
    file rows. *)
Abbreviation tree := (list (list file_item)).

(** The [item] an [itemChanged] signal carries. *)
Inductive item : Type :=
| GroupItem (i : nat)        (* a top-level item: [item.parent()] is [None] *)
| FileRow (i j : nat).       (* child [j] of top-level item [i] *)

Inductive message : Type :=
| KeepOneWarning.            (* [QMessageBox.warning]: every group keeps a file *)

Definition children (t : tree) (i : nat) : list file_item :=
  default [] (t !! i).

Definition child (t : tree) (i j : nat) : option file_item :=
  children t i !! j.

Definition store (t : tree) (i j : nat) (s : CheckState) : tree :=
  alter (alter (λ it, FileItem (text1 it) s) j) i t.

(** The slot connected to [itemChanged]. *)
Abbreviation slot := (tree → item → nat → outcome (tree * list message)).

(** [group_item.child(j).setCheckState(0, s)]: Qt stores the value and, when
    it differs from the stored one, emits [itemChanged] for the row and
    then for its auto-tristate parent; the slot runs before the call
    returns. *)
Definition setCheckState (itemChanged : slot) (t : tree) (i j : nat)
    (s : CheckState) : outcome (tree * list message) :=
  match child t i j with
  | None => Raises AttributeError
  | Some it =>
      if decide (checkState it = s) then Returns (t, [])
      else
        '(t1, m1) ← itemChanged (store t i j s) (FileRow i j) 0;
        '(t2, m2) ← itemChanged t1 (GroupItem i) 0;
        mret (t2, m1 ++ m2)
  end.

Definition selected_count (t : tree) (i : nat) : nat :=
  length (filter (λ it, checkState it = Checked) (children t i)).

(** [on_selection_changed(item, column)].  [fuel] bounds the nesting of
    slot calls, as the interpreter's recursion limit does. *)
Fixpoint on_selection_changed (fuel : nat) (t : tree) (changed : item)
    (column : nat) : outcome (tree * list message) :=
  match fuel with
  | 0 => Raises RecursionError
  | S fuel' =>
      match changed with
      | GroupItem _ => Returns (t, [])
      | FileRow i j =>
          if decide (column ≠ 0) then Returns (t, [])
          else if decide (selected_count t i = 0) then
            '(t', ms) ← setCheckState (on_selection_changed fuel') t i j Checked;
            mret (t', ms ++ [KeepOneWarning])
          else Returns (t, [])
      end
  end.

Definition recursion_limit : nat := 1000.

(** The user clicks the check box of row [j] in group [i]; Qt sets the new
    state through the same [setCheckState]. *)
Definition toggle (t : tree) (i j : nat) (s : CheckState)
  : outcome (tree * list message) :=
  setCheckState (on_selection_changed recursion_limit) t i j s.

(** [get_selected_files_to_delete] *)
Definition get_selected_files_to_delete (t : tree) : list string :=
  concat (map (λ group_item,
                 map text1 (filter (λ it, checkState it = Unchecked) group_item)) t).

(** A group in which row [j0] alone is checked and every other row is
    unchecked; the paths are as they were. *)
Definition kept_only (j0 : nat) (group_item : list file_item) : list file_item :=
  imap (λ j it, FileItem (text1 it) (if decide (j = j0) then Checked else Unchecked))
       group_item.

Section Files.

(** [os.path.getsize] and [os.path.getmtime]; [None] when they raise.
    The modification time is a float; only its order is used. *)
Variable getsize : string → option Z.
Variable getmtime : string → option Qc.

(** The body of the [try] / [except] that fills [file_info]. *)
Definition info (j : nat) (file_path : string) : nat * Z * Qc :=
  match getsize file_path, getmtime file_path with
  | Some size, Some mtime => (j, size, mtime)
  | _, _ => (j, 0%Z, 0%Qc)
  end.

(** [(x[1], x[2]) < (y[1], y[2])] on tuples. *)
Definition key_lt (x y : nat * Z * Qc) : Prop :=
  (x.1.2 < y.1.2)%Z ∨ (x.1.2 = y.1.2 ∧ (x.2 < y.2)%Qc).

#[global] Instance key_lt_dec x y : Decision (key_lt x y).
Proof. unfold key_lt. apply _. Defined.

(** [file_info.sort(key=..., reverse=True)]: the stable sort in
    descending order of the key; rows with equal keys keep their order. *)
Fixpoint insert_desc (x : nat * Z * Qc) (l : list (nat * Z * Qc))
  : list (nat * Z * Qc) :=
  match l with
  | [] => [x]
  | y :: l' =>
      if decide (key_lt x y) then y :: insert_desc x l'
      else x :: y :: l'
  end.

Definition sort_desc (l : list (nat * Z * Qc)) : list (nat * Z * Qc) :=
  foldr insert_desc [] l.

(** [for idx, (j, _, _) in enumerate(file_info)] *)
Fixpoint choose (t : tree) (i idx : nat) (file_info : list (nat * Z * Qc))
  : outcome (tree * list message) :=
  match file_info with
  | [] => Returns (t, [])
  | (j, _, _) :: rest =>
      '(t1, m1) ← setCheckState (on_selection_changed recursion_limit) t i j
                    (if decide (idx = 0) then Checked else Unchecked);
      '(t2, m2) ← choose t1 i (S idx) rest;
      mret (t2, m1 ++ m2)
  end.

(** The body of [for i in range(topLevelItemCount())]. *)
Definition auto_select_group (t : tree) (i : nat) : outcome (tree * list message) :=
  let file_info := imap (λ j it, info j (text1 it)) (children t i) in
  choose t i 0 (sort_desc file_info).

Fixpoint auto_select_from (t : tree) (indices : list nat)
  : outcome (tree * list message) :=
  match indices with
  | [] => Returns (t, [])
  | i :: rest =>
      '(t1, m1) ← auto_select_group t i;
      '(t2, m2) ← auto_select_from t1 rest;
      mret (t2, m1 ++ m2)
  end.

Definition auto_select_files (t : tree) : outcome (tree * list message) :=
  auto_select_from t (seq 0 (length t)).

(** The row the sorted [file_info] starts with. *)
Definition best_of (group_item : list file_item) : nat :=
  match sort_desc (imap (λ j it, info j (text1 it)) group_item) with
  | (j, _, _) :: _ => j
  | [] => 0
  end.

End Files.

(** Running one step after another; the warnings add up. *)
Definition and_then (r : outcome (tree * list message))
    (k : tree → outcome (tree * list message)) : outcome (tree * list message) :=
  '(t1, m1) ← r; '(t2, m2) ← k t1; mret (t2, m1 ++ m2).

(** [for j in range(group_item.childCount()): group_item.child(j).setCheckState(0, s)] *)
Fixpoint set_rows (t : tree) (i : nat) (rows : list nat) (s : CheckState)
  : outcome (tree * list message) :=
  match rows with
  | [] => Returns (t, [])
  | j :: rest =>
      and_then (setCheckState (on_selection_changed recursion_limit) t i j s)
               (λ t1, set_rows t1 i rest s)
  end.

(** [for i in range(self.duplicate_tree.topLevelItemCount()): body] *)
Fixpoint for_groups (body : tree → nat → outcome (tree * list message))
    (t : tree) (indices : list nat) : outcome (tree * list message) :=
  match indices with
  | [] => Returns (t, [])
  | i :: rest => and_then (body t i) (λ t1, for_groups body t1 rest)
  end.

(** [select_all_files] *)
Definition select_all_group (t : tree) (i : nat) : outcome (tree * list message) :=
  set_rows t i (seq 0 (length (children t i))) Checked.

Definition select_all_files (t : tree) : outcome (tree * list message) :=
  for_groups select_all_group t (seq 0 (length t)).

(** [deselect_all_files]: every row is unchecked in turn, then the first
    row is checked. *)
Definition deselect_all_group (t : tree) (i : nat) : outcome (tree * list message) :=
  let childCount := length (children t i) in
  and_then (set_rows t i (seq 0 childCount) Unchecked)
           (λ t1, if decide (0 < childCount)
                  then setCheckState (on_selection_changed recursion_limit) t1 i 0 Checked
                  else Returns (t1, [])).

Definition deselect_all_files (t : tree) : outcome (tree * list message) :=
  for_groups deselect_all_group t (seq 0 (length t)).

(** The index of the last checked row of a group, if it has one. *)
Fixpoint last_checked_from (j : nat) (group_item : list file_item) : option nat :=
  match group_item with
  | [] => None
  | it :: rest =>
      match last_checked_from (S j) rest with
      | Some m => Some m
      | None => if decide (checkState it = Checked) then Some j else None
      end
  end.

Definition last_checked (group_item : list file_item) : option nat :=
  last_checked_from 0 group_item.

(** A group in which exactly the rows [0] and [m] (when there is one) are
    checked. *)
Definition first_and (m : option nat) (group_item : list file_item) : list file_item :=
  imap (λ j it, FileItem (text1 it)
                  (if decide (j = 0 ∨ m = Some j) then Checked else Unchecked))
       group_item.

(** A group in which every row is checked. *)
Definition all_checked (group_item : list file_item) : list file_item :=
  (λ it, FileItem (text1 it) Checked) <$> group_item.

(** Rows are checked or unchecked; Qt uses the third state for parents only. *)
Definition two_state (t : tree) : Prop :=
  Forall (Forall (λ it, checkState it ≠ PartiallyChecked)) t.

(** The paths of the tree, group by group. *)
Definition paths (t : tree) : list (list string) := map (map text1) t.

Section Populate.

(** [has_icon p]: [QPixmap(p)] is not null, so that the row gets an icon. *)
Variable has_icon : string → bool.

(** Qt emits [itemChanged(row, column)] for the row [j] of group [i]. *)
Definition emit (t : tree) (i j column : nat) : outcome (tree * list message) :=
  on_selection_changed recursion_limit t (FileRow i j) column.

(** One file row of [on_detection_complete]: the row is created under its
    group and filled in; each setter makes Qt emit [itemChanged], with the
    slot connected.  [setCheckState(0, Qt.Unchecked)] always stores and
    emits here: the row has no check state yet, or the slot has just
    checked it.  (The model keeps the path from the start; the slot does
    not read it.) *)
Definition fill_row (t : tree) (i : nat) (file_path : string)
  : outcome (tree * list message) :=
  let j := length (children t i) in
  let t0 := alter (λ g, g ++ [FileItem file_path Unchecked]) i t in
  and_then (emit t0 i j 0) (λ t1,                     (* setText(0, basename) *)
  and_then (emit t1 i j 1) (λ t2,                     (* setText(1, file_path) *)
  and_then (emit (store t2 i j Unchecked) i j 0) (λ t3, (* setCheckState(0, Unchecked) *)
  and_then (on_selection_changed recursion_limit t3 (GroupItem i) 0) (λ t4,
  and_then (emit t4 i j 0) (λ t5,                     (* setFlags *)
  if has_icon file_path then emit t5 i j 0            (* setIcon *)
  else Returns (t5, [])))))).

Fixpoint fill_rows (t : tree) (i : nat) (group : list string)
  : outcome (tree * list message) :=
  match group with
  | [] => Returns (t, [])
  | file_path :: rest => and_then (fill_row t i file_path) (λ t1, fill_rows t1 i rest)
  end.

(** One group: the top-level item is created and labelled, then its rows. *)
Definition add_group (t : tree) (group : list string) : outcome (tree * list message) :=
  let i := length t in
  and_then (on_selection_changed recursion_limit (t ++ [[]]) (GroupItem i) 0) (λ t1,
  and_then (on_selection_changed recursion_limit t1 (GroupItem i) 0) (λ t2,
  fill_rows t2 i group)).

Fixpoint populate (t : tree) (duplicate_groups : list (list string))
  : outcome (tree * list message) :=
  match duplicate_groups with
  | [] => Returns (t, [])
  | group :: rest => and_then (add_group t group) (λ t1, populate t1 rest)
  end.

(** [on_detection_complete]: the tree is cleared and filled from the
    groups. *)
Definition on_detection_complete (duplicate_groups : list (list string))
  : outcome (tree * list message) :=
  populate [] duplicate_groups.

End Populate.
End Selection.

(** ** [export_results]: the audit file, then the deletion loop *)

Module Exporter.

(** Lines of the operation log ([log_message]); the time stamp the
    program prepends is left out. *)
Inductive log_entry : Type :=
| Deleted (file_path : string)        (* "已删除: ..." *)
| DeleteFailed (file_path : string)   (* "删除失败: ...": the file is still there *)
| NotFound (file_path : string)       (* "文件不存在: ..." *)
| DeleteError (file_path : string)    (* "删除错误 ...": [os.remove] raised *)
| Cancelled                           (* "用户取消了删除操作" *)
| Exported (directory : string)       (* "结果已导出到: ..." *)
| ExportFailed.                       (* "导出失败: ..." *)

Inductive dialog : Type :=
| NothingSelected                     (* "没有选择要删除的文件" *)
| ConfirmDelete (count : nat)         (* the Yes / No question *)
| DeleteDone (deleted_count error_count : nat)
| ExportDone (directory : string)
| ExportError.

(** What [export_results] does to the outside, in order. *)
Inductive event : Type :=
| FileWritten (path : string) (content : list string)  (* the [with open] block ran to its end *)
| FileWriteFailed (path : string)                     (* [open] or a [write] raised *)
| Remove (path : string)                          (* a call of [os.remove] *)
| Log (entry : log_entry)
| Box (d : dialog).

(** The outcome of one plan entry, as the log reports it. *)
Inductive entry_outcome : Type :=
| OutcomeDeleted
| OutcomeNotFound
| OutcomeFailed.

Definition classify (e : event) : option (string * entry_outcome) :=
  match e with
  | Log (Deleted p) => Some (p, OutcomeDeleted)
  | Log (NotFound p) => Some (p, OutcomeNotFound)
  | Log (DeleteFailed p) => Some (p, OutcomeFailed)
  | Log (DeleteError p) => Some (p, OutcomeFailed)
  | _ => None
  end.

(** The per-entry outcomes a trace reports, in order. *)
Definition report (trace : list event) : list (string * entry_outcome) :=
  omap classify trace.

#[global] Instance entry_outcome_eq_dec : EqDecision entry_outcome.
Proof. solve_decision. Defined.

(** How many entries a report gives the outcome [o]. *)
Definition count_outcome (o : entry_outcome)
    (r : list (string * entry_outcome)) : nat :=
  length (filter (λ x, x.2 = o) r).

(** The paths [os.remove] was called on, in order. *)
Definition removals (trace : list event) : list string :=
  omap (λ e, match e with Remove p => Some p | _ => None end) trace.

Definition newline : string := String (ascii_of_nat 10) EmptyString.

Definition member_line (file_path : string) : string :=
  "  " +:+ file_path +:+ newline.

Definition group_header (i : nat) : string :=
  newline +:+ "组 " +:+ pretty (i + 1) +:+ ":" +:+ newline.

Definition deletion_header (count : nat) : string :=
  newline +:+ "用户选择删除的文件 (" +:+ pretty count +:+ " 个):" +:+ newline.

(** The strings [f.write] receives, in order, for [duplicates.txt]. *)
Definition audit_text (duplicate_groups : list (list string))
    (files_to_delete : list string) : list string :=
  ("重复图片组:" +:+ newline)
    :: concat (imap (λ i group, group_header i :: map member_line group)
                    duplicate_groups)
    ++ deletion_header (length files_to_delete)
    :: map member_line files_to_delete.

(** The controller's fields [export_results] reads and writes. *)
Record controller : Type := Controller {
  duplicate_groups : list (list string);
  duplicate_tree : Selection.tree;
  generated_files : list (string * string)
}.

Section FileSystem.

(** The file system, injected: [world] is its state. *)
Context {world : Type}.
(** [os.path.exists] *)
Variable path_exists : world → string → bool.
(** [os.remove]; the flag is [false] when the call raises. *)
Variable os_remove : world → string → world * bool.
(** Writing a whole text file; the flag is [false] when [open] or a
    [write] raises. *)
Variable write_file : world → string → list string → world * bool.
(** [os.path.join] *)
Variable path_join : string → string → string.

(** [for file_path in files_to_delete], with the two counters. *)
Fixpoint delete_files (w : world) (files_to_delete : list string)
    (deleted_count error_count : nat) : world * nat * nat * list event :=
  match files_to_delete with
  | [] => (w, deleted_count, error_count, [])
  | file_path :: rest =>
      if path_exists w file_path then
        let '(w', returned) := os_remove w file_path in
        if returned then
          if negb (path_exists w' file_path) then
            let '(w'', d, e, trace) :=
              delete_files w' rest (S deleted_count) error_count in
            (w'', d, e, Remove file_path :: Log (Deleted file_path) :: trace)
          else
            let '(w'', d, e, trace) :=
              delete_files w' rest deleted_count (S error_count) in
            (w'', d, e, Remove file_path :: Log (DeleteFailed file_path) :: trace)
        else
          let '(w'', d, e, trace) :=
            delete_files w' rest deleted_count (S error_count) in
          (w'', d, e, Remove file_path :: Log (DeleteError file_path) :: trace)
      else
        let '(w'', d, e, trace) :=
          delete_files w rest deleted_count error_count in
        (w'', d, e, Log (NotFound file_path) :: trace)
  end.

(** [export_results], given what the two dialogs answer: the directory
    picked (empty when the picker is dismissed) and the reply to the
    confirmation question. *)
Definition export_results (c : controller) (directory : string)
    (reply_yes : bool) (w : world) : world * controller * list event :=
  if decide (duplicate_groups c = []) then (w, c, [])
  else if decide (directory = "") then (w, c, [])
  else
    let files_to_delete :=
      Selection.get_selected_files_to_delete (duplicate_tree c) in
    if decide (files_to_delete = []) then (w, c, [Box NothingSelected])
    else
      let txt_file := path_join directory "duplicates.txt" in
      let content := audit_text (duplicate_groups c) files_to_delete in
      let '(w1, written) := write_file w txt_file content in
      if written then
        let c' := Controller (duplicate_groups c) (duplicate_tree c)
                    (generated_files c ++ [(txt_file, "重复结果文本文件")]) in
        let question := Box (ConfirmDelete (length files_to_delete)) in
        if reply_yes then
          let '(w2, deleted_count, error_count, trace) :=
            delete_files w1 files_to_delete 0 0 in
          (w2, c',
           FileWritten txt_file content :: question :: trace
             ++ [Box (DeleteDone deleted_count error_count);
                 Log (Exported directory); Box (ExportDone directory)])
        else
          (w1, c',
           [FileWritten txt_file content; question; Log Cancelled;
            Log (Exported directory); Box (ExportDone directory)])
      else
        (w1, c, [FileWriteFailed txt_file; Log ExportFailed; Box ExportError]).

End FileSystem.
End Exporter.

(** ** [cleanup_generated_files] *)

Module Cleanup.

Inductive dialog : Type :=
| NothingToClean                        (* "没有需要清理的生成文件" *)
| ConfirmCleanup (files : list string)  (* the Yes / No question with the list *)
| CleanupDone (deleted_count error_count : nat).

Inductive event : Type :=
| Box (d : dialog)
| Deletion (e : Exporter.event).   (* what the deletion loop does *)

Section FileSystem.
Context {world : Type}.
Variable path_exists : world → string → bool.
Variable os_remove : world → string → world * bool.

(** [cleanup_generated_files], given the reply to the question.  Its loop
    is the loop of [export_results] over the recorded paths: [os.path.exists]
    stands outside the [try] here, and does not raise. *)
Definition cleanup_generated_files (c : Exporter.controller) (reply_yes : bool)
    (w : world) : world * Exporter.controller * list event :=
  if decide (Exporter.generated_files c = []) then (w, c, [Box NothingToClean])
  else
    let question := Box (ConfirmCleanup (Exporter.generated_files c).*1) in
    if reply_yes then
      let '(w', deleted_count, error_count, trace) :=
        Exporter.delete_files path_exists os_remove w (Exporter.generated_files c).*1 0 0 in
      (w',
       Exporter.Controller (Exporter.duplicate_groups c) (Exporter.duplicate_tree c) [],
       question :: (Deletion <$> trace) ++ [Box (CleanupDone deleted_count error_count)])
    else (w, c, [question]).

End FileSystem.

(** What the deletion loop of a cleanup did, in order. *)
Definition deletions (trace : list event) : list Exporter.event :=
  omap (λ e, match e with Deletion d => Some d | _ => None end) trace.

End Cleanup.

(** ** [DeduplicationThread.run] *)

Module Worker.

Inductive log_entry : Type :=
| Started                    (* "开始查重处理..." *)
| Finished (groups : nat)    (* "查重完成，找到 ... 组重复图片" *)
| Failed.                    (* "查重过程出错: ..." *)

Inductive signal : Type :=
| LogSignal (entry : log_entry)
| ProgressSignal (value : nat)
| ResultSignal (duplicate_groups : list (list string)).

Section Thread.
Variable image_hash : string → string → option string.
Context {descriptors : Type}.
Variable detect : string → option descriptors.
(** The matcher with the ratio 0.7 the thread passes. *)
Variable good_matches : descriptors → descriptors → option nat.

(** [run]: the signals the thread emits, in order. *)
Definition run (image_paths : list string) (method : string) (threshold : Z)
  : list signal :=
  let duplicate_groups :=
    if decide (method = "感知哈希")
    then HashClusterer.find_duplicate_groups image_hash image_paths "phash" threshold
    else FeatureClusterer.find_duplicate_groups_by_sift detect good_matches
           image_paths threshold in
  match duplicate_groups with
  | Returns groups =>
      [LogSignal Started; ProgressSignal 100; ResultSignal groups;
       LogSignal (Finished (length groups))]
  | Raises _ => [LogSignal Started; LogSignal Failed; ResultSignal []]
  end.

(** The groups a run hands to [on_detection_complete]. *)
Definition results (signals : list signal) : list (list (list string)) :=
  omap (λ s, match s with ResultSignal groups => Some groups | _ => None end) signals.

End Thread.
End Worker.

(** ** [add_images] *)

Module ImageList.

Inductive log_entry : Type :=
| Missing (file : string)      (* "文件不存在: ..." *)
| LoadFailed (file : string)   (* "无法加载图片 ...": the [try] block raised *)
| Added (added_count : nat).   (* "成功添加 ... 张图片" *)

Section Files.
(** [os.path.exists] *)
Variable path_exists : string → bool.
(** The [try] block raises before its two appends (while the pixmap is
    built or scaled, or the icon set); the [except] then skips them.  A
    pixmap that is null raises nothing: the item gets no icon, and the file
    is added like any other. *)
Variable pixmap_raises : string → bool.

(** [for file in files], with [self.image_paths] and the counter. *)
Fixpoint add_loop (image_paths files : list string) (added_count : nat)
  : list string * nat * list log_entry :=
  match files with
  | [] => (image_paths, added_count, [])
  | file :: rest =>
      if negb (path_exists file) then
        let '(paths, n, log) := add_loop image_paths rest added_count in
        (paths, n, Missing file :: log)
      else if pixmap_raises file then
        let '(paths, n, log) := add_loop image_paths rest added_count in
        (paths, n, LoadFailed file :: log)
      else add_loop (image_paths ++ [file]) rest (S added_count)
  end.

(** [add_images], given the files the dialog returns: the new
    [image_paths] and the log lines. *)
Definition add_images (image_paths files : list string)
  : list string * list log_entry :=
  if decide (files = []) then (image_paths, [])
  else
    let '(paths, added_count, log) := add_loop image_paths files 0 in
    (paths, log ++ if decide (0 < added_count) then [Added added_count] else []).

(** The files of a selection that are added: those that exist and for
    which the [try] block does not raise. *)
Definition accepted (files : list string) : list string :=
  filter (λ file, path_exists file = true ∧ pixmap_raises file = false) files.

End Files.
End ImageList.

(** A table of fingerprints (or of any per-path data) for the examples:
    the entry stored under a path, if any. *)
Definition table {A : Type} (entries : list (string * A)) (path : string) : option A :=
  snd <$> list_find (λ e, e.1 = path) entries ≫= λ r, Some r.2.

(** ** Inputs of the examples *)

Module Sample.

(** Three images whose fingerprints are at distances 3 (a, b), 2 (a, c)
    and 1 (b, c). *)
Definition near_second : string → string → option string :=
  λ _, table [("a.png", "0000000000000000");
              ("b.png", "0000000000000007");
              ("c.png", "0000000000000003")].

(** A seed and two images one bit away from it, on different bits. *)
Definition around_seed : string → string → option string :=
  λ _, table [("a.png", "0000000000000000");
              ("b.png", "0000000000000001");
              ("c.png", "0000000000000002")].

(** The fingerprints of the specification's examples, as hexadecimal
    digits: [1010], [1010] and [1011]. *)
Definition exact : string → string → option string :=
  λ _, table [("a.png", "a"); ("b.png", "a"); ("c.png", "b")].

(** Three images with descriptors; every pair has one good match. *)
Definition three_features : string → option nat :=
  table [("a.png", 1); ("b.png", 2); ("c.png", 3)].
Definition one_good_match : nat → nat → option nat := λ _ _, Some 1.

(** Two images with descriptors; no pair has a good match. *)
Definition two_features : string → option nat :=
  table [("a.png", 1); ("b.png", 2)].
Definition no_good_match : nat → nat → option nat := λ _ _, Some 0.


(** A fake file system: the files present, and a deletion service that
    raises for [b.png] and deletes every other file. *)
Definition fake_exists (w : list string) (file_path : string) : bool :=
  bool_decide (file_path ∈ w).
Definition fake_remove (w : list string) (file_path : string) : list string * bool :=
  if decide (file_path = "b.png") then (w, false)
  else (filter (λ p, p ≠ file_path) w, true).
Definition fake_write (w : list string) (file_path : string) (content : list string)
  : list string * bool :=
  (w ++ [file_path], true).
Definition fake_join (directory name : string) : string :=
  directory +:+ "/" +:+ name.

(** One duplicate group of two files, the second marked for deletion. *)
Definition one_group : Exporter.controller :=
  Exporter.Controller
    [["a.png"; "c.png"]]
    [[Selection.FileItem "a.png" Selection.Checked;
      Selection.FileItem "c.png" Selection.Unchecked]]
    [].

End Sample.

(** * Properties *)

(** ** Bit counts and the Hamming distance *)

Section HexFacts.
Import Hex.

Lemma outcome_bind_returns {A B} (f : A → outcome B) (m : outcome A) (b : B) :
  m ≫= f = Returns b ↔ ∃ a, m = Returns a ∧ f a = Returns b.
Proof.
  destruct m as [a|e]; simpl; split.
  - intros H. by exists a.
  - by intros (a' & [= <-] & H).
  - intros H. discriminate H.
  - intros (a' & [=] & _).
Qed.

Lemma ones_pos p : 0 < ones p.
Proof. induction p; simpl; lia. Qed.

Lemma bit_count_zero n : bit_count n = 0 ↔ n = 0%N.
Proof.
  destruct n as [|p]; simpl; [done|].
  pose proof (ones_pos p). split; [lia | done].
Qed.

Lemma bit_count_Ndouble n : bit_count (Pos.Ndouble n) = bit_count n.
Proof. by destruct n. Qed.

Lemma bit_count_Nsucc_double n : bit_count (Pos.Nsucc_double n) = S (bit_count n).
Proof. by destruct n. Qed.

Lemma ones_lxor p q : bit_count (Pos.lxor p q) ≤ ones p + ones q.
Proof.
  revert q. induction p as [p IH|p IH|]; intros [q|q|];
    unfold Pos.lxor; fold Pos.lxor;
    rewrite ?bit_count_Ndouble, ?bit_count_Nsucc_double; cbn [bit_count ones];
    try specialize (IH q); lia.
Qed.

Lemma bit_count_lxor x y : bit_count (N.lxor x y) ≤ bit_count x + bit_count y.
Proof.
  destruct x as [|p], y as [|q]; unfold N.lxor; cbn [bit_count]; try lia.
  apply ones_lxor.
Qed.

(** The Hamming distance satisfies the triangle inequality. *)
Lemma bit_count_triangle a b c :
  bit_count (N.lxor a c) ≤ bit_count (N.lxor a b) + bit_count (N.lxor b c).
Proof.
  replace (N.lxor a c) with (N.lxor (N.lxor a b) (N.lxor b c)).
  - apply bit_count_lxor.
  - rewrite N.lxor_assoc, <- (N.lxor_assoc b b c), N.lxor_nilpotent.
    by rewrite N.lxor_0_l.
Qed.

Lemma is_hex_int16 s : is_hex s = true ↔ ∃ x, int16 s = Returns x.
Proof.
  unfold is_hex. destruct (int16 s) as [x|e]; split; try done.
  - by exists x.
  - by intros [x [=]].
Qed.

Lemma hamming_inv a b d :
  hamming_distance a b = Returns d ↔
  ∃ x y, int16 a = Returns x ∧ int16 b = Returns y ∧ d = bit_count (N.lxor x y).
Proof.
  unfold hamming_distance. rewrite outcome_bind_returns. split.
  - intros (x & Hx & H). apply outcome_bind_returns in H as (y & Hy & [= <-]).
    by exists x, y.
  - intros (x & y & Hx & Hy & ->). exists x. split; [done|].
    by rewrite Hy.
Qed.

Lemma hamming_returns a b :
  is_hex a = true → is_hex b = true → ∃ d, hamming_distance a b = Returns d.
Proof.
  intros [x Hx]%is_hex_int16 [y Hy]%is_hex_int16.
  exists (bit_count (N.lxor x y)). apply hamming_inv. by exists x, y.
Qed.

Lemma hamming_self a : is_hex a = true → hamming_distance a a = Returns 0.
Proof.
  intros [x Hx]%is_hex_int16. apply hamming_inv. exists x, x.
  by rewrite N.lxor_nilpotent.
Qed.

Lemma hamming_is_hex a b d :
  hamming_distance a b = Returns d → is_hex a = true ∧ is_hex b = true.
Proof.
  intros (x & y & Hx & Hy & _)%hamming_inv.
  split; apply is_hex_int16; eauto.
Qed.

End HexFacts.

(** ** The insertion-ordered dictionary *)

Section DictFacts.
Context {V : Type}.
Implicit Types (d : list (string * list V)) (k : string) (x : V).

Lemma append_absent k x d :
  k ∉ Dict.keys d → Dict.append k x d = d ++ [(k, [x])].
Proof.
  induction d as [|[k' g] d IH]; simpl; [done|].
  intros Hk. apply not_elem_of_cons in Hk as [Hne Hk].
  rewrite decide_False by done. by rewrite IH.
Qed.

Lemma append_present k x d i :
  NoDup (Dict.keys d) → Dict.keys d !! i = Some k →
  Dict.append k x d = alter (λ e, (e.1, e.2 ++ [x])) i d.
Proof.
  revert i. induction d as [|[k' g] d IH]; intros i Hnd Hi; [done|].
  simpl in *. apply NoDup_cons in Hnd as [Hk' Hnd].
  destruct i as [|i]; simpl in *.
  - injection Hi as ->. by rewrite decide_True.
  - rewrite decide_False.
    + by rewrite (IH i).
    + intros ->. apply Hk'. by eapply list_elem_of_lookup_2.
Qed.

Lemma append_keys k x d :
  Dict.keys (Dict.append k x d) =
  if decide (k ∈ Dict.keys d) then Dict.keys d else Dict.keys d ++ [k].
Proof.
  induction d as [|[k' g] d IH]; simpl; [done|].
  destruct (decide (k' = k)) as [->|Hne]; simpl.
  - rewrite decide_True; [done | left].
  - rewrite IH. destruct (decide (k ∈ Dict.keys d)) as [Hin|Hout].
    + rewrite decide_True; [done | by right].
    + rewrite decide_False; [done|].
      intros [?|?]%elem_of_cons; [congruence | done].
Qed.

Lemma append_keys_NoDup k x d :
  NoDup (Dict.keys d) → NoDup (Dict.keys (Dict.append k x d)).
Proof.
  intros Hnd. rewrite append_keys. case_decide; [done|].
  apply NoDup_app. split_and!; [done | | apply NoDup_singleton].
  intros y Hy ->%list_elem_of_singleton. done.
Qed.

Lemma append_values k x d :
  concat (Dict.values (Dict.append k x d)) ≡ₚ concat (Dict.values d) ++ [x].
Proof.
  induction d as [|[k' g] d IH]; simpl; [done|].
  destruct (decide (k' = k)) as [->|Hne]; simpl.
  - rewrite <- !(assoc_L (++)). f_equiv. apply Permutation_app_comm.
  - unfold Dict.values in IH. rewrite IH. by rewrite (assoc_L (++)).
Qed.

(** A property of every entry survives the update when it survives the
    extension of the entry under [k] and holds of a fresh entry. *)
Lemma append_Forall (P : string * list V → Prop) k x d :
  Forall P d →
  (∀ g, (k, g) ∈ d → P (k, g ++ [x])) →
  (k ∉ Dict.keys d → P (k, [x])) →
  Forall P (Dict.append k x d).
Proof.
  induction d as [|[k' g] d IH]; simpl; intros Hd Hext Hnew.
  - constructor; [|done]. apply Hnew, not_elem_of_nil.
  - apply Forall_cons in Hd as [Hhd Hd].
    destruct (decide (k' = k)) as [->|Hne].
    + constructor; [|done]. apply Hext. left.
    + constructor; [done|]. apply IH; [done | |].
      * intros g0 Hg0. apply Hext. by right.
      * intros Hk. apply Hnew. by apply not_elem_of_cons.
Qed.

End DictFacts.

(** ** HashClusterer *)

Section HashFacts.
Import HashClusterer.
Variable image_hash : string → string → option string.
Variables (m : string) (t : Z).

Abbreviation hash_of p := (compute_hash image_hash p m).

Lemma within_or_beyond h k :
  Hex.is_hex h = true → Hex.is_hex k = true → within t h k ∨ beyond t h k.
Proof.
  intros Hh Hk. destruct (hamming_returns h k Hh Hk) as [d Hd].
  destruct (decide (Z.of_nat d ≤ t)%Z); [left | right]; exists d; split; [done | lia | done | lia].
Qed.

Lemma within_not_beyond h k : within t h k → beyond t h k → False.
Proof. intros (d & Hd & ?) (d' & Hd' & ?). rewrite Hd in Hd'. simplify_eq. lia. Qed.

Lemma first_match_found h reps i k :
  reps !! i = Some k → within t h k →
  (∀ j k', j < i → reps !! j = Some k' → beyond t h k') →
  first_match h t reps = Returns (Some k).
Proof.
  revert i. induction reps as [|k0 reps IH]; intros i Hi Hin Hbefore; [done|].
  destruct i as [|i]; simpl in *.
  - injection Hi as ->. destruct Hin as (d & -> & Hd). simpl.
    by rewrite decide_True.
  - destruct (Hbefore 0 k0) as (d & -> & Hd); [lia | done |]. simpl.
    rewrite decide_False by lia. apply (IH i); [done..|].
    intros j k' Hj Hk'. apply (Hbefore (S j)); [lia | done].
Qed.

Lemma first_match_none h reps :
  (∀ k, k ∈ reps → beyond t h k) → first_match h t reps = Returns None.
Proof.
  induction reps as [|k0 reps IH]; intros Hall; [done|]. simpl.
  destruct (Hall k0) as (d & -> & Hd); [left|]. simpl.
  rewrite decide_False by lia. apply IH. intros k Hk. apply Hall. by right.
Qed.

Lemma first_match_inv h reps r :
  first_match h t reps = Returns r →
  match r with
  | Some k => k ∈ reps ∧ within t h k
  | None => ∀ k, k ∈ reps → beyond t h k
  end.
Proof.
  induction reps as [|k0 reps IH]; simpl.
  - intros [= <-]. intros k Hk. by apply elem_of_nil in Hk.
  - intros (d & Hd & H)%outcome_bind_returns. case_decide.
    + injection H as <-. split; [left|]. by exists d.
    + specialize (IH H). destruct r as [k|].
      * destruct IH. split; [by right | done].
      * intros k [->|Hk]%elem_of_cons; [|by apply IH]. exists d. split; [done | lia].
Qed.

Lemma first_match_returns h reps :
  Hex.is_hex h = true → Forall (λ k, Hex.is_hex k = true) reps →
  ∃ r, first_match h t reps = Returns r.
Proof.
  intros Hh. induction 1 as [|k0 reps Hk0 _ IH]; simpl; [by eexists|].
  destruct (hamming_returns h k0 Hh Hk0) as [d ->]. simpl.
  case_decide; [by eexists | done].
Qed.

Lemma state_ok_keys_hex d :
  state_ok image_hash m t d → Forall (λ k, Hex.is_hex k = true) (Dict.keys d).
Proof.
  intros [_ Hd]. unfold Dict.keys. apply Forall_fmap.
  eapply Forall_impl; [done|]. by intros e [? _].
Qed.

Lemma state_ok_nil : state_ok image_hash m t [].
Proof. split; [apply NoDup_nil_2 | constructor]. Qed.

Lemma group_ok_extend k g path h :
  group_ok image_hash m t (k, g) → hash_of path = Some h →
  h = k ∨ within t h k → group_ok image_hash m t (k, g ++ [path]).
Proof.
  intros (Hk & (seed & rest & Hg & Hseed) & Hmem) Hh Hnear. simpl in *.
  split_and!; simpl; [done | |].
  - exists seed, (rest ++ [path]). by rewrite Hg.
  - intros p [Hp | ->%list_elem_of_singleton]%elem_of_app; [by apply Hmem|].
    by exists h.
Qed.

Lemma group_ok_fresh path h :
  hash_of path = Some h → Hex.is_hex h = true → group_ok image_hash m t (h, [path]).
Proof.
  intros Hh Hhex. split_and!; simpl; [done | by exists path, [] |].
  intros p ->%list_elem_of_singleton. exists h. split; [done | by left].
Qed.

Lemma state_ok_lookup d k g :
  state_ok image_hash m t d → (k, g) ∈ d → group_ok image_hash m t (k, g).
Proof. intros [_ Hd] Hin. by eapply Forall_forall in Hd. Qed.

(** One iteration returns, keeps the invariant, and files the path in
    exactly one group when it has a fingerprint. *)
Lemma step_ok d path :
  state_ok image_hash m t d →
  (∀ h, hash_of path = Some h → Hex.is_hex h = true) →
  ∃ d', step image_hash m t d path = Returns d' ∧ state_ok image_hash m t d' ∧
        concat (Dict.values d') ≡ₚ
        concat (Dict.values d) ++ (if hash_of path is Some _ then [path] else []).
Proof.
  intros Hok Hhex. unfold step. destruct (hash_of path) as [h|] eqn:Hh.
  - specialize (Hhex h eq_refl).
    destruct (first_match_returns h (Dict.keys d) Hhex (state_ok_keys_hex d Hok))
      as [r Hr].
    rewrite Hr. simpl. pose proof (first_match_inv _ _ _ Hr) as Hinv.
    destruct r as [k|]; eexists; (split; [done|]); split; try apply append_values.
    + destruct Hinv as [Hk Hnear]. split; [apply append_keys_NoDup, Hok|].
      apply append_Forall; [apply Hok | |done].
      intros g Hg. eapply group_ok_extend; [by eapply state_ok_lookup | done | by right].
    + split; [apply append_keys_NoDup, Hok|].
      apply append_Forall; [apply Hok | |].
      * intros g Hg. eapply group_ok_extend; [by eapply state_ok_lookup | done | by left].
      * intros _. by apply group_ok_fresh.
  - exists d. split_and!; [done..|]. by rewrite (right_id_L [] (++)).
Qed.

Lemma loop_app d pre post :
  loop image_hash m t d (pre ++ post) =
  loop image_hash m t d pre ≫= λ d', loop image_hash m t d' post.
Proof.
  revert d. induction pre as [|p pre IH]; intros d; simpl; [done|].
  destruct (step image_hash m t d p) as [d'|e]; simpl; [apply IH | done].
Qed.

Lemma hashes_ok_spec paths :
  hashes_ok image_hash paths m = true ↔
  ∀ p h, p ∈ paths → hash_of p = Some h → Hex.is_hex h = true.
Proof.
  unfold hashes_ok. rewrite forallb_forall. split.
  - intros H p h Hp%list_elem_of_In Hh. specialize (H p Hp). by rewrite Hh in H.
  - intros H p Hp%list_elem_of_In. destruct (hash_of p) as [h|] eqn:Hh; [|done].
    by eapply H.
Qed.

(** The whole loop returns and keeps the invariant; the groups hold the
    paths that have a fingerprint, each as often as the input lists it. *)
Lemma loop_ok paths d :
  state_ok image_hash m t d → hashes_ok image_hash paths m = true →
  ∃ d', loop image_hash m t d paths = Returns d' ∧ state_ok image_hash m t d' ∧
        concat (Dict.values d') ≡ₚ
        concat (Dict.values d) ++ filter (λ p, is_Some (hash_of p)) paths.
Proof.
  rewrite hashes_ok_spec. revert d.
  induction paths as [|p paths IH]; intros d Hok Hhex; simpl.
  - exists d. split_and!; [done..|]. by rewrite filter_nil, (right_id_L [] (++)).
  - destruct (step_ok d p Hok) as (d1 & -> & Hok1 & Hperm1).
    { intros h. apply Hhex. left. }
    simpl. destruct (IH d1 Hok1) as (d' & -> & Hok' & Hperm').
    { intros q h Hq. apply Hhex. by right. }
    exists d'. split_and!; [done..|]. rewrite Hperm', Hperm1.
    rewrite <- (assoc_L (++)). f_equiv. rewrite filter_cons.
    destruct (hash_of p) eqn:Hp; case_decide as Hsome; try done.
    all: try (exfalso; apply Hsome; by eexists).
    all: try by destruct Hsome as [? [=]].
Qed.

Lemma groups_of_size_two (d : list (string * list string)) g :
  g ∈ filter (λ group, 1 < length group) (Dict.values d) →
  2 ≤ length g ∧ ∃ k, (k, g) ∈ d.
Proof.
  intros [Hlen Hin]%list_elem_of_filter. split; [lia|].
  apply list_elem_of_fmap in Hin as ([k g'] & -> & Hin). by exists k.
Qed.

End HashFacts.

(** *** The order of the representatives decides, not the distance *)

(** C1, as stated, fails: with representatives [a] (fingerprint 0) and [b]
    (fingerprint 7) and threshold 2, the image [c] (fingerprint 3) is at
    distance 2 from [a] and at distance 1 from [b]; the program files it
    with [a], the first representative within the threshold, and not with
    [b], the representative at the minimum distance. *)
Lemma hash_minimum_distance_counterexample :
  let image_hash := Sample.near_second in
  let hash_groups := [("0000000000000000", ["a.png"]); ("0000000000000007", ["b.png"])] in
  HashClusterer.loop image_hash "phash" 2 [] ["a.png"; "b.png"] = Returns hash_groups
  ∧ Hex.hamming_distance "0000000000000003" "0000000000000000" = Returns 2
  ∧ Hex.hamming_distance "0000000000000003" "0000000000000007" = Returns 1
  ∧ HashClusterer.step image_hash "phash" 2 hash_groups "c.png"
    = Returns [("0000000000000000", ["a.png"; "c.png"]); ("0000000000000007", ["b.png"])]
  ∧ HashClusterer.step image_hash "phash" 2 hash_groups "c.png"
    ≠ Returns [("0000000000000000", ["a.png"]); ("0000000000000007", ["b.png"; "c.png"])]
  ∧ HashClusterer.find_duplicate_groups image_hash ["a.png"; "b.png"; "c.png"] "phash" 2
    = Returns [["a.png"; "c.png"]].
Proof. vm_compute. split_and!; try reflexivity. discriminate. Qed.

(** C1, amended: the loop of [find_duplicate_groups] takes the images in
    input order.  When the image [path] with fingerprint [img_hash] is
    reached, [hash_groups] holds the groups formed so far, its keys being
    the representatives in the order in which they were created, each the
    fingerprint of the first image of its group.  The image is appended to
    the group of the FIRST representative within the threshold; when every
    representative is beyond the threshold it is filed under its own
    fingerprint, which starts a new group at the end (always so when the
    threshold is not negative), or extends the group that already has this
    very fingerprint as its key. *)
Theorem hash_step_first_match
    (image_hash : string → string → option string)
    (pre : list string) (path : string) (post : list string)
    (hash_method : string) (threshold : Z) (img_hash : string) :
  HashClusterer.hashes_ok image_hash (pre ++ [path]) hash_method = true →
  HashClusterer.compute_hash image_hash path hash_method = Some img_hash →
  ∃ hash_groups,
    HashClusterer.loop image_hash hash_method threshold [] pre = Returns hash_groups ∧
    HashClusterer.loop image_hash hash_method threshold [] (pre ++ path :: post)
    = (HashClusterer.step image_hash hash_method threshold hash_groups path
         ≫= λ d, HashClusterer.loop image_hash hash_method threshold d post) ∧
    HashClusterer.state_ok image_hash hash_method threshold hash_groups ∧
    let reps := Dict.keys hash_groups in
    (∀ k, k ∈ reps →
       HashClusterer.within threshold img_hash k ∨ HashClusterer.beyond threshold img_hash k) ∧
    (∀ i k,
       reps !! i = Some k →
       HashClusterer.within threshold img_hash k →
       (∀ j k', j < i → reps !! j = Some k' → HashClusterer.beyond threshold img_hash k') →
       HashClusterer.step image_hash hash_method threshold hash_groups path
       = Returns (alter (λ e, (e.1, e.2 ++ [path])) i hash_groups)) ∧
    ((∀ k, k ∈ reps → HashClusterer.beyond threshold img_hash k) →
       (img_hash ∉ reps →
        HashClusterer.step image_hash hash_method threshold hash_groups path
        = Returns (hash_groups ++ [(img_hash, [path])])) ∧
       (∀ i, reps !! i = Some img_hash →
        HashClusterer.step image_hash hash_method threshold hash_groups path
        = Returns (alter (λ e, (e.1, e.2 ++ [path])) i hash_groups)) ∧
       ((0 ≤ threshold)%Z → img_hash ∉ reps)).
Proof.
  intros Hhex Hh.
  assert (Hpre : HashClusterer.hashes_ok image_hash pre hash_method = true).
  { apply hashes_ok_spec. intros p h Hp.
    apply (proj1 (hashes_ok_spec image_hash hash_method (pre ++ [path])) Hhex).
    apply elem_of_app. by left. }
  assert (Hhex' : Hex.is_hex img_hash = true).
  { apply (proj1 (hashes_ok_spec image_hash hash_method (pre ++ [path])) Hhex path);
      [|done].
    apply elem_of_app. right. left. }
  destruct (loop_ok image_hash hash_method threshold pre [])
    as (d & Hloop & Hok & _); [apply state_ok_nil | done |].
  exists d. split; [done|]. split.
  { rewrite loop_app, Hloop. done. }
  split; [done|]. simpl.
  pose proof (state_ok_keys_hex _ _ _ _ Hok) as Hkeys.
  split_and!.
  - intros k Hk. apply within_or_beyond; [done|].
    by eapply Forall_forall in Hkeys.
  - intros i k Hi Hin Hbefore. unfold HashClusterer.step. rewrite Hh.
    rewrite (first_match_found _ _ _ i k) by done. simpl.
    f_equal. apply append_present; [apply Hok | done].
  - intros Hall. unfold HashClusterer.step. rewrite Hh.
    rewrite first_match_none by done. simpl. split_and!.
    + intros Hnew. f_equal. by apply append_absent.
    + intros i Hi. f_equal. apply append_present; [apply Hok | done].
    + intros Hpos Hin. eapply within_not_beyond; [|by apply Hall].
      exists 0. split; [by apply hamming_self | done].
Qed.

(** The amended statement at the input of the counterexample: [c] joins the
    group of [a], the representative at index 0. *)
Lemma hash_step_first_match_witness :
  HashClusterer.hashes_ok Sample.near_second (["a.png"; "b.png"] ++ ["c.png"]) "phash" = true
  ∧ HashClusterer.compute_hash Sample.near_second "c.png" "phash"
    = Some "0000000000000003"
  ∧ ∃ hash_groups,
      HashClusterer.loop Sample.near_second "phash" 2 [] ["a.png"; "b.png"]
      = Returns hash_groups
      ∧ HashClusterer.state_ok Sample.near_second "phash" 2 hash_groups.
Proof.
  split; [reflexivity|]. split; [reflexivity|].
  destruct (hash_step_first_match Sample.near_second ["a.png"; "b.png"] "c.png" []
              "phash" 2 "0000000000000003" eq_refl eq_refl)
    as (hash_groups & Hloop & _ & Hok & _).
  exists hash_groups. split; [exact Hloop | exact Hok].
Defined.

(** *** What the invariant says about the members of a group *)

Section HashMembers.
Import HashClusterer.
Variable image_hash : string → string → option string.
Variables (m : string) (t : Z).

Lemma elem_of_concat {A} (x : A) (ls : list (list A)) :
  x ∈ concat ls ↔ ∃ l, x ∈ l ∧ l ∈ ls.
Proof.
  induction ls as [|l0 ls IH]; simpl.
  - split; [by intros ?%elem_of_nil | by intros (l & _ & ?%elem_of_nil)].
  - rewrite elem_of_app, IH. split.
    + intros [Hx | (l & Hx & Hl)]; [exists l0; split; [done | left] |].
      exists l. split; [done | by right].
    + intros (l & Hx & [-> | Hl]%elem_of_cons); [by left | right; by exists l].
Qed.

(** Dropping lists from a list of pairwise disjoint, repetition-free
    lists leaves such a list. *)
Lemma NoDup_concat_filter {A} (P : list A → Prop) `{!∀ l, Decision (P l)}
    (ls : list (list A)) :
  NoDup (concat ls) → NoDup (concat (filter P ls)).
Proof.
  induction ls as [|l ls IH]; [done|]. simpl.
  intros (Hl & Hdisj & Hls)%NoDup_app. rewrite filter_cons.
  case_decide; [|by apply IH]. simpl. apply NoDup_app. split_and!; [done | | by apply IH].
  intros x Hx Hin. apply (Hdisj x Hx).
  apply elem_of_concat in Hin as (l' & Hxl' & [_ Hl']%list_elem_of_filter).
  apply elem_of_concat. by exists l'.
Qed.

(** With a threshold that is not negative every member, whichever way it
    joined, is within the threshold of the key. *)
Lemma member_within k g p :
  (0 ≤ t)%Z → group_ok image_hash m t (k, g) → p ∈ g →
  ∃ h d, compute_hash image_hash p m = Some h ∧
         Hex.hamming_distance h k = Returns d ∧ (Z.of_nat d ≤ t)%Z.
Proof.
  intros Ht (Hk & _ & Hmem) Hp. simpl in *.
  destruct (Hmem p Hp) as (h & Hh & [-> | (d & Hd & Hle)]).
  - exists k, 0. split_and!; [done | by apply hamming_self | done].
  - by exists h, d.
Qed.

Lemma members_close k g p q :
  (0 ≤ t)%Z → group_ok image_hash m t (k, g) → p ∈ g → q ∈ g →
  ∃ hp hq d, compute_hash image_hash p m = Some hp ∧
             compute_hash image_hash q m = Some hq ∧
             Hex.hamming_distance hp hq = Returns d ∧ (Z.of_nat d ≤ 2 * t)%Z.
Proof.
  intros Ht Hok Hp Hq.
  destruct (member_within k g p Ht Hok Hp) as (hp & dp & Hhp & Hdp & Hlp).
  destruct (member_within k g q Ht Hok Hq) as (hq & dq & Hhq & Hdq & Hlq).
  apply hamming_inv in Hdp as (x & y & Hx & Hy & ->).
  apply hamming_inv in Hdq as (x' & y' & Hx' & Hy' & ->).
  rewrite Hy in Hy'. injection Hy' as <-.
  exists hp, hq, (Hex.bit_count (N.lxor x x')). split_and!; [done..| |].
  - apply hamming_inv. by exists x, x'.
  - pose proof (bit_count_triangle x y x') as Htri.
    rewrite (N.lxor_comm y x') in Htri. lia.
Qed.

End HashMembers.

(** *** Threshold 0 *)

(** The fingerprints of the specification's example: [1010] and [1010] are
    grouped, [1011] is not. *)
Example hash_threshold_zero_example :
  HashClusterer.find_duplicate_groups Sample.exact ["a.png"; "b.png"; "c.png"] "phash" 0
  = Returns [["a.png"; "b.png"]].
Proof. reflexivity. Qed.

(** The other example of the specification: with fingerprints [0000],
    [0001] and [1111], threshold 1 groups the first two and drops the
    third; threshold 4 groups all three. *)
Example hash_threshold_one_and_four :
  let image_hash : string → string → option string :=
    λ _, table [("a.png", "0"); ("b.png", "1"); ("c.png", "f")] in
  HashClusterer.find_duplicate_groups image_hash ["a.png"; "b.png"; "c.png"] "phash" 1
  = Returns [["a.png"; "b.png"]]
  ∧ HashClusterer.find_duplicate_groups image_hash ["a.png"; "b.png"; "c.png"] "phash" 4
    = Returns [["a.png"; "b.png"; "c.png"]].
Proof. split; reflexivity. Qed.

(** C6: at threshold 0 the run returns, and any two images of a returned
    group have fingerprints that read as the same number, bit for bit;
    images with unequal fingerprints are therefore never in one group. *)
Theorem hash_threshold_zero_exact
    (image_hash : string → string → option string)
    (image_paths : list string) (hash_method : string) :
  HashClusterer.hashes_ok image_hash image_paths hash_method = true →
  ∃ groups,
    HashClusterer.find_duplicate_groups image_hash image_paths hash_method 0
    = Returns groups ∧
    ∀ g p q, g ∈ groups → p ∈ g → q ∈ g →
      ∃ hp hq x,
        HashClusterer.compute_hash image_hash p hash_method = Some hp ∧
        HashClusterer.compute_hash image_hash q hash_method = Some hq ∧
        Hex.int16 hp = Returns x ∧ Hex.int16 hq = Returns x.
Proof.
  intros Hhex.
  destruct (loop_ok image_hash hash_method 0 image_paths [])
    as (d & Hloop & Hok & _); [apply state_ok_nil | done |].
  unfold HashClusterer.find_duplicate_groups. rewrite Hloop. simpl.
  eexists. split; [done|]. intros g p q Hg Hp Hq.
  apply groups_of_size_two in Hg as [_ [k Hk]].
  pose proof (state_ok_lookup _ _ _ _ _ _ Hok Hk) as Hgroup.
  destruct (member_within image_hash hash_method 0 k g p) as (hp & dp & Hhp & Hdp & Hlp);
    [done..|].
  destruct (member_within image_hash hash_method 0 k g q) as (hq & dq & Hhq & Hdq & Hlq);
    [done..|].
  apply hamming_inv in Hdp as (x & y & Hx & Hy & ->).
  apply hamming_inv in Hdq as (x' & y' & Hx' & Hy' & ->).
  rewrite Hy in Hy'. injection Hy' as <-.
  assert (x = y) as -> by (apply N.lxor_eq, bit_count_zero; lia).
  assert (x' = y) as -> by (apply N.lxor_eq, bit_count_zero; lia).
  by exists hp, hq, y.
Qed.

Lemma hash_threshold_zero_exact_witness :
  HashClusterer.hashes_ok Sample.exact ["a.png"; "b.png"; "c.png"] "phash" = true
  ∧ ∃ groups,
      HashClusterer.find_duplicate_groups Sample.exact
        ["a.png"; "b.png"; "c.png"] "phash" 0 = Returns groups.
Proof.
  split; [reflexivity|].
  destruct (hash_threshold_zero_exact Sample.exact ["a.png"; "b.png"; "c.png"]
              "phash" eq_refl) as (groups & Hrun & _).
  exists groups. exact Hrun.
Defined.

(** *** Members are near the seed, not near each other *)

(** C10: with a threshold [t ≥ 0] the run returns, and in every returned
    group each member is within [t] of the fingerprint of the group's first
    image, hence any two members are within [2 t] of each other; and there
    is an input with [t = 1] and a returned group in which two members
    other than the seed are at distance [2 > t]. *)
Theorem hash_members_near_seed :
  (∀ (image_hash : string → string → option string) (image_paths : list string)
     (hash_method : string) (threshold : Z),
     (0 ≤ threshold)%Z →
     HashClusterer.hashes_ok image_hash image_paths hash_method = true →
     ∃ groups,
       HashClusterer.find_duplicate_groups image_hash image_paths hash_method threshold
       = Returns groups ∧
       ∀ g, g ∈ groups →
         ∃ seed rest hs,
           g = seed :: rest ∧
           HashClusterer.compute_hash image_hash seed hash_method = Some hs ∧
           (∀ p, p ∈ g →
              ∃ hp d, HashClusterer.compute_hash image_hash p hash_method = Some hp ∧
                      Hex.hamming_distance hp hs = Returns d ∧
                      (Z.of_nat d ≤ threshold)%Z) ∧
           (∀ p q, p ∈ g → q ∈ g →
              ∃ hp hq d,
                HashClusterer.compute_hash image_hash p hash_method = Some hp ∧
                HashClusterer.compute_hash image_hash q hash_method = Some hq ∧
                Hex.hamming_distance hp hq = Returns d ∧
                (Z.of_nat d ≤ 2 * threshold)%Z))
  ∧
  (∃ (image_hash : string → string → option string) (image_paths : list string)
     (threshold : Z) (seed p q hp hq : string) (d : nat),
     (1 ≤ threshold)%Z ∧
     HashClusterer.find_duplicate_groups image_hash image_paths "phash" threshold
     = Returns [[seed; p; q]] ∧
     HashClusterer.compute_hash image_hash p "phash" = Some hp ∧
     HashClusterer.compute_hash image_hash q "phash" = Some hq ∧
     Hex.hamming_distance hp hq = Returns d ∧
     (threshold < Z.of_nat d)%Z ∧ (Z.of_nat d = 2 * threshold)%Z).
Proof.
  split.
  - intros image_hash image_paths hash_method threshold Ht Hhex.
    destruct (loop_ok image_hash hash_method threshold image_paths [])
      as (d & Hloop & Hok & _); [apply state_ok_nil | done |].
    unfold HashClusterer.find_duplicate_groups. rewrite Hloop. simpl.
    eexists. split; [done|]. intros g Hg.
    apply groups_of_size_two in Hg as [_ [k Hk]].
    pose proof (state_ok_lookup _ _ _ _ _ _ Hok Hk) as Hgroup.
    destruct (Hgroup) as (_ & (seed & rest & Hseed & Hhs) & _).
    simpl in Hseed, Hhs. exists seed, rest, k. split_and!; [done..| |].
    + intros p Hp.
      by apply (member_within image_hash hash_method threshold k g p Ht).
    + intros p q Hp Hq.
      by apply (members_close image_hash hash_method threshold k g p q Ht).
  - exists Sample.around_seed, ["a.png"; "b.png"; "c.png"], 1%Z,
      "a.png", "b.png", "c.png", "0000000000000001", "0000000000000002", 2.
    split_and!; try reflexivity; lia.
Qed.

Lemma hash_members_near_seed_witness :
  (0 ≤ 1)%Z
  ∧ HashClusterer.hashes_ok Sample.around_seed ["a.png"; "b.png"; "c.png"] "phash" = true
  ∧ ∃ groups,
      HashClusterer.find_duplicate_groups Sample.around_seed
        ["a.png"; "b.png"; "c.png"] "phash" 1 = Returns groups.
Proof.
  split; [lia|]. split; [reflexivity|].
  destruct (proj1 hash_members_near_seed Sample.around_seed
              ["a.png"; "b.png"; "c.png"] "phash" 1%Z ltac:(lia) eq_refl)
    as (groups & Hrun & _).
  exists groups. exact Hrun.
Defined.

(** ** FeatureClusterer *)

Section RecordFacts.
Import FeatureClusterer.
Implicit Types (members seeds : gset string) (trace : list event).

Lemma scans_fresh_app members seeds trace trace' :
  scans_fresh members seeds (trace ++ trace') ↔
  scans_fresh members seeds trace ∧
  scans_fresh (members ∪ members_of trace) (seeds ∪ seeds_of trace) trace'.
Proof.
  revert members seeds. induction trace as [|[p|p1 p2|p1 p2] trace IH];
    intros members seeds; simpl.
  - by rewrite !(right_id_L ∅ (∪)), (left_id True and).
  - apply IH.
  - rewrite IH. tauto.
  - rewrite IH.
    by rewrite !(assoc_L (∪)).
Qed.

Lemma scans_fresh_detect members seeds image_paths :
  scans_fresh members seeds (Detect <$> image_paths).
Proof. induction image_paths; simpl; done. Qed.

Lemma join_recorded trace path1 path2 :
  Join path1 path2 ∈ trace → path2 ∈ members_of trace ∧ path1 ∈ seeds_of trace.
Proof.
  induction trace as [|e trace IH]; [by intros ?%elem_of_nil|].
  intros [<- | Hin]%elem_of_cons; simpl; [set_solver|].
  destruct (IH Hin). destruct e; set_solver.
Qed.

(** A comparison in a fresh record involves no image that an earlier
    entry of the record placed in a group, except that the seed of the
    current scan may already have members. *)
Lemma scans_fresh_split trace pre post p1 p2 s x :
  scans_fresh ∅ ∅ trace → trace = pre ++ Compare p1 p2 :: post →
  Join s x ∈ pre → p2 ≠ s ∧ p2 ≠ x ∧ p1 ≠ x.
Proof.
  intros Hfresh -> [Hx Hs]%join_recorded.
  apply scans_fresh_app in Hfresh as [_ Hfresh]. simpl in Hfresh.
  destruct Hfresh as (Hm & Hseed & Hown & _). set_solver.
Qed.

End RecordFacts.

Section FeatureFacts.
Import FeatureClusterer.
Context {descriptors : Type}.
Variable detect : string → option descriptors.
Variable good_matches : descriptors → descriptors → option nat.
Variable min_matches : Z.

Implicit Types (items rest : list (string * descriptors))
  (processed members seeds : gset string) (trace : list event).

Lemma set_keys (k : string) (v : descriptors) items :
  Dict.keys (Dict.set k v items) =
  if decide (k ∈ Dict.keys items) then Dict.keys items else Dict.keys items ++ [k].
Proof.
  induction items as [|[k' v'] items IH]; simpl; [done|].
  destruct (decide (k' = k)) as [->|Hne]; simpl.
  - rewrite decide_True; [done | left].
  - rewrite IH. destruct (decide (k ∈ Dict.keys items)).
    + rewrite decide_True; [done | by right].
    + rewrite decide_False; [done|].
      intros [?|?]%elem_of_cons; [congruence | done].
Qed.

Lemma set_keys_NoDup (k : string) (v : descriptors) items :
  NoDup (Dict.keys items) → NoDup (Dict.keys (Dict.set k v items)).
Proof.
  intros Hnd. rewrite set_keys. case_decide; [done|].
  apply NoDup_app. split_and!; [done | | apply NoDup_singleton].
  by intros y Hy ->%list_elem_of_singleton.
Qed.

(** The dictionary of features has each path once, and the record has
    one entry for each input image whose descriptors are stored. *)
Lemma detect_loop_spec image_paths items :
  NoDup (Dict.keys items) →
  NoDup (Dict.keys (detect_loop detect image_paths items).1) ∧
  (detect_loop detect image_paths items).2 = Detect <$> detected detect image_paths.
Proof.
  unfold detected.
  revert items. induction image_paths as [|p ps IH]; intros items Hnd; [done|].
  cbn [detect_loop]. rewrite filter_cons. destruct (detect p) as [des|] eqn:Hp.
  - rewrite decide_True by done.
    destruct (IH (Dict.set p des items)) as [H1 H2]; [by apply set_keys_NoDup|].
    destruct (detect_loop detect ps (Dict.set p des items)) as [f tr].
    simpl in *. by rewrite H2.
  - rewrite decide_False by (by intros [? ?]). by apply IH.
Qed.

(** One scan: the images it appends are new to every group, and its
    record is fresh. *)
Lemma scan_spec path1 des1 rest group processed members seeds :
  NoDup (Dict.keys rest) → path1 ∉ Dict.keys rest →
  members ⊆ processed → path1 ∉ members →
  (∀ p, p ∈ Dict.keys rest → p ∉ seeds) →
  ∃ new processed' trace,
    scan good_matches min_matches path1 des1 rest group processed
    = (group ++ new, processed', trace) ∧
    processed' = processed ∪ list_to_set new ∧
    NoDup new ∧
    (∀ x, x ∈ new → x ∈ Dict.keys rest ∧ x ∉ processed) ∧
    members_of trace = list_to_set new ∧
    seeds_of trace ⊆ {[path1]} ∧
    scans_fresh members seeds trace.
Proof.
  revert group processed members seeds.
  induction rest as [|[path2 des2] rest IH];
    intros group processed members seeds Hnd Hp1 Hsub Hown Hseeds; simpl.
  { exists [], processed, []. rewrite (right_id_L [] (++)). simpl.
    split_and!; try done; try apply NoDup_nil_2; set_solver. }
  simpl in Hnd, Hp1. apply NoDup_cons in Hnd as [Hp2 Hnd].
  apply not_elem_of_cons in Hp1 as [Hne Hp1].
  assert (Hseeds' : ∀ p, p ∈ Dict.keys rest → p ∉ seeds).
  { intros p Hp. apply Hseeds. simpl. by right. }
  assert (Hp2s : path2 ∉ seeds) by (apply Hseeds; simpl; left).
  (* the three ways in which the scan goes on without appending *)
  assert (Hskip : ∀ tr0, scans_fresh members seeds tr0 → members_of tr0 = ∅ →
            seeds_of tr0 = ∅ →
            ∃ new processed' trace,
              (let '(g', pr', tr) :=
                 scan good_matches min_matches path1 des1 rest group processed in
               (g', pr', tr0 ++ tr)) = (group ++ new, processed', trace) ∧
              processed' = processed ∪ list_to_set new ∧ NoDup new ∧
              (∀ x, x ∈ new → x ∈ Dict.keys ((path2, des2) :: rest) ∧ x ∉ processed) ∧
              members_of trace = list_to_set new ∧ seeds_of trace ⊆ {[path1]} ∧
              scans_fresh members seeds trace).
  { intros tr0 Hfr0 Hm0 Hs0.
    destruct (IH group processed members seeds Hnd Hp1 Hsub Hown Hseeds')
      as (new & pr' & tr & -> & Hpr & Hnew & Hin & Hmem & Hsd & Hfr).
    exists new, pr', (tr0 ++ tr). split_and!; try done.
    - intros x Hx. destruct (Hin x Hx). split; [simpl; by right | done].
    - clear -Hm0 Hmem. induction tr0 as [|[]]; simpl in *; set_solver.
    - clear -Hs0 Hsd. induction tr0 as [|[]]; simpl in *; set_solver.
    - apply scans_fresh_app. split; [done|]. rewrite Hm0, Hs0.
      by rewrite !(right_id_L ∅ (∪)). }
  destruct (decide (path2 ∈ processed)) as [Hproc|Hproc].
  { destruct (Hskip [] I eq_refl eq_refl) as (new & pr' & tr & Heq & Hrest).
    exists new, pr', tr. split; [|done].
    destruct (scan good_matches min_matches path1 des1 rest group processed)
      as [[??]?]. done. }
  assert (Hcmp : scans_fresh members seeds [Compare path1 path2]).
  { simpl. split_and!; [set_solver | done | done | done]. }
  destruct (good_matches des1 des2) as [good|]; [|by apply (Hskip [_])].
  destruct (decide (min_matches ≤ Z.of_nat good)%Z); [|by apply (Hskip [_])].
  destruct (IH (group ++ [path2]) (processed ∪ {[path2]})
               (members ∪ {[path2]}) (seeds ∪ {[path1]}))
    as (new & pr' & tr & -> & Hpr & Hnew & Hin & Hmem & Hsd & Hfr);
    [done | done | set_solver | set_solver | set_solver |].
  exists (path2 :: new), pr', (Compare path1 path2 :: Join path1 path2 :: tr).
  split_and!.
  - by rewrite <- (assoc_L (++)).
  - rewrite Hpr. set_solver.
  - apply NoDup_cons. split; [|done]. intros Hx. destruct (Hin _ Hx). done.
  - intros x [->|Hx]%elem_of_cons; [split; [simpl; left | done]|].
    destruct (Hin x Hx). split; [simpl; by right | set_solver].
  - simpl. rewrite Hmem. done.
  - simpl. set_solver.
  - simpl. split_and!; [set_solver | done | done | done].
Qed.

(** The grouping loop: groups stay pairwise disjoint, free of
    repetitions and of size two at least, and the record stays fresh. *)
Lemma group_loop_spec items processed groups members seeds :
  NoDup (Dict.keys items) →
  members ⊆ processed →
  (∀ p, p ∈ Dict.keys items → p ∉ seeds) →
  NoDup (concat groups) →
  (∀ x, x ∈ concat groups → x ∈ processed) →
  Forall (λ g, 2 ≤ length g) groups →
  ∃ groups' trace,
    group_loop good_matches min_matches items processed groups = (groups', trace) ∧
    NoDup (concat groups') ∧
    Forall (λ g, 2 ≤ length g) groups' ∧
    scans_fresh members seeds trace.
Proof.
  revert processed groups members seeds.
  induction items as [|[path1 des1] rest IH];
    intros processed groups members seeds Hnd Hsub Hseeds Hdisj Hin Hsize; simpl.
  { by exists groups, []. }
  simpl in Hnd. apply NoDup_cons in Hnd as [Hp1 Hnd].
  assert (Hseeds' : ∀ p, p ∈ Dict.keys rest → p ∉ seeds).
  { intros p Hp. apply Hseeds. simpl. by right. }
  destruct (decide (path1 ∈ processed)) as [Hproc|Hproc]; [by apply IH|].
  destruct (scan_spec path1 des1 rest [path1] processed members seeds)
    as (new & pr' & tr & -> & Hpr & Hnew & Hnewin & Hmem & Hsd & Hfr);
    [done | done | done | set_solver | done |].
  assert (Hseeds'' : ∀ p, p ∈ Dict.keys rest → p ∉ seeds ∪ seeds_of tr).
  { intros p Hp. specialize (Hseeds' p Hp).
    assert (p ≠ path1) by (by intros ->). set_solver. }
  destruct (decide (1 < length ([path1] ++ new))) as [Hlen|Hlen].
  - destruct (IH (pr' ∪ {[path1]}) (groups ++ [[path1] ++ new])
                 (members ∪ members_of tr) (seeds ∪ seeds_of tr))
      as (groups' & tr' & -> & Hdisj' & Hsize' & Hfr'); [done | set_solver | done | | | |].
    + rewrite concat_app. simpl. rewrite (right_id_L [] (++)).
      apply NoDup_app. split_and!; [done | |].
      * intros x Hx [->|Hxn]%elem_of_cons; [by apply Hproc, Hin|].
        destruct (Hnewin x Hxn) as [_ Hxp]. by apply Hxp, Hin.
      * apply NoDup_cons. split; [|done]. intros Hx. by destruct (Hnewin _ Hx).
    + intros x. rewrite concat_app, elem_of_app. simpl. rewrite (right_id_L [] (++)).
      intros [Hx | [->|Hx]%elem_of_cons]; [specialize (Hin x Hx) | |];
        set_solver.
    + apply Forall_app. split; [done|]. constructor; [lia | constructor].
    + exists groups', (tr ++ tr'). split_and!; [done..|].
      apply scans_fresh_app. by split.
  - destruct (IH pr' groups (members ∪ members_of tr) (seeds ∪ seeds_of tr))
      as (groups' & tr' & -> & Hdisj' & Hsize' & Hfr');
      [done | set_solver | done | done | set_solver | done |].
    exists groups', (tr ++ tr'). split_and!; [done..|].
    apply scans_fresh_app. by split.
Qed.

(** The whole run. *)
Lemma run_spec image_paths :
  ∃ groups trace,
    run detect good_matches image_paths min_matches
    = (groups, (Detect <$> detected detect image_paths) ++ trace) ∧
    NoDup (concat groups) ∧
    Forall (λ g, 2 ≤ length g) groups ∧
    scans_fresh ∅ ∅ ((Detect <$> detected detect image_paths) ++ trace).
Proof.
  unfold run.
  destruct (detect_loop_spec image_paths []) as [Hnd Htr]; [apply NoDup_nil_2|].
  destruct (detect_loop detect image_paths []) as [features tr0]. simpl in *. subst tr0.
  destruct (group_loop_spec features ∅ [] ∅ ∅)
    as (groups & tr & -> & Hdisj & Hsize & Hfr);
    [done | done | set_solver | apply NoDup_nil_2 | by intros x ?%elem_of_nil | done |].
  exists groups, tr. split_and!; [done..|].
  apply scans_fresh_app. split; [apply scans_fresh_detect|].
  assert (members_of (Detect <$> detected detect image_paths) = ∅) as ->.
  { clear. induction (detected detect image_paths); simpl; done. }
  assert (seeds_of (Detect <$> detected detect image_paths) = ∅) as ->.
  { clear. induction (detected detect image_paths); simpl; done. }
  by rewrite !(right_id_L ∅ (∪)).
Qed.

End FeatureFacts.

(** *** Groups do not overlap *)

(** C3: the hash method breaks the claim.  [find_duplicate_groups] files
    every occurrence of a path: on the input [a.png, a.png], which
    [add_images] builds when the file is added twice, it returns the group
    [a.png, a.png], a group of "duplicates" that holds one path twice.
    [find_duplicate_groups_by_sift], which keys its features by path,
    returns no group on the same input. *)
Theorem hash_repeated_path_grouped_with_itself :
  HashClusterer.find_duplicate_groups Sample.exact ["a.png"; "a.png"] "phash" 0
  = Returns [["a.png"; "a.png"]]
  ∧ ¬ NoDup (concat [["a.png"; "a.png"]])
  ∧ FeatureClusterer.find_duplicate_groups_by_sift Sample.three_features
      Sample.one_good_match ["a.png"; "a.png"] 1
    = Returns [].
Proof.
  split_and!; [reflexivity | | reflexivity].
  simpl. intros [Hin _]%NoDup_cons. apply Hin. left.
Qed.

(** *** Who is compared with whom *)

(** C4, as stated, fails: there is no input on which a scan compares
    against an image that an earlier step has placed in a group, be it as
    a member or as the seed. *)
Lemma sift_grouped_image_compared_counterexample :
  ¬ ∃ (descriptors : Type) (detect : string → option descriptors)
      (good_matches : descriptors → descriptors → option nat)
      (image_paths : list string) (min_matches : Z)
      (pre post : list FeatureClusterer.event) (path1 path2 seed member : string),
      FeatureClusterer.events detect good_matches image_paths min_matches
      = pre ++ FeatureClusterer.Compare path1 path2 :: post
      ∧ FeatureClusterer.Join seed member ∈ pre
      ∧ (path2 = seed ∨ path2 = member).
Proof.
  intros (descriptors & detect & good_matches & image_paths & min_matches & pre & post
          & path1 & path2 & seed & member & Hev & Hjoin & Hgrouped).
  destruct (run_spec detect good_matches min_matches image_paths)
    as (groups & tr & Hrun & _ & _ & Hfresh).
  unfold FeatureClusterer.events in Hev. rewrite Hrun in Hev. simpl in Hev.
  destruct (scans_fresh_split _ pre post path1 path2 seed member Hfresh Hev Hjoin)
    as (Hs & Hm & _).
  by destruct Hgrouped.
Qed.

(** C4, amended: an image that has been placed in a group never seeds a
    later group and is skipped by every later scan; a scan compares its
    seed only with later images that are in no group yet.  In the record
    of any run, a comparison of seed [path1] with [path2] comes after no
    step that put [path2] into a group or gave [path2] a member, and after
    no step that made [path1] a member.  Membership is tested against the
    seed's descriptors alone: there is an input on which a seed that
    already has a member is compared with a further, later image. *)
Theorem sift_scans_skip_grouped :
  (∀ (descriptors : Type) (detect : string → option descriptors)
     (good_matches : descriptors → descriptors → option nat)
     (image_paths : list string) (min_matches : Z)
     (pre post : list FeatureClusterer.event) (path1 path2 : string),
     FeatureClusterer.events detect good_matches image_paths min_matches
     = pre ++ FeatureClusterer.Compare path1 path2 :: post →
     ∀ seed member, FeatureClusterer.Join seed member ∈ pre →
       path2 ≠ seed ∧ path2 ≠ member ∧ path1 ≠ member)
  ∧
  (∃ (pre post : list FeatureClusterer.event),
     FeatureClusterer.events Sample.three_features Sample.one_good_match
       ["a.png"; "b.png"; "c.png"] 1
     = pre ++ FeatureClusterer.Compare "a.png" "c.png" :: post
     ∧ FeatureClusterer.Join "a.png" "b.png" ∈ pre
     ∧ FeatureClusterer.find_duplicate_groups_by_sift Sample.three_features
         Sample.one_good_match ["a.png"; "b.png"; "c.png"] 1
       = Returns [["a.png"; "b.png"; "c.png"]]).
Proof.
  split.
  - intros descriptors detect good_matches image_paths min_matches pre post
      path1 path2 Hev seed member Hjoin.
    destruct (run_spec detect good_matches min_matches image_paths)
      as (groups & tr & Hrun & _ & _ & Hfresh).
    unfold FeatureClusterer.events in Hev. rewrite Hrun in Hev. simpl in Hev.
    by eapply scans_fresh_split.
  - exists [FeatureClusterer.Detect "a.png"; FeatureClusterer.Detect "b.png";
            FeatureClusterer.Detect "c.png"; FeatureClusterer.Compare "a.png" "b.png";
            FeatureClusterer.Join "a.png" "b.png"],
           [FeatureClusterer.Join "a.png" "c.png"].
    split_and!; [by vm_compute | set_solver | by vm_compute].
Qed.

Lemma sift_scans_skip_grouped_witness :
  FeatureClusterer.events Sample.three_features Sample.one_good_match
    ["a.png"; "b.png"; "c.png"] 1
  = [FeatureClusterer.Detect "a.png"; FeatureClusterer.Detect "b.png";
     FeatureClusterer.Detect "c.png"; FeatureClusterer.Compare "a.png" "b.png";
     FeatureClusterer.Join "a.png" "b.png"]
    ++ FeatureClusterer.Compare "a.png" "c.png" :: [FeatureClusterer.Join "a.png" "c.png"]
  ∧ "c.png" ≠ "a.png" ∧ "c.png" ≠ "b.png" ∧ "a.png" ≠ "b.png".
Proof.
  assert (Hev : FeatureClusterer.events Sample.three_features Sample.one_good_match
                  ["a.png"; "b.png"; "c.png"] 1
                = [FeatureClusterer.Detect "a.png"; FeatureClusterer.Detect "b.png";
                   FeatureClusterer.Detect "c.png"; FeatureClusterer.Compare "a.png" "b.png";
                   FeatureClusterer.Join "a.png" "b.png"]
                  ++ FeatureClusterer.Compare "a.png" "c.png"
                     :: [FeatureClusterer.Join "a.png" "c.png"])
    by (vm_compute; reflexivity).
  split; [exact Hev|].
  apply (proj1 sift_scans_skip_grouped nat Sample.three_features
           Sample.one_good_match ["a.png"; "b.png"; "c.png"] 1%Z _ _ "a.png" "c.png"
           Hev "a.png" "b.png").
  do 4 right. left.
Defined.

(** *** A threshold of matches that is not positive *)

Section NonPositive.
Import FeatureClusterer.
Context {descriptors : Type}.
Variable good_matches : descriptors → descriptors → option nat.
Variable min_matches : Z.
Hypothesis min_matches_le_0 : (min_matches ≤ 0)%Z.
Hypothesis matcher_returns : ∀ des1 des2, is_Some (good_matches des1 des2).


End NonPositive.

Section SkipProcessed.
Import FeatureClusterer.
Context {descriptors : Type}.
Variable good_matches : descriptors → descriptors → option nat.




End SkipProcessed.




(** ** The duplicate tree *)

Section TreeFacts.
Import Selection.
Implicit Types (t : tree) (it : file_item) (s : CheckState).

Lemma children_store_same t i j s :
  children (store t i j s) i = alter (λ it, FileItem (text1 it) s) j (children t i).
Proof.
  unfold children, store. rewrite list_lookup_alter_eq.
  destruct (t !! i) as [g|]; simpl; [done|]. done.
Qed.

Lemma children_store_other t i i' j s :
  i ≠ i' → children (store t i j s) i' = children t i'.
Proof. intros Hne. unfold children, store. by rewrite list_lookup_alter_ne. Qed.

Lemma child_store_same t i j s it :
  child t i j = Some it → child (store t i j s) i j = Some (FileItem (text1 it) s).
Proof.
  unfold child. intros Hit. rewrite children_store_same, list_lookup_alter_eq.
  by rewrite Hit.
Qed.

Lemma child_store_ne t i j j' s :
  j ≠ j' → child (store t i j s) i j' = child t i j'.
Proof.
  intros Hne. unfold child. by rewrite children_store_same, list_lookup_alter_ne.
Qed.

Lemma store_id t i j it :
  child t i j = Some it → store t i j (checkState it) = t.
Proof.
  unfold child, children, store. intros Hit.
  destruct (t !! i) as [g|] eqn:Hg; simpl in Hit; [|by rewrite lookup_nil in Hit].
  apply list_eq. intros i'. destruct (decide (i = i')) as [<-|Hne].
  - rewrite list_lookup_alter_eq, Hg. simpl. f_equal.
    apply list_eq. intros j'. destruct (decide (j = j')) as [<-|Hne'].
    + rewrite list_lookup_alter_eq, Hit. simpl. by destruct it.
    + by rewrite list_lookup_alter_ne.
  - by rewrite list_lookup_alter_ne.
Qed.

Lemma store_store t i j s s' :
  store (store t i j s) i j s' = store t i j s'.
Proof.
  unfold store. rewrite list_alter_alter_eq. apply list_alter_ext; [|done].
  intros g _. simpl. rewrite list_alter_alter_eq. by apply list_alter_ext.
Qed.

Lemma length_store t i j s : length (store t i j s) = length t.
Proof. unfold store. apply length_alter. Qed.

(** The number of checked rows before and after one row is stored. *)
Lemma selected_count_store t i j s it :
  child t i j = Some it →
  selected_count (store t i j s) i + (if decide (checkState it = Checked) then 1 else 0)
  = selected_count t i + (if decide (s = Checked) then 1 else 0).
Proof.
  unfold selected_count, child. rewrite children_store_same.
  generalize (children t i). intros g. revert j.
  induction g as [|it0 g IH]; intros j Hit; [by rewrite lookup_nil in Hit|].
  destruct j as [|j]; simpl in Hit.
  - injection Hit as ->. simpl. rewrite !filter_cons. simpl.
    repeat case_decide; simpl; try done; lia.
  - specialize (IH j Hit). unfold alter in IH |- *. simpl. rewrite !filter_cons.
    destruct (decide (checkState it0 = Checked)); simpl; lia.
Qed.

Lemma selected_count_checked t i j it :
  child t i j = Some it → checkState it = Checked → selected_count t i ≠ 0.
Proof.
  unfold selected_count, child. intros Hit Hc.
  assert (it ∈ filter (λ it, checkState it = Checked) (children t i)) as Hin.
  { apply list_elem_of_filter. split; [done|]. by eapply list_elem_of_lookup_2. }
  destruct (filter _ _); [by apply elem_of_nil in Hin | done].
Qed.

(** The slot leaves a group alone that has a checked row ... *)
Lemma slot_keeps fuel t i j column :
  selected_count t i ≠ 0 →
  on_selection_changed (S fuel) t (FileRow i j) column = Returns (t, []).
Proof. intros Hc. simpl. case_decide; [done|]. by rewrite decide_False. Qed.

Lemma slot_group fuel t i column :
  on_selection_changed (S fuel) t (GroupItem i) column = Returns (t, []).
Proof. done. Qed.

Lemma slot_unfold fuel t i j :
  on_selection_changed (S fuel) t (FileRow i j) 0
  = if decide (selected_count t i = 0)
    then '(t', ms) ← setCheckState (on_selection_changed fuel) t i j Checked;
         mret (t', ms ++ [KeepOneWarning])
    else Returns (t, []).
Proof. reflexivity. Qed.

(** ... and checks the changed row again, with a warning, when none is
    left. *)
Lemma slot_restores fuel t i j it :
  child t i j = Some it → selected_count t i = 0 →
  on_selection_changed (S (S (S fuel))) t (FileRow i j) 0
  = Returns (store t i j Checked, [KeepOneWarning]).
Proof.
  intros Hit Hzero. rewrite slot_unfold, decide_True by done.
  unfold setCheckState. rewrite Hit.
  rewrite decide_False.
  2:{ intros Hc. by eapply selected_count_checked. }
  rewrite slot_keeps.
  2:{ eapply selected_count_checked; [by apply child_store_same | done]. }
  simpl. done.
Qed.

(** [setCheckState] with the slot connected. *)
Lemma setCheckState_same fuel t i j it :
  child t i j = Some it →
  setCheckState (on_selection_changed fuel) t i j (checkState it) = Returns (t, []).
Proof. intros Hit. unfold setCheckState. rewrite Hit. by rewrite decide_True. Qed.

Lemma setCheckState_kept fuel t i j s it :
  child t i j = Some it → selected_count (store t i j s) i ≠ 0 →
  setCheckState (on_selection_changed (S fuel)) t i j s = Returns (store t i j s, []).
Proof.
  intros Hit Hc. destruct (decide (checkState it = s)) as [<-|Hne].
  - rewrite (setCheckState_same _ _ _ _ it) by done. by rewrite store_id.
  - unfold setCheckState. rewrite Hit, decide_False by done.
    rewrite slot_keeps by done. simpl. done.
Qed.

Lemma setCheckState_rejected fuel t i j s it :
  child t i j = Some it → checkState it ≠ s → selected_count (store t i j s) i = 0 →
  setCheckState (on_selection_changed (S (S (S fuel)))) t i j s
  = Returns (store t i j Checked, [KeepOneWarning]).
Proof.
  intros Hit Hne Hzero. unfold setCheckState. rewrite Hit, decide_False by done.
  rewrite (slot_restores _ _ _ _ (FileItem (text1 it) s));
    [|by apply child_store_same | done].
  rewrite store_store. cbn [mbind outcome_bind]. rewrite slot_group. done.
Qed.

End TreeFacts.

(** *** A toggle that would leave no keeper *)

(** C2: in a selection in which the group has at least one checked row,
    setting a row to a state that would leave the group without a checked
    row is rejected: the call returns the tree as it was before the
    attempt, together with the warning that every group must keep a file. *)
Theorem toggle_rejected_keeps_state
    (t : Selection.tree) (i j : nat) (s : Selection.CheckState)
    (it : Selection.file_item) :
  Selection.selected_count t i ≠ 0 →
  Selection.child t i j = Some it →
  Selection.selected_count (Selection.store t i j s) i = 0 →
  Selection.toggle t i j s = Returns (t, [Selection.KeepOneWarning]).
Proof.
  intros Hbefore Hit Hafter.
  pose proof (selected_count_store t i j s it Hit) as Hcount.
  rewrite Hafter in Hcount.
  assert (Selection.checkState it = Selection.Checked) as Hchecked.
  { destruct (decide (Selection.checkState it = Selection.Checked)); [done|].
    destruct (decide (s = Selection.Checked)); lia. }
  assert (Selection.checkState it ≠ s) as Hne.
  { intros <-. rewrite Hchecked in Hcount. rewrite !decide_True in Hcount by done. lia. }
  unfold Selection.toggle, Selection.recursion_limit.
  rewrite (setCheckState_rejected 997 t i j s it) by done.
  rewrite <- Hchecked. by rewrite store_id.
Qed.

Lemma toggle_rejected_keeps_state_witness :
  Selection.toggle
    [[Selection.FileItem "a.png" Selection.Checked;
      Selection.FileItem "b.png" Selection.Unchecked]] 0 0 Selection.Unchecked
  = Returns ([[Selection.FileItem "a.png" Selection.Checked;
               Selection.FileItem "b.png" Selection.Unchecked]],
             [Selection.KeepOneWarning]).
Proof.
  apply (toggle_rejected_keeps_state _ 0 0 Selection.Unchecked
           (Selection.FileItem "a.png" Selection.Checked)).
  - vm_compute. discriminate.
  - reflexivity.
  - reflexivity.
Defined.

(** *** The sort of [auto_select_files] *)

Section SortFacts.
Import Selection.
Implicit Types (x y z : nat * Z * Qc) (l : list (nat * Z * Qc)).

Lemma key_lt_trans x y z : key_lt x y → key_lt y z → key_lt x z.
Proof.
  unfold key_lt. intros [Hxy | [Hxy Hxy']] [Hyz | [Hyz Hyz']].
  - left. lia.
  - left. lia.
  - left. lia.
  - right. split; [lia|]. by eapply Qclt_trans.
Qed.

Lemma key_lt_asym x y : key_lt x y → ¬ key_lt y x.
Proof.
  unfold key_lt. intros [Hxy | [Hxy Hxy']] [Hyx | [Hyx Hyx']]; try lia.
  apply (Qclt_not_le _ _ Hxy'). by apply Qclt_le_weak.
Qed.

(** "Not below" is transitive: the order on keys is total. *)
Lemma key_lt_negtrans x y z : ¬ key_lt x y → ¬ key_lt y z → ¬ key_lt x z.
Proof.
  unfold key_lt. intros Hxy Hyz [Hxz | [Hxz Hxz']].
  - destruct (decide (x.1.2 < y.1.2)%Z); [apply Hxy; by left|].
    destruct (decide (y.1.2 < z.1.2)%Z); [apply Hyz; by left|]. lia.
  - destruct (decide (x.1.2 < y.1.2)%Z); [apply Hxy; by left|].
    destruct (decide (y.1.2 < z.1.2)%Z); [apply Hyz; by left|].
    assert (x.1.2 = y.1.2) as Hxy1 by lia. assert (y.1.2 = z.1.2) as Hyz1 by lia.
    assert (y.2 ≤ x.2)%Qc as Hle1.
    { apply Qcnot_lt_le. intros H. apply Hxy. by right. }
    assert (z.2 ≤ y.2)%Qc as Hle2.
    { apply Qcnot_lt_le. intros H. apply Hyz. by right. }
    apply (Qclt_not_le _ _ Hxz'). by eapply Qcle_trans.
Qed.

Lemma insert_desc_Permutation x l : insert_desc x l ≡ₚ x :: l.
Proof.
  induction l as [|y l IH]; simpl; [done|].
  case_decide; [|done]. rewrite IH. apply Permutation_swap.
Qed.

Lemma sort_desc_Permutation l : sort_desc l ≡ₚ l.
Proof.
  induction l as [|x l IH]; simpl; [done|].
  rewrite insert_desc_Permutation. by f_equiv.
Qed.

(** The sorted list starts with the first of the entries of greatest key:
    entries before it in [l] have a smaller key, entries after it have no
    greater one. *)
Lemma sort_desc_head x l :
  ∃ pre h post tail,
    x :: l = pre ++ h :: post ∧
    sort_desc (x :: l) = h :: tail ∧
    (∀ z, z ∈ pre → key_lt z h) ∧
    (∀ z, z ∈ post → ¬ key_lt h z).
Proof.
  revert x. induction l as [|y l IH]; intros x.
  { exists [], x, [], []. split_and!; [done | done | |]; by intros z ?%elem_of_nil. }
  destruct (IH y) as (pre & h & post & tail & Hl & Hs & Hpre & Hpost).
  change (sort_desc (x :: y :: l)) with (insert_desc x (sort_desc (y :: l))).
  rewrite Hs, Hl. simpl. destruct (decide (key_lt x h)) as [Hlt|Hnlt].
  - exists (x :: pre), h, post, (insert_desc x tail). split_and!; [done | done | | done].
    intros z [->|Hz]%elem_of_cons; [done | by apply Hpre].
  - exists [], x, (pre ++ h :: post), (h :: tail). split_and!; [done | done | |].
    + by intros z ?%elem_of_nil.
    + intros z [Hz | [->|Hz]%elem_of_cons]%elem_of_app.
      * intros Hxz. apply Hnlt. eapply key_lt_trans; [done | by apply Hpre].
      * done.
      * eapply key_lt_negtrans; [done | by apply Hpost].
Qed.

End SortFacts.

(** *** [auto_select_files] *)

Section AutoSelectFacts.
Import Selection.
Variable getsize : string → option Z.
Variable getmtime : string → option Qc.

Abbreviation info' := (info getsize getmtime).
Abbreviation file_info g := (imap (λ j it, info' j (text1 it)) g).
Abbreviation uncheck := (λ it, FileItem (text1 it) Unchecked).

Lemma info_index j file_path : (info' j file_path).1.1 = j.
Proof. unfold info. by destruct (getsize file_path), (getmtime file_path). Qed.

Lemma file_info_lookup (g : list file_item) j :
  file_info g !! j = (λ it, info' j (text1 it)) <$> g !! j.
Proof. apply list_lookup_imap. Qed.

Lemma file_info_indices (g : list file_item) :
  (file_info g).*1.*1 = seq 0 (length g).
Proof.
  apply list_eq. intros j. rewrite !list_lookup_fmap, file_info_lookup.
  destruct (g !! j) as [it|] eqn:Hit; simpl.
  - rewrite info_index. symmetry. apply lookup_seq. split; [done|].
    by eapply lookup_lt_Some.
  - symmetry. apply lookup_seq_ge. by apply lookup_ge_None.
Qed.

(** What the sort puts first. *)
Lemma best_of_spec (g : list file_item) :
  g ≠ [] →
  ∃ best tail,
    g !! best_of getsize getmtime g = Some best ∧
    sort_desc (file_info g) = info' (best_of getsize getmtime g) (text1 best) :: tail ∧
    (∀ j it, g !! j = Some it →
       ¬ key_lt (info' (best_of getsize getmtime g) (text1 best)) (info' j (text1 it))) ∧
    (∀ j it, g !! j = Some it → j < best_of getsize getmtime g →
       key_lt (info' j (text1 it)) (info' (best_of getsize getmtime g) (text1 best))).
Proof.
  intros Hg. unfold best_of.
  destruct (file_info g) as [|x l] eqn:Hfi.
  { destruct g; [done | discriminate Hfi]. }
  destruct (sort_desc_head x l) as (pre & h & post & tail & Hl & Hs & Hpre & Hpost).
  rewrite Hs. rewrite <- Hfi in Hl.
  assert (file_info g !! length pre = Some h) as Hh.
  { rewrite Hl. by apply list_lookup_middle. }
  rewrite file_info_lookup in Hh.
  destruct (g !! length pre) as [best|] eqn:Hbest; [|done]. injection Hh as <-.
  destruct (info' (length pre) (text1 best)) as [[j0 s0] m0] eqn:Hinfo.
  assert (j0 = length pre) as ->.
  { pose proof (info_index (length pre) (text1 best)) as Hi. by rewrite Hinfo in Hi. }
  exists best, tail. rewrite <- Hinfo in *. split_and!; [done | done | |].
  - intros j it Hit.
    assert (info' j (text1 it) ∈ pre ++ info' (length pre) (text1 best) :: post) as Hin.
    { rewrite <- Hl. eapply list_elem_of_lookup_2. rewrite file_info_lookup, Hit. done. }
    apply elem_of_app in Hin as [Hin | [-> | Hin]%elem_of_cons].
    + by apply key_lt_asym, Hpre.
    + intros H. by apply (key_lt_asym _ _ H).
    + by apply Hpost.
  - intros j it Hit Hj. apply Hpre.
    assert ((pre ++ info' (length pre) (text1 best) :: post) !! j
            = Some (info' j (text1 it))) as Hlk.
    { rewrite <- Hl, file_info_lookup, Hit. done. }
    rewrite lookup_app_l in Hlk by done. by eapply list_elem_of_lookup_2.
Qed.

(** The rest of the [enumerate] loop unchecks its rows one by one; the
    slot never interferes, because the best row is checked already. *)
Lemma choose_rest i j0 it0 (L : list (nat * Z * Qc)) t idx :
  idx ≠ 0 →
  child t i j0 = Some it0 → checkState it0 = Checked →
  (∀ x, x ∈ L → x.1.1 ≠ j0 ∧ x.1.1 < length (children t i)) →
  choose t i idx L
  = Returns (foldl (λ t x, store t i x.1.1 Unchecked) t L, []).
Proof.
  revert t idx. induction L as [|[[j s0] m0] L IH]; intros t idx Hidx Hbest Hc HL;
    [done|].
  destruct (HL (j, s0, m0)) as [Hne Hlt]; [left|]. simpl in Hne, Hlt.
  destruct (lookup_lt_is_Some_2 (children t i) j Hlt) as [it Hit].
  cbn [choose foldl]. rewrite decide_False by done.
  unfold recursion_limit.
  rewrite (setCheckState_kept _ t i j Unchecked it); [|done|].
  2:{ eapply (selected_count_checked _ _ j0); [|done].
      by rewrite child_store_ne. }
  cbn [mbind outcome_bind]. rewrite (IH (store t i j Unchecked) (S idx)); [done | done | | done |].
  - by rewrite child_store_ne.
  - intros x Hx. destruct (HL x) as [? ?]; [by right|]. split; [done|].
    by rewrite children_store_same, length_alter.
Qed.

Lemma fold_store t i (L : list (nat * Z * Qc)) :
  foldl (λ t x, store t i x.1.1 Unchecked) t L
  = alter (λ g, foldl (λ g x, alter uncheck x.1.1 g) g L) i t.
Proof.
  revert t. induction L as [|x L IH]; intros t; simpl.
  - symmetry. by apply list_alter_id.
  - rewrite IH. unfold store. rewrite list_alter_alter_eq. done.
Qed.

Lemma fold_rows (g : list file_item) (L : list (nat * Z * Qc)) j :
  foldl (λ g x, alter uncheck x.1.1 g) g L !! j
  = if decide (j ∈ L.*1.*1) then uncheck <$> g !! j else g !! j.
Proof.
  revert g. induction L as [|x L IH]; intros g.
  - done.
  - cbn [foldl]. rewrite !fmap_cons.
    rewrite IH. destruct (decide (x.1.1 = j)) as [<-|Hne].
    + rewrite list_lookup_alter_eq. rewrite (decide_True (P := x.1.1 ∈ x.1.1 :: _));
        [|left]. case_decide; [|done].
      destruct (g !! x.1.1); done.
    + rewrite list_lookup_alter_ne by done.
      destruct (decide (j ∈ L.*1.*1)) as [Hin|Hout].
      * rewrite decide_True; [done | by right].
      * rewrite decide_False; [done|]. intros [?|?]%elem_of_cons; [congruence | done].
Qed.

(** One group: the best row ends checked, all other rows unchecked, and
    no warning is raised. *)
Lemma auto_select_group_spec t i :
  auto_select_group getsize getmtime t i
  = Returns (alter (λ g, kept_only (best_of getsize getmtime g) g) i t, []).
Proof.
  unfold auto_select_group. destruct (decide (children t i = [])) as [Hnil|Hg].
  { rewrite Hnil. simpl. f_equal. f_equal. symmetry.
    apply list_eq. intros i'. destruct (decide (i = i')) as [<-|Hne].
    - rewrite list_lookup_alter_eq. unfold children in Hnil.
      destruct (t !! i) as [g|]; simpl in *; [by subst g | done].
    - by rewrite list_lookup_alter_ne. }
  destruct (best_of_spec (children t i) Hg) as (best & tail & Hbest & Hs & _).
  set (j0 := best_of getsize getmtime (children t i)) in *.
  rewrite Hs.
  pose proof (sort_desc_Permutation (file_info (children t i))) as Hperm.
  rewrite Hs in Hperm.
  assert (j0 :: tail.*1.*1 ≡ₚ seq 0 (length (children t i))) as Hidx.
  { rewrite <- file_info_indices, <- Hperm. simpl. by rewrite info_index. }
  assert (NoDup (j0 :: tail.*1.*1)) as [Hj0 Hnd]%NoDup_cons.
  { rewrite Hidx. apply NoDup_seq. }
  destruct (info' j0 (text1 best)) as [[j0' s0] m0] eqn:Hinfo.
  assert (j0' = j0) as ->.
  { pose proof (info_index j0 (text1 best)) as Hi. by rewrite Hinfo in Hi. }
  cbn [choose]. rewrite decide_True by done. unfold recursion_limit.
  rewrite (setCheckState_kept _ t i j0 Checked best); [|done|].
  2:{ eapply (selected_count_checked _ _ j0); [by apply child_store_same | done]. }
  cbn [mbind outcome_bind].
  rewrite (choose_rest i j0 (FileItem (text1 best) Checked));
    [| done | by apply child_store_same | done |].
  2:{ intros x Hx. assert (x.1.1 ∈ tail.*1.*1) as Hx'.
      { apply list_elem_of_fmap. exists x.1. split; [done|].
        apply list_elem_of_fmap. by exists x. }
      split; [by intros Heq; rewrite Heq in Hx'|].
      rewrite children_store_same, length_alter.
      assert (x.1.1 ∈ seq 0 (length (children t i))) as Hseq.
      { rewrite <- Hidx. by right. }
      apply elem_of_seq in Hseq. lia. }
  simpl. f_equal. f_equal. rewrite fold_store. unfold store.
  rewrite list_alter_alter_eq. apply list_alter_ext; [|done].
  intros g Hgi. simpl.
  assert (children t i = g) as Hch by (unfold children; by rewrite Hgi).
  replace (best_of getsize getmtime g) with j0 by (subst j0; by rewrite Hch).
  rewrite Hch in *.
  apply list_eq. intros j. rewrite fold_rows. unfold kept_only.
  rewrite list_lookup_imap.
  destruct (decide (j = j0)) as [->|Hne].
  - rewrite decide_False by done. rewrite list_lookup_alter_eq.
    destruct (g !! j0); simpl; [|done]. by rewrite ?decide_True.
  - rewrite list_lookup_alter_ne by done.
    destruct (g !! j) as [it|] eqn:Hit; simpl; [|by case_decide].
    rewrite decide_True; [done|].
    assert (j ∈ j0 :: tail.*1.*1) as [?|?]%elem_of_cons; [|done..].
    rewrite Hidx. apply elem_of_seq. apply lookup_lt_Some in Hit. lia.
Qed.

Lemma auto_select_from_spec t (indices : list nat) :
  auto_select_from getsize getmtime t indices
  = Returns (foldl (λ t i, alter (λ g, kept_only (best_of getsize getmtime g) g) i t)
                   t indices, []).
Proof.
  revert t. induction indices as [|i indices IH]; intros t; [done|].
  cbn [auto_select_from foldl]. rewrite auto_select_group_spec.
  cbn [mbind outcome_bind]. rewrite IH. done.
Qed.

Lemma fold_alter_lookup {A} (f : A → A) (l : list A) (indices : list nat) i :
  NoDup indices →
  foldl (λ l i, alter f i l) l indices !! i
  = if decide (i ∈ indices) then f <$> l !! i else l !! i.
Proof.
  revert l. induction indices as [|i0 indices IH]; intros l Hnd; [done|].
  cbn [foldl].
  - apply NoDup_cons in Hnd as [Hi0 Hnd]. rewrite IH by done.
    destruct (decide (i0 = i)) as [<-|Hne].
    + rewrite decide_False by done. rewrite list_lookup_alter_eq.
      rewrite decide_True; [done | left].
    + rewrite list_lookup_alter_ne by done.
      destruct (decide (i ∈ indices)).
      * rewrite decide_True; [done | by right].
      * rewrite decide_False; [done|]. intros [?|?]%elem_of_cons; [congruence | done].
Qed.

(** The whole command, in closed form. *)
Lemma auto_select_files_spec t :
  auto_select_files getsize getmtime t
  = Returns ((λ g, kept_only (best_of getsize getmtime g) g) <$> t, []).
Proof.
  unfold auto_select_files. rewrite auto_select_from_spec. f_equal. f_equal.
  apply list_eq. intros i. rewrite fold_alter_lookup by apply NoDup_seq.
  rewrite list_lookup_fmap. case_decide as Hi; [done|].
  rewrite lookup_ge_None_2; [done|].
  destruct (decide (i < length t)); [|lia]. exfalso. apply Hi.
  apply elem_of_seq. lia.
Qed.

End AutoSelectFacts.

Section KeptOnly.
Import Selection.


End KeptOnly.



(** ** The deletion loop and the audit file *)

Section ExportFacts.
Import Exporter.
Context {world : Type}.
Variable path_exists : world → string → bool.
Variable os_remove : world → string → world * bool.

Lemma count_outcome_cons o (x : string * entry_outcome) r :
  count_outcome o (x :: r)
  = (if decide (x.2 = o) then 1 else 0) + count_outcome o r.
Proof. unfold count_outcome. rewrite filter_cons. by case_decide. Qed.

(** What one entry adds to the report and to the list of removals. *)
Lemma report_removed p entry trace o :
  classify (Log entry) = Some (p, o) →
  report (Remove p :: Log entry :: trace) = (p, o) :: report trace ∧
  removals (Remove p :: Log entry :: trace) = p :: removals trace.
Proof.
  intros Hc. unfold report, removals. cbn [omap list_omap classify].
  change (classify (Log entry)) with
    (match entry with
     | Deleted q => Some (q, OutcomeDeleted)
     | NotFound q => Some (q, OutcomeNotFound)
     | DeleteFailed q | DeleteError q => Some (q, OutcomeFailed)
     | _ => None
     end) in Hc.
  destruct entry; simplify_eq; done.
Qed.

(** The loop gives every entry one outcome, in the order of the plan,
    counts the deleted and the failed entries, and calls [os.remove] for
    exactly the entries it does not report as absent. *)
Lemma delete_files_spec files w deleted_count error_count :
  ∃ w' trace,
    delete_files path_exists os_remove w files deleted_count error_count
    = (w', deleted_count + count_outcome OutcomeDeleted (report trace),
       error_count + count_outcome OutcomeFailed (report trace), trace) ∧
    (report trace).*1 = files ∧
    removals trace = (filter (λ x, x.2 ≠ OutcomeNotFound) (report trace)).*1.
Proof.
  revert w deleted_count error_count.
  induction files as [|p files IH]; intros w d e.
  { exists w, []. split_and!; [|done..]. cbn [delete_files].
    change (report []) with (@nil (string * entry_outcome)).
    unfold count_outcome. rewrite filter_nil. simpl. by rewrite !Nat.add_0_r. }
  cbn [delete_files]. destruct (path_exists w p).
  - destruct (os_remove w p) as [w1 returned]. destruct returned.
    + destruct (path_exists w1 p); cbn [negb].
      * destruct (IH w1 d (S e)) as (w' & tr & -> & Hrep & Hrem).
        exists w', (Remove p :: Log (DeleteFailed p) :: tr).
        destruct (report_removed p (DeleteFailed p) tr OutcomeFailed eq_refl)
          as [-> ->].
        rewrite !count_outcome_cons, filter_cons. cbn [snd].
        rewrite decide_False, !decide_True by done. rewrite !fmap_cons, Hrep, Hrem.
        split_and!; [|done..]. cbn [Nat.add]. by rewrite ?Nat.add_succ_r.
      * destruct (IH w1 (S d) e) as (w' & tr & -> & Hrep & Hrem).
        exists w', (Remove p :: Log (Deleted p) :: tr).
        destruct (report_removed p (Deleted p) tr OutcomeDeleted eq_refl)
          as [-> ->].
        rewrite !count_outcome_cons, filter_cons. cbn [snd].
        rewrite decide_True, decide_False, decide_True by done.
        rewrite !fmap_cons, Hrep, Hrem.
        split_and!; [|done..]. cbn [Nat.add]. by rewrite ?Nat.add_succ_r.
    + destruct (IH w1 d (S e)) as (w' & tr & -> & Hrep & Hrem).
      exists w', (Remove p :: Log (DeleteError p) :: tr).
      destruct (report_removed p (DeleteError p) tr OutcomeFailed eq_refl)
        as [-> ->].
      rewrite !count_outcome_cons, filter_cons. cbn [snd].
      rewrite decide_False, !decide_True by done. rewrite !fmap_cons, Hrep, Hrem.
      split_and!; [|done..]. cbn [Nat.add]. by rewrite ?Nat.add_succ_r.
  - destruct (IH w d e) as (w' & tr & -> & Hrep & Hrem).
    exists w', (Log (NotFound p) :: tr).
    change (report (Log (NotFound p) :: tr)) with ((p, OutcomeNotFound) :: report tr).
    change (removals (Log (NotFound p) :: tr)) with (removals tr).
    rewrite !count_outcome_cons, filter_cons. cbn [snd].
    rewrite !decide_False by (try done; intros H; by apply H).
    rewrite !fmap_cons, Hrep, Hrem. cbn [Nat.add]. done.
Qed.

(** The loop only calls [os.remove] and writes log lines. *)
Lemma delete_files_events files w deleted_count error_count e :
  e ∈ (delete_files path_exists os_remove w files deleted_count error_count).2 →
  (∃ p, e = Remove p) ∨ (∃ entry, e = Log entry).
Proof.
  revert w deleted_count error_count.
  induction files as [|p files IH]; intros w d0 e0; cbn [delete_files].
  { by intros ?%elem_of_nil. }
  destruct (path_exists w p).
  - destruct (os_remove w p) as [w1 returned]. destruct returned.
    + destruct (path_exists w1 p); cbn [negb].
      * specialize (IH w1 d0 (S e0)).
        destruct (delete_files path_exists os_remove w1 files d0 (S e0)) as [[[??]?]?].
        simpl in *. intros [->|[->|?]%elem_of_cons]%elem_of_cons; eauto.
      * specialize (IH w1 (S d0) e0).
        destruct (delete_files path_exists os_remove w1 files (S d0) e0) as [[[??]?]?].
        simpl in *. intros [->|[->|?]%elem_of_cons]%elem_of_cons; eauto.
    + specialize (IH w1 d0 (S e0)).
      destruct (delete_files path_exists os_remove w1 files d0 (S e0)) as [[[??]?]?].
      simpl in *. intros [->|[->|?]%elem_of_cons]%elem_of_cons; eauto.
  - specialize (IH w d0 e0).
    destruct (delete_files path_exists os_remove w files d0 e0) as [[[??]?]?].
    simpl in *. intros [->|?]%elem_of_cons; eauto.
Qed.


End ExportFacts.


(** *** The audit file comes first *)

Section AuditFacts.
Import Exporter.



End AuditFacts.


(** An event is not in an explicit list of other events. *)
Ltac not_in_record H :=
  repeat (apply elem_of_cons in H as [?|H]; [done|]); by apply elem_of_nil in H.



(** * Further properties *)

(** ** The distance *)

(** X1: On fingerprints that are non-empty strings of hexadecimal digits,
    which is what [str] of an [imagehash] value is, the distance of
    [find_duplicate_groups] is a metric on the numbers read: it is 0 from a
    fingerprint to itself and only between fingerprints that read as the
    same number, it is symmetric, and it satisfies the triangle
    inequality.  (Signed strings, which [int(·, 16)] reads too, are
    outside: no printed hash has a sign.) *)
Theorem hamming_distance_metric (a b c : string) :
  Hex.is_hex a = true → Hex.is_hex b = true → Hex.is_hex c = true →
  ∃ dab dbc dac,
    Hex.hamming_distance a b = Returns dab ∧
    Hex.hamming_distance b c = Returns dbc ∧
    Hex.hamming_distance a c = Returns dac ∧
    Hex.hamming_distance a a = Returns 0 ∧
    Hex.hamming_distance b a = Returns dab ∧
    (dab = 0 ↔ Hex.int16 a = Hex.int16 b) ∧
    dac ≤ dab + dbc.
Proof.
  intros [x Hx]%is_hex_int16 [y Hy]%is_hex_int16 [z Hz]%is_hex_int16.
  exists (Hex.bit_count (N.lxor x y)), (Hex.bit_count (N.lxor y z)),
    (Hex.bit_count (N.lxor x z)).
  split_and!.
  - apply hamming_inv. by exists x, y.
  - apply hamming_inv. by exists y, z.
  - apply hamming_inv. by exists x, z.
  - apply hamming_self, is_hex_int16. by exists x.
  - apply hamming_inv. exists y, x. by rewrite N.lxor_comm.
  - rewrite Hx, Hy, bit_count_zero, N.lxor_eq_0_iff. split; [by intros -> | by intros [= ->]].
  - apply bit_count_triangle.
Qed.

Lemma hamming_distance_metric_witness :
  ∃ dab dbc dac,
    Hex.hamming_distance "0000000000000000" "0000000000000007" = Returns dab ∧
    Hex.hamming_distance "0000000000000007" "0000000000000003" = Returns dbc ∧
    Hex.hamming_distance "0000000000000000" "0000000000000003" = Returns dac ∧
    dac ≤ dab + dbc.
Proof.
  destruct (hamming_distance_metric "0000000000000000" "0000000000000007"
              "0000000000000003" eq_refl eq_refl eq_refl)
    as (dab & dbc & dac & Hab & Hbc & Hac & _ & _ & _ & Htri).
  by exists dab, dbc, dac.
Defined.

(** ** More on [find_duplicate_groups] *)

Section HashMore.
Import HashClusterer.
Variable image_hash : string → string → option string.
Variables (m : string) (t : Z).

Abbreviation hashed p := (is_Some (compute_hash image_hash p m)).

(** A hash method the program does not know gives no fingerprint. *)
Lemma compute_hash_unsupported p :
  m ∉ ["ahash"; "phash"; "dhash"; "whash"] → compute_hash image_hash p m = None.
Proof. intros Hm. unfold compute_hash. by rewrite decide_False. Qed.

Lemma loop_unhashed d image_paths :
  (∀ p, p ∈ image_paths → compute_hash image_hash p m = None) →
  loop image_hash m t d image_paths = Returns d.
Proof.
  induction image_paths as [|p ps IH]; intros Hnone; [done|].
  simpl. unfold step. rewrite Hnone by left. simpl. apply IH.
  intros q Hq. apply Hnone. by right.
Qed.

(** What one iteration does to the groups, whatever the fingerprints: the
    path goes to the end of one group or of none, and every member has a
    fingerprint. *)
Lemma step_conserves d d' path pre :
  step image_hash m t d path = Returns d' →
  Forall (λ e, e.2 `sublist_of` pre ∧ Forall (λ p, hashed p) e.2) d →
  Forall (λ e, e.2 `sublist_of` pre ++ [path] ∧ Forall (λ p, hashed p) e.2) d' ∧
  concat (Dict.values d') ≡ₚ
  concat (Dict.values d) ++ (if compute_hash image_hash path m is Some _ then [path] else []).
Proof.
  intros Hstep Hd. unfold step in Hstep.
  assert (Hweak : Forall (λ e : string * list string,
                            e.2 `sublist_of` pre ++ [path] ∧ Forall (λ p, hashed p) e.2) d).
  { eapply Forall_impl; [done|]. intros e [Hsub Hh]. split; [|done].
    by apply sublist_inserts_r. }
  destruct (compute_hash image_hash path m) as [h|] eqn:Hh.
  - apply outcome_bind_returns in Hstep as (r & _ & Hr).
    assert (∀ k, Returns (Dict.append k path d) = Returns d' →
              Forall (λ e : string * list string,
                        e.2 `sublist_of` pre ++ [path] ∧ Forall (λ p, hashed p) e.2) d'
              ∧ concat (Dict.values d') ≡ₚ concat (Dict.values d) ++ [path]) as Hk.
    { intros k [= <-]. split; [|apply append_values].
      apply append_Forall; [done | |].
      - intros g Hg. eapply Forall_forall in Hd as [Hsub Hhs]; [|done]. simpl in *.
        split; [by apply sublist_app|].
        apply Forall_app. split; [done|]. constructor; [by eexists | constructor].
      - intros _. simpl. split; [by apply sublist_inserts_l|].
        constructor; [by eexists | constructor]. }
    destruct r; by eapply Hk.
  - injection Hstep as <-. split; [done|]. by rewrite (right_id_L [] (++)).
Qed.

Lemma loop_conserves image_paths d d' pre :
  loop image_hash m t d image_paths = Returns d' →
  Forall (λ e, e.2 `sublist_of` pre ∧ Forall (λ p, hashed p) e.2) d →
  Forall (λ e, e.2 `sublist_of` pre ++ image_paths ∧ Forall (λ p, hashed p) e.2) d' ∧
  concat (Dict.values d') ≡ₚ
  concat (Dict.values d) ++ filter (λ p, hashed p) image_paths.
Proof.
  revert d pre. induction image_paths as [|p ps IH]; intros d pre Hloop Hd.
  - injection Hloop as <-. rewrite (right_id_L [] (++)), filter_nil.
    by rewrite (right_id_L [] (++)).
  - simpl in Hloop. apply outcome_bind_returns in Hloop as (d1 & Hstep & Hloop).
    destruct (step_conserves _ _ _ pre Hstep Hd) as [Hd1 Hperm1].
    destruct (IH d1 (pre ++ [p]) Hloop Hd1) as [Hd' Hperm'].
    rewrite <- (assoc_L (++)) in Hd'. split; [done|].
    rewrite Hperm', Hperm1, <- (assoc_L (++)). f_equiv. rewrite filter_cons.
    destruct (compute_hash image_hash p m) eqn:Hp; case_decide as Hsome; try done.
    all: try (exfalso; apply Hsome; by eexists).
    all: try by destruct Hsome as [? [=]].
Qed.

(** Dropping lists from a list of lists drops elements. *)
Lemma concat_filter_submseteq {A} (P : list A → Prop) `{!∀ l, Decision (P l)}
    (ls : list (list A)) :
  concat (filter P ls) ⊆+ concat ls.
Proof.
  induction ls as [|l ls IH]; [done|]. rewrite filter_cons. simpl.
  case_decide; simpl.
  - by apply submseteq_app.
  - by apply submseteq_inserts_l.
Qed.

End HashMore.

(** X2: With a hash method other than the four the program knows,
    [compute_hash] raises inside its own [try] and reports no fingerprint
    for any image: [find_duplicate_groups] returns no group, and no error,
    whatever the images and the threshold. *)
Theorem hash_unsupported_method_finds_nothing
    (image_hash : string → string → option string)
    (image_paths : list string) (hash_method : string) (threshold : Z) :
  hash_method ∉ ["ahash"; "phash"; "dhash"; "whash"] →
  HashClusterer.find_duplicate_groups image_hash image_paths hash_method threshold
  = Returns [].
Proof.
  intros Hm. unfold HashClusterer.find_duplicate_groups.
  rewrite loop_unhashed; [done|]. intros p _. by apply compute_hash_unsupported.
Qed.

Lemma hash_unsupported_method_finds_nothing_witness :
  HashClusterer.find_duplicate_groups Sample.exact ["a.png"; "b.png"; "c.png"] "md5" 0
  = Returns [].
Proof.
  apply hash_unsupported_method_finds_nothing.
  intros Hin. repeat (apply elem_of_cons in Hin as [Hin|Hin]; [discriminate Hin|]).
  by apply elem_of_nil in Hin.
Defined.

(** X3: Whenever [find_duplicate_groups] returns, every group lists some of the
    input paths in input order, all of them images with a fingerprint; and
    the groups together hold each input path at most as often as the input
    lists it.  An image whose fingerprint cannot be computed is in no
    group. *)
Theorem hash_groups_from_input
    (image_hash : string → string → option string)
    (image_paths : list string) (hash_method : string) (threshold : Z)
    (groups : list (list string)) :
  HashClusterer.find_duplicate_groups image_hash image_paths hash_method threshold
  = Returns groups →
  (∀ g, g ∈ groups →
     g `sublist_of` image_paths ∧
     ∀ p, p ∈ g → is_Some (HashClusterer.compute_hash image_hash p hash_method)) ∧
  concat groups
  ⊆+ filter (λ p, is_Some (HashClusterer.compute_hash image_hash p hash_method)) image_paths.
Proof.
  unfold HashClusterer.find_duplicate_groups.
  intros (d & Hloop & [= <-])%outcome_bind_returns.
  destruct (loop_conserves image_hash hash_method threshold image_paths [] d [] Hloop)
    as [Hd Hperm]; [constructor|].
  split.
  - intros g [_ Hg]%list_elem_of_filter.
    apply list_elem_of_fmap in Hg as ([k g'] & -> & Hin).
    eapply Forall_forall in Hd as [Hsub Hh]; [|done]. simpl in *.
    split; [done|]. intros p Hp. by eapply Forall_forall in Hh.
  - simpl in Hperm. rewrite <- Hperm. apply concat_filter_submseteq.
Qed.

Lemma hash_groups_from_input_witness :
  ["a.png"; "b.png"] `sublist_of` ["a.png"; "b.png"; "c.png"].
Proof.
  apply (proj1 (hash_groups_from_input Sample.exact ["a.png"; "b.png"; "c.png"]
                  "phash" 0 [["a.png"; "b.png"]] eq_refl)).
  left.
Defined.

(** *** Images with the same fingerprint *)

Section HashHome.
Import HashClusterer.
Variable image_hash : string → string → option string.
Variables (m : string) (t : Z).

Lemma first_match_app_some h reps more k :
  first_match h t reps = Returns (Some k) →
  first_match h t (reps ++ more) = Returns (Some k).
Proof.
  induction reps as [|k0 reps IH]; [done|]. simpl.
  intros (d & -> & H)%outcome_bind_returns. simpl.
  case_decide; [done | by apply IH].
Qed.

Lemma first_match_app_none h reps more :
  first_match h t reps = Returns None →
  first_match h t (reps ++ more) = first_match h t more.
Proof.
  induction reps as [|k0 reps IH]; [done|]. simpl.
  intros (d & -> & H)%outcome_bind_returns. simpl.
  case_decide; [done | by apply IH].
Qed.

Lemma append_member {V} k (x : V) d :
  ∃ g, (k, g) ∈ Dict.append k x d ∧ x ∈ g.
Proof.
  induction d as [|[k' g] d IH]; simpl.
  - exists [x]. split; left.
  - destruct (decide (k' = k)) as [->|Hne].
    + exists (g ++ [x]). split; [left|]. apply elem_of_app. right. left.
    + destruct IH as (g' & Hin & Hx). exists g'. split; [by right | done].
Qed.

Lemma append_keeps {V} k (x : V) d k0 g :
  (k0, g) ∈ d → ∃ g', (k0, g') ∈ Dict.append k x d ∧ ∀ y, y ∈ g → y ∈ g'.
Proof.
  induction d as [|[k' g0] d IH]; [by intros ?%elem_of_nil|]. simpl.
  intros [[= -> ->]|Hin]%elem_of_cons.
  - destruct (decide (k' = k)) as [->|Hne].
    + exists (g0 ++ [x]). split; [left|]. intros y Hy. apply elem_of_app. by left.
    + exists g0. split; [left | done].
  - destruct (decide (k' = k)) as [->|Hne].
    + exists g. split; [by right | done].
    + destruct (IH Hin) as (g' & Hin' & Hsub). exists g'. split; [by right | done].
Qed.

Lemma keys_functional {V} (d : list (string * V)) k v1 v2 :
  NoDup (Dict.keys d) → (k, v1) ∈ d → (k, v2) ∈ d → v1 = v2.
Proof.
  induction d as [|[k' v] d IH]; [by intros _ ?%elem_of_nil|]. simpl.
  intros [Hk Hnd]%NoDup_cons H1 H2.
  apply elem_of_cons in H1 as [H1|H1]; apply elem_of_cons in H2 as [H2|H2].
  - by simplify_eq.
  - simplify_eq. exfalso. apply Hk. apply list_elem_of_fmap. by exists (k', v2).
  - simplify_eq. exfalso. apply Hk. apply list_elem_of_fmap. by exists (k', v1).
  - by apply IH.
Qed.

Abbreviation housed' := (housed image_hash m t).

Lemma step_houses d d' path pre :
  (0 ≤ t)%Z → state_ok image_hash m t d →
  (∀ h, compute_hash image_hash path m = Some h → Hex.is_hex h = true) →
  step image_hash m t d path = Returns d' →
  housed' d pre → housed' d' (pre ++ [path]).
Proof.
  intros Ht Hok Hhex Hstep Hhoused p h Hp Hh. unfold step in Hstep.
  destruct (compute_hash image_hash path m) as [h'|] eqn:Hpath.
  - apply outcome_bind_returns in Hstep as (r & Hr & Hd').
    pose proof (first_match_inv _ _ _ _ Hr) as Hinv.
    assert (∃ k0, d' = Dict.append k0 path d ∧
                  first_match h' t (Dict.keys d') = Returns (Some k0)) as (k0 & -> & Hfm).
    { destruct r as [k|]; injection Hd' as <-; eexists; (split; [done|]);
        rewrite append_keys.
      - destruct Hinv as [Hk _]. by rewrite decide_True.
      - rewrite decide_False.
        + rewrite first_match_app_none by done. simpl.
          rewrite hamming_self by (by apply Hhex). simpl. by rewrite decide_True.
        + intros Hin. eapply within_not_beyond; [|by apply Hinv].
          exists 0. split; [apply hamming_self; by apply Hhex | done]. }
    apply elem_of_app in Hp as [Hp | ->%list_elem_of_singleton].
    + destruct (Hhoused p h Hp Hh) as (k & g & Hk & Hin & Hpg).
      destruct (append_keeps k0 path d k g Hin) as (g' & Hin' & Hsub).
      exists k, g'. split_and!; [|done | by apply Hsub].
      rewrite append_keys. case_decide; [done | by apply first_match_app_some].
    + rewrite Hpath in Hh. injection Hh as ->.
      destruct (append_member k0 path d) as (g & Hin & Hpg). by exists k0, g.
  - injection Hstep as <-. apply elem_of_app in Hp as [Hp | ->%list_elem_of_singleton].
    + by apply Hhoused.
    + by rewrite Hpath in Hh.
Qed.

Lemma loop_houses image_paths d pre :
  (0 ≤ t)%Z → state_ok image_hash m t d →
  hashes_ok image_hash image_paths m = true →
  housed' d pre →
  ∃ d', loop image_hash m t d image_paths = Returns d' ∧
        state_ok image_hash m t d' ∧ housed' d' (pre ++ image_paths).
Proof.
  intros Ht. rewrite hashes_ok_spec. revert d pre.
  induction image_paths as [|p ps IH]; intros d pre Hok Hhex Hhoused.
  - exists d. rewrite (right_id_L [] (++)). done.
  - simpl. destruct (step_ok image_hash m t d p Hok) as (d1 & Hstep & Hok1 & _).
    { intros h. apply Hhex. left. }
    rewrite Hstep. simpl.
    destruct (IH d1 (pre ++ [p]) Hok1) as (d' & -> & Hok' & Hhoused').
    { intros q h Hq. apply Hhex. by right. }
    { apply (step_houses d d1 p pre Ht Hok); [|done..]. intros h. apply Hhex. left. }
    exists d'. split_and!; [done..|]. by rewrite <- (assoc_L (++)) in Hhoused'.
Qed.

End HashHome.

(** X4: With a threshold that is not negative, two different images whose
    fingerprints are the same string always end up in one returned group,
    wherever they stand in the input: exact duplicates are never missed. *)
Theorem hash_equal_fingerprints_grouped
    (image_hash : string → string → option string)
    (image_paths : list string) (hash_method : string) (threshold : Z)
    (p q h : string) :
  (0 ≤ threshold)%Z →
  HashClusterer.hashes_ok image_hash image_paths hash_method = true →
  p ∈ image_paths → q ∈ image_paths → p ≠ q →
  HashClusterer.compute_hash image_hash p hash_method = Some h →
  HashClusterer.compute_hash image_hash q hash_method = Some h →
  ∃ groups g,
    HashClusterer.find_duplicate_groups image_hash image_paths hash_method threshold
    = Returns groups ∧
    g ∈ groups ∧ p ∈ g ∧ q ∈ g.
Proof.
  intros Ht Hhex Hp Hq Hne Hhp Hhq.
  destruct (loop_houses image_hash hash_method threshold image_paths [] [] Ht)
    as (d & Hloop & Hok & Hhoused); [apply state_ok_nil | done | |].
  { by intros ? ? ?%elem_of_nil. }
  simpl in Hhoused.
  destruct (Hhoused p h Hp Hhp) as (k & g & Hk & Hin & Hpg).
  destruct (Hhoused q h Hq Hhq) as (k' & g' & Hk' & Hin' & Hqg).
  rewrite Hk in Hk'. injection Hk' as <-.
  assert (g' = g) as -> by (eapply keys_functional; [apply Hok | done..]).
  unfold HashClusterer.find_duplicate_groups. rewrite Hloop. simpl.
  eexists _, g. split_and!; [done | | done..].
  apply list_elem_of_filter. split.
  - destruct g as [|x [|y g]]; simpl; [by apply elem_of_nil in Hpg | | lia].
    apply list_elem_of_singleton in Hpg, Hqg. congruence.
  - apply list_elem_of_fmap. by exists (k, g).
Qed.

Lemma hash_equal_fingerprints_grouped_witness :
  ∃ groups g,
    HashClusterer.find_duplicate_groups Sample.exact ["c.png"; "a.png"; "b.png"] "phash" 5
    = Returns groups ∧
    g ∈ groups ∧ "a.png" ∈ g ∧ "b.png" ∈ g.
Proof.
  apply (hash_equal_fingerprints_grouped Sample.exact ["c.png"; "a.png"; "b.png"]
           "phash" 5 "a.png" "b.png" "a"); [lia | reflexivity | | | | |].
  - right. left.
  - do 2 right. left.
  - discriminate.
  - reflexivity.
  - reflexivity.
Defined.

(** *** No path in two groups *)

Section HashDisjoint.
Import HashClusterer.
Variable image_hash : string → string → option string.
Variables (m : string) (t : Z).

Abbreviation homed' := (homed image_hash m t).

Lemma append_entries {V} k (x : V) d k0 g' :
  (k0, g') ∈ Dict.append k x d →
  (∃ g, (k0, g) ∈ d ∧ (g' = g ∨ (k0 = k ∧ g' = g ++ [x]))) ∨ (k0 = k ∧ g' = [x]).
Proof.
  induction d as [|[k' g] d IH]; simpl.
  - intros [= -> ->]%list_elem_of_singleton. by right.
  - destruct (decide (k' = k)) as [->|Hne].
    + intros [[= -> ->]|Hin]%elem_of_cons.
      * left. exists g. split; [left | by right].
      * left. exists g'. split; [by right | by left].
    + intros [[= -> ->]|Hin]%elem_of_cons.
      * left. exists g. split; [left | by left].
      * destruct (IH Hin) as [(g0 & Hg0 & Hcase)|Hnew]; [|by right].
        left. exists g0. split; [by right | done].
Qed.

Lemma entry_key {V} (d : list (string * V)) k g : (k, g) ∈ d → k ∈ Dict.keys d.
Proof. intros Hin. apply list_elem_of_fmap. by exists (k, g). Qed.

(** When a fingerprint is beyond the threshold of itself, the threshold is
    negative, and no fingerprint is within it of any other. *)
Lemma beyond_self_none h k :
  Hex.is_hex h = true → Hex.is_hex k = true → beyond t h h →
  first_match h t [k] = Returns None.
Proof.
  intros Hh Hk (d0 & Hd0 & Hlt). rewrite (hamming_self h Hh) in Hd0.
  injection Hd0 as <-. destruct (hamming_returns h k Hh Hk) as [d Hd].
  cbn [first_match]. rewrite Hd. cbn [mbind outcome_bind].
  rewrite decide_False by lia. done.
Qed.

Lemma step_homes d d' path :
  state_ok image_hash m t d →
  (∀ h, compute_hash image_hash path m = Some h → Hex.is_hex h = true) →
  step image_hash m t d path = Returns d' →
  homed' d → homed' d'.
Proof.
  intros Hok Hhex Hstep Hhomed. unfold step in Hstep.
  destruct (compute_hash image_hash path m) as [hq|] eqn:Hpath; [|by injection Hstep as <-].
  specialize (Hhex hq eq_refl).
  apply outcome_bind_returns in Hstep as (r & Hr & Hd').
  pose proof (first_match_inv _ _ _ _ Hr) as Hinv.
  pose proof (state_ok_keys_hex image_hash m t d Hok) as Hkeys.
  destruct r as [kq|]; injection Hd' as <-.
  - (* filed under an existing representative *)
    destruct Hinv as [Hkq _].
    assert (Hsame : Dict.keys (Dict.append kq path d) = Dict.keys d).
    { rewrite append_keys. by rewrite decide_True. }
    intros k g' p Hin Hp. rewrite Hsame.
    apply append_entries in Hin as [(g & Hg & [->|[-> ->]])|[-> ->]].
    + by eapply Hhomed.
    + apply elem_of_app in Hp as [Hp|Hp%list_elem_of_singleton].
      * by eapply Hhomed.
      * subst p. exists hq. split; [done | by left].
    + apply list_elem_of_singleton in Hp. subst p. exists hq. split; [done | by left].
  - destruct (decide (hq ∈ Dict.keys d)) as [Hold|Hnew].
    + (* no representative is near, and the fingerprint is a key already *)
      assert (Hsame : Dict.keys (Dict.append hq path d) = Dict.keys d).
      { rewrite append_keys. by rewrite decide_True. }
      intros k g' p Hin Hp. rewrite Hsame.
      apply append_entries in Hin as [(g & Hg & [->|[-> ->]])|[-> ->]].
      * by eapply Hhomed.
      * apply elem_of_app in Hp as [Hp|Hp%list_elem_of_singleton].
        -- by eapply Hhomed.
        -- subst p. exists hq. split; [done | by right].
      * apply list_elem_of_singleton in Hp. subst p. exists hq. split; [done | by right].
    + (* a new representative *)
      assert (Hmore : Dict.keys (Dict.append hq path d) = Dict.keys d ++ [hq]).
      { rewrite append_keys. by rewrite decide_False. }
      assert (Hfresh : ∃ r, first_match hq t (Dict.keys d ++ [hq]) = Returns r ∧
                            (r = Some hq ∨ r = None)).
      { rewrite (first_match_app_none t hq (Dict.keys d) [hq] Hr).
        cbn [first_match]. rewrite (hamming_self hq Hhex). cbn [mbind outcome_bind].
        case_decide; eexists; (split; [done|]); [by left | by right]. }
      assert (Hmoved : ∀ k g p, (k, g) ∈ d → p ∈ g →
                ∃ h, compute_hash image_hash p m = Some h ∧
                     (first_match h t (Dict.keys d ++ [hq]) = Returns (Some k) ∨
                      (first_match h t (Dict.keys d ++ [hq]) = Returns None ∧ h = k))).
      { intros k g p Hg Hp. destruct (Hhomed k g p Hg Hp) as (h & Hh & [Hfm|[Hfm ->]]).
        - exists h. split; [done|]. left. by apply first_match_app_some.
        - exists k. split; [done|]. right. split; [|done].
          rewrite (first_match_app_none t k (Dict.keys d) [hq] Hfm).
          assert (Hk : Hex.is_hex k = true).
          { eapply Forall_forall in Hkeys; [done|]. by eapply entry_key. }
          apply beyond_self_none; [done..|].
          apply (first_match_inv t k (Dict.keys d) None Hfm). by eapply entry_key. }
      intros k g' p Hin Hp. rewrite Hmore.
      apply append_entries in Hin as [(g & Hg & [->|[-> ->]])|[-> ->]].
      * by eapply Hmoved.
      * exfalso. apply Hnew. by eapply entry_key.
      * apply list_elem_of_singleton in Hp. subst p. exists hq. split; [done|].
        destruct Hfresh as (r & -> & [->| ->]); [by left | by right].
Qed.

Lemma loop_homes image_paths d :
  state_ok image_hash m t d → hashes_ok image_hash image_paths m = true →
  homed' d →
  ∃ d', loop image_hash m t d image_paths = Returns d' ∧
        state_ok image_hash m t d' ∧ homed' d'.
Proof.
  rewrite hashes_ok_spec. revert d.
  induction image_paths as [|p ps IH]; intros d Hok Hhex Hhomed.
  - by exists d.
  - cbn [loop].
    destruct (step_ok image_hash m t d p Hok) as (d1 & Hstep & Hok1 & _).
    { intros h. apply Hhex. left. }
    rewrite Hstep. cbn [mbind outcome_bind].
    apply IH; [done | |].
    + intros q h Hq. apply Hhex. by right.
    + eapply step_homes; [exact Hok | | exact Hstep | exact Hhomed].
      intros h. apply Hhex. left.
Qed.

(** Two entries that share a member are one entry. *)
Lemma homed_one_key d k1 g1 k2 g2 p :
  homed' d → (k1, g1) ∈ d → (k2, g2) ∈ d → p ∈ g1 → p ∈ g2 → k1 = k2.
Proof.
  intros Hhomed H1 H2 Hp1 Hp2.
  destruct (Hhomed k1 g1 p H1 Hp1) as (h1 & Hh1 & Hcase1).
  destruct (Hhomed k2 g2 p H2 Hp2) as (h2 & Hh2 & Hcase2).
  rewrite Hh1 in Hh2. injection Hh2 as <-.
  destruct Hcase1 as [Hf1|[Hf1 <-]], Hcase2 as [Hf2|[Hf2 <-]];
    rewrite Hf1 in Hf2; by simplify_eq.
Qed.

Lemma groups_apart (d : list (string * list string)) :
  NoDup (Dict.keys d) →
  (∀ k1 g1 k2 g2 p, (k1, g1) ∈ d → (k2, g2) ∈ d → p ∈ g1 → p ∈ g2 → k1 = k2) →
  ∀ i j gi gj p,
    filter (λ group, 1 < length group) (Dict.values d) !! i = Some gi →
    filter (λ group, 1 < length group) (Dict.values d) !! j = Some gj →
    p ∈ gi → p ∈ gj → i = j.
Proof.
  induction d as [|[k g] d IH]; intros Hnd Hkey i j gi gj p Hi Hj Hpi Hpj.
  { change (Dict.values (@nil (string * list string))) with (@nil (list string)) in Hi.
    by rewrite filter_nil, lookup_nil in Hi. }
  simpl in Hnd. apply NoDup_cons in Hnd as [Hk Hnd].
  assert (Hrest : ∀ i' g', filter (λ group, 1 < length group) (Dict.values d) !! i'
                           = Some g' → ∃ k', (k', g') ∈ d).
  { intros i' g' Hg'. apply list_elem_of_lookup_2 in Hg'.
    apply list_elem_of_filter in Hg' as [_ Hg'].
    apply list_elem_of_fmap in Hg' as ([k' g0] & -> & Hin). by exists k'. }
  assert (Hother : ∀ i' g', filter (λ group, 1 < length group) (Dict.values d) !! i'
                            = Some g' → p ∈ g → p ∈ g' → False).
  { intros i' g' Hg' Hpg Hpg'. destruct (Hrest i' g' Hg') as [k' Hin].
    assert (k = k') as <-.
    { eapply (Hkey k g k' g' p); [left | by right | done..]. }
    apply Hk. by eapply entry_key. }
  assert (IH' := IH Hnd). clear IH.
  assert (Htail : ∀ i' j', filter (λ group, 1 < length group) (Dict.values d) !! i'
                           = Some gi →
                           filter (λ group, 1 < length group) (Dict.values d) !! j'
                           = Some gj → i' = j').
  { intros i' j' Hi' Hj'. eapply IH'; [|done..].
    intros k1 g1 k2 g2 q H1 H2. eapply Hkey; by right. }
  change (Dict.values ((k, g) :: d)) with (g :: Dict.values d) in Hi, Hj.
  rewrite filter_cons in Hi, Hj. destruct (decide (1 < length g)); [|by eapply Htail].
  destruct i as [|i], j as [|j]; simpl in Hi, Hj.
  - done.
  - injection Hi as <-. exfalso. by eapply Hother.
  - injection Hj as <-. exfalso. by eapply Hother.
  - f_equal. by eapply Htail.
Qed.

End HashDisjoint.

(** X21: both clustering methods return only groups of two or more images.
    The groups of the feature method are pairwise disjoint and free of
    repetitions for every input.  Under the hash method no path is in two
    groups, for every input whose fingerprints are hexadecimal, also one
    that lists a path twice; and when the input lists no path twice, no
    group holds a path twice.  ([NoDup] of the concatenation says both: no
    path in two groups, none twice in one.) *)
Theorem groups_disjoint_and_large :
  (∀ (image_hash : string → string → option string) (image_paths : list string)
     (hash_method : string) (threshold : Z),
     HashClusterer.hashes_ok image_hash image_paths hash_method = true →
     ∃ groups,
       HashClusterer.find_duplicate_groups image_hash image_paths hash_method threshold
       = Returns groups ∧
       Forall (λ g, 2 ≤ length g) groups ∧
       (∀ i j gi gj p,
          groups !! i = Some gi → groups !! j = Some gj → p ∈ gi → p ∈ gj → i = j) ∧
       (NoDup image_paths → NoDup (concat groups)))
  ∧
  (∀ (descriptors : Type) (detect : string → option descriptors)
     (good_matches : descriptors → descriptors → option nat)
     (image_paths : list string) (min_matches : Z),
     ∃ groups,
       FeatureClusterer.find_duplicate_groups_by_sift detect good_matches
         image_paths min_matches = Returns groups ∧
       Forall (λ g, 2 ≤ length g) groups ∧
       NoDup (concat groups)).
Proof.
  split.
  - intros image_hash image_paths hash_method threshold Hhex.
    destruct (loop_ok image_hash hash_method threshold image_paths [])
      as (d & Hloop & Hok & Hperm); [apply state_ok_nil | done |].
    destruct (loop_homes image_hash hash_method threshold image_paths [])
      as (d0 & Hloop0 & _ & Hhomed); [apply state_ok_nil | done | |].
    { by intros k g p ?%elem_of_nil. }
    rewrite Hloop in Hloop0. injection Hloop0 as <-.
    unfold HashClusterer.find_duplicate_groups. rewrite Hloop. simpl.
    eexists. split_and!; [done | | |].
    + apply Forall_forall. intros g Hg. by apply groups_of_size_two in Hg as [? _].
    + apply groups_apart; [apply Hok|].
      intros k1 g1 k2 g2 p.
      by apply (homed_one_key image_hash hash_method threshold d).
    + intros Hnd. apply NoDup_concat_filter. rewrite Hperm. simpl.
      by apply NoDup_filter.
  - intros descriptors detect good_matches image_paths min_matches.
    destruct (run_spec detect good_matches min_matches image_paths)
      as (groups & tr & Hrun & Hdisj & Hsize & _).
    exists groups. unfold FeatureClusterer.find_duplicate_groups_by_sift.
    by rewrite Hrun.
Qed.

Lemma groups_disjoint_and_large_witness :
  HashClusterer.hashes_ok Sample.exact ["a.png"; "c.png"; "a.png"; "b.png"; "c.png"]
    "phash" = true
  ∧ ∃ groups,
      HashClusterer.find_duplicate_groups Sample.exact
        ["a.png"; "c.png"; "a.png"; "b.png"; "c.png"] "phash" 0 = Returns groups
      ∧ Forall (λ g, 2 ≤ length g) groups
      ∧ ∀ i j gi gj p,
          groups !! i = Some gi → groups !! j = Some gj → p ∈ gi → p ∈ gj → i = j.
Proof.
  split; [reflexivity|].
  destruct (proj1 groups_disjoint_and_large Sample.exact
              ["a.png"; "c.png"; "a.png"; "b.png"; "c.png"] "phash" 0%Z eq_refl)
    as (groups & Hrun & Hsize & Hapart & _).
  by exists groups.
Defined.

(** ** More on [find_duplicate_groups_by_sift] *)

Section FeatureMore.
Import FeatureClusterer.
Context {descriptors : Type}.
Variable detect : string → option descriptors.
Variable good_matches : descriptors → descriptors → option nat.
Variable min_matches : Z.

Implicit Types (items rest : list (string * descriptors)) (processed : gset string).

Abbreviation matched := (FeatureClusterer.matched good_matches min_matches).
Abbreviation grown := (FeatureClusterer.grown good_matches min_matches).

Lemma set_entries (k : string) (v : descriptors) items e :
  e ∈ Dict.set k v items → e ∈ items ∨ e = (k, v).
Proof.
  induction items as [|[k' v'] items IH]; simpl.
  - intros ->%list_elem_of_singleton. by right.
  - destruct (decide (k' = k)) as [->|Hne].
    + intros [->|Hin]%elem_of_cons; [by right | left; by right].
    + intros [->|Hin]%elem_of_cons; [left; left|].
      destruct (IH Hin) as [?| ->]; [left; by right | by right].
Qed.

(** The features are those [detect] returns for input images. *)
Lemma detect_loop_entries image_paths items p des :
  (p, des) ∈ (detect_loop detect image_paths items).1 →
  (p, des) ∈ items ∨ (p ∈ image_paths ∧ detect p = Some des).
Proof.
  revert items. induction image_paths as [|q ps IH]; intros items; [by left|].
  cbn [detect_loop]. destruct (detect q) as [d|] eqn:Hq.
  - specialize (IH (Dict.set q d items)).
    destruct (detect_loop detect ps (Dict.set q d items)) as [f tr]. simpl in *.
    intros Hin. destruct (IH Hin) as [Hin'|[Hp Hd]]; [|right; split; [by right | done]].
    apply set_entries in Hin' as [?|[= -> ->]]; [by left|]. right. split; [left | done].
  - intros Hin. destruct (IH items Hin) as [Hin'|[Hp Hd]]; [by left|].
    right. split; [by right | done].
Qed.

(** One scan appends, in order, images of its range that match the seed. *)
Lemma scan_matches path1 des1 rest group processed :
  ∃ new,
    (scan good_matches min_matches path1 des1 rest group processed).1.1 = group ++ new ∧
    new `sublist_of` Dict.keys rest ∧
    ∀ x, x ∈ new → matched des1 rest x.
Proof.
  revert group processed. induction rest as [|[path2 des2] rest IH];
    intros group processed; simpl.
  { exists []. rewrite (right_id_L [] (++)). split_and!; [done..|].
    by intros x ?%elem_of_nil. }
  assert (Hskip : ∀ new : list string,
            new `sublist_of` Dict.keys rest → (∀ x, x ∈ new → matched des1 rest x) →
            new `sublist_of` path2 :: Dict.keys rest ∧
            ∀ x, x ∈ new → matched des1 ((path2, des2) :: rest) x).
  { intros new Hsub Hm. split; [by apply sublist_cons|].
    intros x Hx. destruct (Hm x Hx) as (des & n & Hin & Hg & Hn).
    exists des, n. split_and!; [by right | done..]. }
  destruct (decide (path2 ∈ processed)).
  { destruct (IH group processed) as (new & Heq & Hsub & Hm). exists new.
    split; [done|]. by apply Hskip. }
  destruct (good_matches des1 des2) as [good|] eqn:Hgood.
  - destruct (decide (min_matches ≤ Z.of_nat good)%Z).
    + destruct (IH (group ++ [path2]) (processed ∪ {[path2]})) as (new & Heq & Hsub & Hm).
      destruct (scan good_matches min_matches path1 des1 rest (group ++ [path2])
                  (processed ∪ {[path2]})) as [[g' p'] tr]. simpl in *.
      exists (path2 :: new). split_and!.
      * by rewrite Heq, <- (assoc_L (++)).
      * by apply sublist_skip.
      * intros x [->|Hx]%elem_of_cons.
        -- exists des2, good. split_and!; [left | done..].
        -- destruct (Hm x Hx) as (des & k & Hin & Hg & Hk).
           exists des, k. split_and!; [by right | done..].
    + destruct (IH group processed) as (new & Heq & Hsub & Hm).
      destruct (scan good_matches min_matches path1 des1 rest group processed)
        as [[g' p'] tr]. simpl in *.
      exists new. split; [done|]. by apply Hskip.
  - destruct (IH group processed) as (new & Heq & Hsub & Hm).
    destruct (scan good_matches min_matches path1 des1 rest group processed)
      as [[g' p'] tr]. simpl in *.
    exists new. split; [done|]. by apply Hskip.
Qed.

Lemma group_loop_grown items processed groups :
  ∃ added,
    (group_loop good_matches min_matches items processed groups).1 = groups ++ added ∧
    Forall (λ g, grown items g) added.
Proof.
  revert processed groups. induction items as [|[path1 des1] rest IH];
    intros processed groups; simpl.
  { exists []. by rewrite (right_id_L [] (++)). }
  assert (Hweak : ∀ added, Forall (λ g, grown rest g) added →
                    Forall (λ g, grown ((path1, des1) :: rest) g) added).
  { intros added Hadded. eapply Forall_impl; [exact Hadded|].
    intros g (seed & des & mem & -> & Hin & Hsub & Hm).
    exists seed, des, mem. split_and!; [done | by right | by apply sublist_cons |].
    intros x Hx. destruct (Hm x Hx) as (des' & n & Hin' & Hg & Hn).
    exists des', n. split_and!; [by right | done..]. }
  destruct (decide (path1 ∈ processed)) as [Hproc|Hproc].
  { destruct (IH processed groups) as (added & Heq & Hadded).
    exists added. split; [done | by apply Hweak]. }
  destruct (scan_matches path1 des1 rest [path1] processed) as (new & Heq & Hsub & Hm).
  destruct (scan good_matches min_matches path1 des1 rest [path1] processed)
    as [[group processed'] tr]. simpl in Heq. subst group.
  case_decide.
  - match goal with
    | |- context [group_loop ?a ?b ?c ?d ?e] =>
        destruct (IH d e) as (added & Heq & Hadded);
        destruct (group_loop a b c d e) as [groups' tr']
    end.
    simpl in *. exists (([path1] ++ new) :: added). split.
    + by rewrite Heq, <- (assoc_L (++)).
    + constructor; [|by apply Hweak].
      exists path1, des1, new. split_and!; [done | left | by apply sublist_skip |].
      intros x Hx. destruct (Hm x Hx) as (des' & n & Hin' & Hg & Hn).
      exists des', n. split_and!; [by right | done..].
  - match goal with
    | |- context [group_loop ?a ?b ?c ?d ?e] =>
        destruct (IH d e) as (added & Heq & Hadded);
        destruct (group_loop a b c d e) as [groups' tr']
    end.
    simpl in *. exists added. split; [done | by apply Hweak].
Qed.

(** When no pair reaches [min_matches], a scan appends nothing ... *)
Lemma scan_nothing path1 des1 rest group processed :
  (∀ des2 n, good_matches des1 des2 = Some n → (Z.of_nat n < min_matches)%Z) →
  (scan good_matches min_matches path1 des1 rest group processed).1 = (group, processed).
Proof.
  intros Hlow. induction rest as [|[path2 des2] rest IH]; simpl; [done|].
  destruct (decide (path2 ∈ processed)); [done|].
  destruct (good_matches des1 des2) as [good|] eqn:Hgood.
  - rewrite decide_False by (specialize (Hlow des2 good Hgood); lia).
    destruct (scan good_matches min_matches path1 des1 rest group processed)
      as [[??]?]. done.
  - destruct (scan good_matches min_matches path1 des1 rest group processed)
      as [[??]?]. done.
Qed.

(** ... and the loop forms no group. *)
Lemma group_loop_nothing items processed groups :
  (∀ des1 des2 n, good_matches des1 des2 = Some n → (Z.of_nat n < min_matches)%Z) →
  (group_loop good_matches min_matches items processed groups).1 = groups.
Proof.
  intros Hlow. revert processed. induction items as [|[path1 des1] rest IH];
    intros processed; simpl; [done|].
  destruct (decide (path1 ∈ processed)); [done|].
  pose proof (scan_nothing path1 des1 rest [path1] processed (Hlow des1)) as Hscan.
  destruct (scan good_matches min_matches path1 des1 rest [path1] processed)
    as [[group processed'] tr]. simpl in Hscan. injection Hscan as -> ->.
  rewrite decide_False by (simpl; lia).
  specialize (IH processed).
  destruct (group_loop good_matches min_matches rest processed groups) as [??].
  done.
Qed.

End FeatureMore.

(** X5: Every group [find_duplicate_groups_by_sift] returns starts with its
    seed and lists its images in the order of the input; all of them are
    input images that have descriptors, and every image after the seed
    reached [min_matches] good matches with the seed.  (Members need not
    match one another, and an image without descriptors is in no
    group.) *)
Theorem sift_members_match_seed
    (descriptors : Type) (detect : string → option descriptors)
    (good_matches : descriptors → descriptors → option nat)
    (image_paths : list string) (min_matches : Z) (groups : list (list string)) :
  FeatureClusterer.find_duplicate_groups_by_sift detect good_matches
    image_paths min_matches = Returns groups →
  ∀ g, g ∈ groups →
    ∃ seed members des_seed,
      g = seed :: members ∧
      detect seed = Some des_seed ∧
      g `sublist_of` FeatureClusterer.feature_paths detect image_paths ∧
      (∀ x, x ∈ g → x ∈ image_paths) ∧
      ∀ x, x ∈ members →
        ∃ des n, detect x = Some des ∧ good_matches des_seed des = Some n ∧
                 (min_matches ≤ Z.of_nat n)%Z.
Proof.
  unfold FeatureClusterer.find_duplicate_groups_by_sift, FeatureClusterer.run,
    FeatureClusterer.feature_paths.
  pose proof (detect_loop_entries detect image_paths []) as Hentries.
  destruct (FeatureClusterer.detect_loop detect image_paths []) as [features tr0].
  simpl in Hentries.
  destruct (group_loop_grown good_matches min_matches features ∅ [])
    as (added & Heq & Hadded).
  destruct (FeatureClusterer.group_loop good_matches min_matches features ∅ [])
    as [groups' tr]. simpl in *. subst groups'.
  intros [= <-] g Hg.
  assert (Hfeat : ∀ p des, (p, des) ∈ features → p ∈ image_paths ∧ detect p = Some des).
  { intros p des Hin. destruct (Hentries p des Hin) as [?%elem_of_nil|?]; done. }
  destruct (proj1 (Forall_forall _ _) Hadded g Hg)
    as (seed & des & mem & -> & Hin & Hsub & Hm).
  exists seed, mem, des. split_and!; [done | by apply Hfeat | done | |].
  - intros x [->|Hx]%elem_of_cons; [by apply Hfeat in Hin as [? _]|].
    destruct (Hm x Hx) as (des' & n & Hin' & _). by apply Hfeat in Hin' as [? _].
  - intros x Hx. destruct (Hm x Hx) as (des' & n & Hin' & Hg' & Hn).
    exists des', n. split_and!; [by apply Hfeat in Hin' as [_ ?] | done..].
Qed.

Lemma sift_members_match_seed_witness :
  ∃ seed members des_seed,
    ["a.png"; "b.png"; "c.png"] = seed :: members ∧
    Sample.three_features seed = Some des_seed ∧
    ∀ x, x ∈ members →
      ∃ des n, Sample.three_features x = Some des ∧
               Sample.one_good_match des_seed des = Some n ∧ (1 ≤ Z.of_nat n)%Z.
Proof.
  destruct (sift_members_match_seed nat Sample.three_features Sample.one_good_match
              ["a.png"; "b.png"; "c.png"] 1 [["a.png"; "b.png"; "c.png"]] eq_refl
              ["a.png"; "b.png"; "c.png"])
    as (seed & members & des & Hg & Hd & _ & _ & Hm); [left|].
  by exists seed, members, des.
Defined.

(** X6: When no pair of descriptor sets reaches [min_matches] good matches,
    [find_duplicate_groups_by_sift] returns no group. *)
Theorem sift_no_match_no_group
    (descriptors : Type) (detect : string → option descriptors)
    (good_matches : descriptors → descriptors → option nat)
    (image_paths : list string) (min_matches : Z) :
  (∀ des1 des2 n, good_matches des1 des2 = Some n → (Z.of_nat n < min_matches)%Z) →
  FeatureClusterer.find_duplicate_groups_by_sift detect good_matches
    image_paths min_matches = Returns [].
Proof.
  intros Hlow.
  unfold FeatureClusterer.find_duplicate_groups_by_sift, FeatureClusterer.run.
  destruct (FeatureClusterer.detect_loop detect image_paths []) as [features tr0].
  pose proof (group_loop_nothing good_matches min_matches features ∅ [] Hlow) as Hnone.
  destruct (FeatureClusterer.group_loop good_matches min_matches features ∅ [])
    as [groups tr]. simpl in *. by subst groups.
Qed.

Lemma sift_no_match_no_group_witness :
  FeatureClusterer.find_duplicate_groups_by_sift Sample.two_features
    Sample.no_good_match ["a.png"; "b.png"] 10 = Returns [].
Proof.
  apply sift_no_match_no_group. intros des1 des2 n [= <-]. lia.
Defined.

(** ** More on the duplicate tree *)

Section TreeMore.
Import Selection.
Implicit Types (t : tree) (it : file_item) (s : CheckState) (g : list file_item).

Lemma paths_store t i j s : paths (store t i j s) = paths t.
Proof.
  unfold paths, store. apply list_eq. intros i'. rewrite !list_lookup_fmap.
  destruct (decide (i = i')) as [<-|Hne]; [|by rewrite list_lookup_alter_ne].
  rewrite list_lookup_alter_eq. destruct (t !! i) as [g|]; simpl; [|done]. f_equal.
  apply list_eq. intros j'. rewrite !list_lookup_fmap.
  destruct (decide (j = j')) as [<-|Hne']; [|by rewrite list_lookup_alter_ne].
  rewrite list_lookup_alter_eq. by destruct (g !! j).
Qed.

Lemma store_other t i i' j s : i ≠ i' → store t i j s !! i' = t !! i'.
Proof. intros Hne. unfold store. by rewrite list_lookup_alter_ne. Qed.

Lemma length_children_store t i j s :
  length (children (store t i j s) i) = length (children t i).
Proof. by rewrite children_store_same, length_alter. Qed.

Lemma selected_count_zero t i :
  selected_count t i = 0 ↔ ∀ j it, child t i j = Some it → checkState it ≠ Checked.
Proof.
  unfold selected_count, child. split.
  - intros Hzero j it Hit Hc.
    assert (it ∈ filter (λ it, checkState it = Checked) (children t i)) as Hin.
    { apply list_elem_of_filter. split; [done | by eapply list_elem_of_lookup_2]. }
    destruct (filter _ _); [by apply elem_of_nil in Hin | done].
  - intros Hnone. destruct (filter _ _) as [|it l] eqn:Hf; [done|]. exfalso.
    assert (it ∈ filter (λ it, checkState it = Checked) (children t i)) as Hin
      by (rewrite Hf; left).
    apply list_elem_of_filter in Hin as [Hc Hin].
    apply list_elem_of_lookup in Hin as [j Hj]. by eapply Hnone.
Qed.

(** [set_rows] over two runs of rows. *)
Lemma set_rows_app t i rows1 rows2 s :
  set_rows t i (rows1 ++ rows2) s
  = and_then (set_rows t i rows1 s) (λ t1, set_rows t1 i rows2 s).
Proof.
  revert t. induction rows1 as [|j rows1 IH]; intros t; cbn [app set_rows].
  - unfold and_then. simpl. destruct (set_rows t i rows2 s) as [[t2 m2]|e]; done.
  - unfold and_then in *.
    destruct (setCheckState _ t i j s) as [[t1 m1]|e]; simpl; [|done].
    rewrite IH. destruct (set_rows t1 i rows1 s) as [[t2 m2]|e]; simpl; [|done].
    destruct (set_rows t2 i rows2 s) as [[t3 m3]|e]; simpl; [|done].
    by rewrite (assoc_L (++)).
Qed.

(** Rows that already are in the state asked for: nothing happens. *)
Lemma set_rows_same t i rows s :
  (∀ j, j ∈ rows → ∃ it, child t i j = Some it ∧ checkState it = s) →
  set_rows t i rows s = Returns (t, []).
Proof.
  induction rows as [|j rows IH]; intros Hrows; [done|]. cbn [set_rows].
  destruct (Hrows j) as (it & Hit & Hs); [left|].
  rewrite <- Hs at 1. rewrite (setCheckState_same _ _ _ _ it) by done.
  unfold and_then. cbn [mbind outcome_bind].
  rewrite IH; [done|]. intros j' Hj'. apply Hrows. by right.
Qed.

(** Rows set while another row [j0] stays checked, or set to checked: the
    slot never interferes and the loop is a run of plain updates. *)
Lemma set_rows_kept t i rows s :
  (∀ j, j ∈ rows → j < length (children t i)) →
  (s = Checked ∨ ∃ j0 it0, (j0 ∉ rows) ∧ child t i j0 = Some it0 ∧ checkState it0 = Checked) →
  set_rows t i rows s = Returns (foldl (λ t j, store t i j s) t rows, []).
Proof.
  revert t. induction rows as [|j rows IH]; intros t Hvalid Hkept; [done|].
  destruct (lookup_lt_is_Some_2 (children t i) j) as [it Hit]; [apply Hvalid; left|].
  cbn [set_rows foldl]. unfold recursion_limit.
  rewrite (setCheckState_kept _ t i j s it); [|done|].
  2:{ destruct Hkept as [->|(j0 & it0 & Hj0 & Hit0 & Hc0)].
      - eapply selected_count_checked; [by apply child_store_same | done].
      - eapply (selected_count_checked _ _ j0); [|done].
        rewrite child_store_ne; [done|]. intros ->. apply Hj0. left. }
  unfold and_then. simpl. rewrite IH; [done | |].
  - intros j' Hj'. rewrite length_children_store. apply Hvalid. by right.
  - destruct Hkept as [->|(j0 & it0 & Hj0 & Hit0 & Hc0)]; [by left|]. right.
    exists j0, it0. split_and!; [|rewrite child_store_ne; [done|] | done].
    + intros Hin. apply Hj0. by right.
    + intros ->. apply Hj0. left.
Qed.

Lemma fold_store_rows t i (rows : list nat) s :
  foldl (λ t j, store t i j s) t rows
  = alter (λ g, foldl (λ g j, alter (λ it, FileItem (text1 it) s) j g) g rows) i t.
Proof.
  revert t. induction rows as [|j rows IH]; intros t; cbn [foldl].
  - symmetry. by apply list_alter_id.
  - rewrite IH. unfold store. by rewrite list_alter_alter_eq.
Qed.

(** Every top-level loop of the controller: when its body rewrites the
    group it is given by [F] and warns by [M], the loop rewrites every
    group by [F], and the warnings are those of the groups in order. *)
Lemma for_groups_all (body : tree → nat → outcome (tree * list message))
    (F : list file_item → list file_item) (M : list file_item → list message)
    (P : list file_item → Prop) t :
  (∀ t i g, t !! i = Some g → P g → body t i = Returns (alter F i t, M g)) →
  Forall P t →
  for_groups body t (seq 0 (length t)) = Returns (F <$> t, concat (M <$> t)).
Proof.
  intros Hbody HP.
  assert (Hgen : ∀ indices t', NoDup indices →
            (∀ i, i ∈ indices → (t' !! i = t !! i) ∧ i < length t) →
            for_groups body t' indices
            = Returns (foldl (λ t i, alter F i t) t' indices,
                       concat ((λ i, M (children t i)) <$> indices))).
  { induction indices as [|i indices IH]; intros t' Hnd Hsame; [done|].
    apply NoDup_cons in Hnd as [Hi Hnd]. cbn [for_groups foldl].
    destruct (Hsame i) as [Hti Hlt]; [left|].
    destruct (lookup_lt_is_Some_2 t i Hlt) as [g Hg].
    rewrite (Hbody t' i g); [| by rewrite Hti | by eapply Forall_forall, list_elem_of_lookup_2].
    unfold and_then. simpl. rewrite IH; [| done |].
    - simpl. unfold children. by rewrite Hg.
    - intros i' Hi'. destruct (Hsame i') as [? ?]; [by right|]. split; [|done].
      rewrite list_lookup_alter_ne; [done|]. by intros ->. }
  rewrite Hgen; [| apply NoDup_seq |].
  2:{ intros i Hi%elem_of_seq. split; [done | lia]. }
  f_equal. f_equal.
  - apply list_eq. intros i. rewrite fold_alter_lookup by apply NoDup_seq.
    rewrite list_lookup_fmap. case_decide as Hi; [done|].
    rewrite lookup_ge_None_2; [done|].
    destruct (decide (i < length t)); [|lia]. exfalso. apply Hi. apply elem_of_seq. lia.
  - f_equal. apply list_eq. intros i. rewrite !list_lookup_fmap.
    destruct (decide (i < length t)) as [Hlt|Hge].
    + rewrite lookup_seq_lt by done. simpl.
      destruct (lookup_lt_is_Some_2 t i Hlt) as [g Hg]. unfold children. by rewrite Hg.
    + rewrite lookup_seq_ge by lia. by rewrite lookup_ge_None_2 by lia.
Qed.

Lemma rows_all_altered {A} (f : A → A) (l : list A) :
  foldl (λ l j, alter f j l) l (seq 0 (length l)) = f <$> l.
Proof.
  apply list_eq. intros j. rewrite fold_alter_lookup by apply NoDup_seq.
  rewrite list_lookup_fmap. case_decide as Hj; [done|].
  rewrite lookup_ge_None_2; [done|].
  destruct (decide (j < length l)); [|lia]. exfalso. apply Hj. apply elem_of_seq. lia.
Qed.

End TreeMore.

(** X7: A toggle in a group that has a checked row returns, and leaves the
    group with a checked row, whatever row is set to whatever state; no
    other group and no path changes.  When the new state leaves a checked
    row in the group, the toggle is the plain update, without a warning. *)
Theorem toggle_keeps_a_keeper
    (t : list (list Selection.file_item)) (i j : nat) (s : Selection.CheckState)
    (it : Selection.file_item) :
  Selection.selected_count t i ≠ 0 →
  Selection.child t i j = Some it →
  ∃ t' warnings,
    Selection.toggle t i j s = Returns (t', warnings) ∧
    Selection.selected_count t' i ≠ 0 ∧
    Selection.paths t' = Selection.paths t ∧
    (∀ i', i ≠ i' → t' !! i' = t !! i') ∧
    (Selection.selected_count (Selection.store t i j s) i ≠ 0 →
     t' = Selection.store t i j s ∧ warnings = []).
Proof.
  intros Hbefore Hit. unfold Selection.toggle, Selection.recursion_limit.
  destruct (decide (Selection.selected_count (Selection.store t i j s) i = 0))
    as [Hzero|Hpos].
  - assert (Selection.checkState it ≠ s) as Hne.
    { intros <-. by rewrite store_id in Hzero. }
    rewrite (setCheckState_rejected 997 t i j s it) by done.
    eexists _, _. split; [done|]. split_and!.
    + eapply selected_count_checked; [by apply child_store_same | done].
    + apply paths_store.
    + intros i' Hi'. by apply store_other.
    + done.
  - rewrite (setCheckState_kept _ t i j s it) by done.
    eexists _, _. split; [done|]. split_and!; [done | apply paths_store | | done].
    intros i' Hi'. by apply store_other.
Qed.

Lemma toggle_keeps_a_keeper_witness :
  ∃ t' warnings,
    Selection.toggle
      [[Selection.FileItem "a.png" Selection.Checked;
        Selection.FileItem "b.png" Selection.Unchecked]] 0 1 Selection.Checked
    = Returns (t', warnings) ∧
    Selection.selected_count t' 0 ≠ 0.
Proof.
  destruct (toggle_keeps_a_keeper
              [[Selection.FileItem "a.png" Selection.Checked;
                Selection.FileItem "b.png" Selection.Unchecked]] 0 1 Selection.Checked
              (Selection.FileItem "b.png" Selection.Unchecked))
    as (t' & ws & Hrun & Hcount & _); [vm_compute; discriminate | reflexivity |].
  by exists t', ws.
Defined.

(** X8: [select_all_files] checks every row of every group and raises no
    warning; afterwards no file is selected for deletion. *)
Theorem select_all_keeps_every_file (t : list (list Selection.file_item)) :
  Selection.select_all_files t = Returns (Selection.all_checked <$> t, [])
  ∧ Selection.get_selected_files_to_delete (Selection.all_checked <$> t) = []
  ∧ Selection.paths (Selection.all_checked <$> t) = Selection.paths t.
Proof.
  split_and!.
  - unfold Selection.select_all_files.
    rewrite (for_groups_all Selection.select_all_group Selection.all_checked
               (λ _, []) (λ _, True)).
    + f_equal. f_equal. induction t; [done|]. simpl. done.
    + intros t0 i g Hg _. unfold Selection.select_all_group.
      rewrite set_rows_kept; [| |by left].
      * rewrite fold_store_rows. f_equal. f_equal. apply list_alter_ext; [|done].
        intros g' Hg'. unfold Selection.children. rewrite Hg'. simpl.
        apply rows_all_altered.
      * intros j Hj%elem_of_seq. lia.
    + by apply Forall_true.
  - unfold Selection.get_selected_files_to_delete.
    induction t as [|g t IH]; [done|]. rewrite fmap_cons. cbn [map concat].
    rewrite IH, (right_id_L [] (++)). unfold Selection.all_checked.
    induction g as [|it g IHg]; [done|]. rewrite fmap_cons, filter_cons. simpl.
    done.
  - unfold Selection.paths, Selection.all_checked.
    rewrite <- list_fmap_compose. apply list_fmap_ext.
    intros _ g _. simpl. rewrite <- list_fmap_compose. by apply list_fmap_ext.
Qed.

(** *** [deselect_all_files] *)

Section DeselectFacts.
Import Selection.
Implicit Types (t : tree) (it : file_item) (s : CheckState) (g : list file_item).

Lemma last_checked_from_spec k g :
  match last_checked_from k g with
  | Some m =>
      ∃ j it, m = k + j ∧ g !! j = Some it ∧ checkState it = Checked ∧
              ∀ j' it', j < j' → g !! j' = Some it' → checkState it' ≠ Checked
  | None => ∀ j it, g !! j = Some it → checkState it ≠ Checked
  end.
Proof.
  revert k. induction g as [|it0 g IH]; intros k; simpl.
  { intros j it Hj. by rewrite lookup_nil in Hj. }
  specialize (IH (S k)). destruct (last_checked_from (S k) g) as [m|].
  - destruct IH as (j & it & -> & Hj & Hc & Hlater).
    exists (S j), it. split_and!; [lia | done | done |].
    intros [|j'] it' Hlt Hj'; [lia|]. simpl in Hj'. apply (Hlater j'); [lia | done].
  - destruct (decide (checkState it0 = Checked)) as [Hc|Hc].
    + exists 0, it0. split_and!; [lia | done | done |].
      intros [|j'] it' Hlt Hj'; [lia|]. simpl in Hj'. by eapply IH.
    + intros [|j] it Hj; simpl in Hj; [by injection Hj as <- | by eapply IH].
Qed.

Lemma children_fold_store t i (rows : list nat) s j :
  NoDup rows →
  children (foldl (λ t j, store t i j s) t rows) i !! j
  = if decide (j ∈ rows)
    then (λ it, FileItem (text1 it) s) <$> children t i !! j
    else children t i !! j.
Proof.
  intros Hnd. rewrite fold_store_rows. unfold children.
  rewrite list_lookup_alter_eq. destruct (t !! i) as [g|]; simpl.
  - by apply fold_alter_lookup.
  - rewrite lookup_nil. by case_decide.
Qed.

Lemma length_children_fold_store t i (rows : list nat) s :
  length (children (foldl (λ t j, store t i j s) t rows) i) = length (children t i).
Proof.
  revert t. induction rows as [|j rows IH]; intros t; cbn [foldl]; [done|].
  by rewrite IH, length_children_store.
Qed.

Lemma row_eta it s : checkState it = s → FileItem (text1 it) s = it.
Proof. intros <-. by destruct it. Qed.

(** One group of [deselect_all_files]. *)
Lemma deselect_all_group_spec t i g :
  t !! i = Some g → Forall (λ it, checkState it ≠ PartiallyChecked) g →
  deselect_all_group t i
  = Returns (alter (λ g, first_and (last_checked g) g) i t,
             if last_checked g is Some _ then [KeepOneWarning] else []).
Proof.
  intros Hg Htwo. unfold deselect_all_group.
  assert (Hch : children t i = g) by (unfold children; by rewrite Hg).
  rewrite Hch.
  assert (Hstate : ∀ j it, g !! j = Some it → checkState it ≠ Checked →
                     checkState it = Unchecked).
  { intros j it Hj Hc. eapply Forall_forall in Htwo; [|by eapply list_elem_of_lookup_2].
    by destruct (checkState it). }
  pose proof (last_checked_from_spec 0 g) as Hlast. fold (last_checked g) in Hlast.
  (* the loop over the rows *)
  assert (∃ t1,
            set_rows t i (seq 0 (length g)) Unchecked
            = Returns (t1, if last_checked g is Some _ then [KeepOneWarning] else [])
            ∧ (∀ i', i ≠ i' → t1 !! i' = t !! i')
            ∧ length t1 = length t
            ∧ ∀ j, children t1 i !! j
                   = (λ it, FileItem (text1 it)
                              (if decide (last_checked g = Some j) then Checked
                               else Unchecked)) <$> g !! j)
    as (t1 & Hloop & Hother & Hlen & Hrows).
  { destruct (last_checked g) as [m|].
    - destruct Hlast as (j & itm & -> & Hm & Hcm & Hlater). simpl in *.
      assert (j < length g) as Hlt by (by eapply lookup_lt_Some).
      assert (Hseq : seq 0 (length g) = seq 0 j ++ [j] ++ seq (S j) (length g - S j)).
      { replace (length g) with (j + S (length g - S j)) at 1 by lia.
        by rewrite seq_app. }
      rewrite Hseq.
      set (t1 := foldl (λ t j, store t i j Unchecked) t (seq 0 j)).
      assert (Hrows1 : ∀ j', children t1 i !! j'
                = if decide (j' ∈ seq 0 j)
                  then (λ it, FileItem (text1 it) Unchecked) <$> g !! j' else g !! j').
      { intros j'. unfold t1. rewrite children_fold_store by apply NoDup_seq.
        by rewrite Hch. }
      assert (Hm1 : child t1 i j = Some itm).
      { unfold child. rewrite Hrows1, decide_False; [done|].
        intros Hin%elem_of_seq. lia. }
      exists t1. split_and!.
      + rewrite set_rows_app.
        rewrite set_rows_kept.
        2:{ intros j' Hj'%elem_of_seq. rewrite Hch. lia. }
        2:{ right. exists j, itm. split_and!; [|by unfold child; rewrite Hch | done].
            intros Hin%elem_of_seq. lia. }
        fold t1. unfold and_then at 1. cbn [mbind outcome_bind].
        cbn [app set_rows]. unfold recursion_limit.
        rewrite (setCheckState_rejected 997 t1 i j Unchecked itm); [|done | by rewrite Hcm |].
        2:{ apply selected_count_zero. intros j' it' Hit'.
            unfold child in Hit'. rewrite children_store_same in Hit'.
            destruct (decide (j = j')) as [<-|Hne].
            - rewrite list_lookup_alter_eq in Hit'. unfold child in Hm1.
              rewrite Hm1 in Hit'. by injection Hit' as <-.
            - rewrite list_lookup_alter_ne, Hrows1 in Hit' by done.
              case_decide as Hin.
              + destruct (g !! j'); simplify_eq/=; done.
              + apply (Hlater j' it'); [|done]. apply Decidable.not_not; [unfold Decidable.decidable; lia|].
                intros Hnlt. apply Hin. apply elem_of_seq. lia. }
        rewrite <- Hcm, store_id by done.
        unfold and_then. cbn [mbind outcome_bind].
        rewrite set_rows_same; [done|].
        intros j' Hj'%elem_of_seq. unfold child. rewrite Hrows1.
        rewrite decide_False by (intros Hin%elem_of_seq; lia).
        destruct (lookup_lt_is_Some_2 g j') as [it' Hit']; [lia|].
        exists it'. split; [done|]. apply (Hstate j'); [done|].
        apply (Hlater j'); [lia | done].
      + intros i' Hi'. unfold t1. rewrite fold_store_rows.
        by rewrite list_lookup_alter_ne.
      + unfold t1. by rewrite fold_store_rows, length_alter.
      + intros j'. rewrite Hrows1. destruct (g !! j') as [it'|] eqn:Hit'; [|by case_decide].
        simpl. destruct (decide (j' ∈ seq 0 j)) as [Hin|Hout]; simpl.
        * apply elem_of_seq in Hin. rewrite decide_False; [done|]. intros [= ->]. lia.
        * destruct (decide (j' = j)) as [->|Hne].
          -- rewrite decide_True by done. rewrite Hm in Hit'. injection Hit' as <-.
             by rewrite row_eta.
          -- rewrite decide_False by congruence. rewrite row_eta; [done|].
             apply (Hstate j'); [done|]. apply (Hlater j'); [|done].
             apply Decidable.not_not; [unfold Decidable.decidable; lia|].
             intros Hnlt. apply Hout. apply elem_of_seq. lia.
    - exists t. split_and!.
      + apply set_rows_same. intros j Hj%elem_of_seq.
        destruct (lookup_lt_is_Some_2 g j) as [it Hit]; [lia|].
        exists it. unfold child. rewrite Hch. split; [done|].
        apply (Hstate j); [done | by eapply Hlast].
      + done.
      + done.
      + intros j. rewrite Hch. destruct (g !! j) as [it|] eqn:Hit; [|done]. simpl.
        rewrite row_eta; [done|]. apply (Hstate j); [done | by eapply Hlast]. }
  rewrite Hloop. unfold and_then. cbn [mbind outcome_bind].
  (* the first row is checked *)
  assert (Hfinal : ∀ t2, length t2 = length t →
            (∀ i', i ≠ i' → t2 !! i' = t !! i') →
            (∀ j, children t2 i !! j
                  = (λ it, FileItem (text1 it)
                             (if decide (j = 0 ∨ last_checked g = Some j) then Checked
                              else Unchecked)) <$> g !! j) →
            t2 = alter (λ g, first_and (last_checked g) g) i t).
  { intros t2 Hlen2 Hother2 Hrows2. apply list_eq. intros i'.
    destruct (decide (i = i')) as [<-|Hne]; [|by rewrite list_lookup_alter_ne, Hother2].
    rewrite list_lookup_alter_eq, Hg. simpl.
    destruct (t2 !! i) as [g2|] eqn:Hg2.
    - f_equal. apply list_eq. intros j. unfold children in Hrows2. rewrite Hg2 in Hrows2.
      simpl in Hrows2. rewrite Hrows2. unfold first_and. by rewrite list_lookup_imap.
    - exfalso. apply lookup_ge_None in Hg2.
      assert (i < length t) by (by eapply lookup_lt_Some). lia. }
  destruct (decide (0 < length g)) as [Hpos|Hzero].
  - destruct (lookup_lt_is_Some_2 g 0) as [x Hx]; [lia|].
    pose proof (Hrows 0) as Hit0. rewrite Hx in Hit0. simpl in Hit0.
    unfold recursion_limit.
    rewrite (setCheckState_kept _ t1 i 0 Checked _ Hit0).
    2:{ eapply selected_count_checked; [by apply child_store_same | done]. }
    cbn [mbind outcome_bind mret outcome_ret]. f_equal. f_equal; [|by rewrite (right_id_L [] (++))].
    apply Hfinal.
    + unfold store. by rewrite length_alter.
    + intros i' Hi'. by rewrite store_other, Hother.
    + intros j. rewrite children_store_same.
      destruct (decide (j = 0)) as [->|Hne].
      * rewrite list_lookup_alter_eq, Hrows. destruct (g !! 0); simpl; [|done].
        done.
      * rewrite list_lookup_alter_ne, Hrows by done.
        destruct (g !! j); simpl; [|done]. do 2 f_equal.
        repeat case_decide; naive_solver.
  - cbn [mbind outcome_bind mret outcome_ret]. f_equal. f_equal; [|by rewrite (right_id_L [] (++))].
    apply Hfinal; [done | done |]. intros j. rewrite Hrows.
    assert (g = []) as -> by (destruct g; [done | simpl in Hzero; lia]). done.
Qed.

End DeselectFacts.

(** X9: [deselect_all_files] does not uncheck every row: in a tree whose rows
    are checked or unchecked, each group ends with its first row checked
    and, besides it, the last row that was checked before; the other rows
    are unchecked, the paths are kept, and one warning is shown for each
    group that had a checked row. *)
Theorem deselect_all_keeps_first_and_last (t : list (list Selection.file_item)) :
  Selection.two_state t →
  Selection.deselect_all_files t
  = Returns (map (λ g, Selection.first_and (Selection.last_checked g) g) t,
             concat (map (λ g, if Selection.last_checked g is Some _
                               then [Selection.KeepOneWarning] else []) t)).
Proof.
  intros Htwo. unfold Selection.deselect_all_files.
  rewrite (for_groups_all Selection.deselect_all_group
             (λ g, Selection.first_and (Selection.last_checked g) g)
             (λ g, if Selection.last_checked g is Some _
                   then [Selection.KeepOneWarning] else [])
             (Forall (λ it, Selection.checkState it ≠ Selection.PartiallyChecked))).
  - done.
  - intros t0 i g Hg Hp. by apply deselect_all_group_spec.
  - exact Htwo.
Qed.

Lemma deselect_all_keeps_first_and_last_witness :
  Selection.deselect_all_files
    [[Selection.FileItem "a.png" Selection.Unchecked;
      Selection.FileItem "b.png" Selection.Checked;
      Selection.FileItem "c.png" Selection.Checked;
      Selection.FileItem "d.png" Selection.Unchecked]]
  = Returns ([[Selection.FileItem "a.png" Selection.Checked;
               Selection.FileItem "b.png" Selection.Unchecked;
               Selection.FileItem "c.png" Selection.Checked;
               Selection.FileItem "d.png" Selection.Unchecked]],
             [Selection.KeepOneWarning]).
Proof.
  apply (deselect_all_keeps_first_and_last
           [[Selection.FileItem "a.png" Selection.Unchecked;
             Selection.FileItem "b.png" Selection.Checked;
             Selection.FileItem "c.png" Selection.Checked;
             Selection.FileItem "d.png" Selection.Unchecked]]).
  repeat constructor; discriminate.
Defined.

(** *** [auto_select_files], then [get_selected_files_to_delete] *)

Section AutoSelectMore.
Import Selection.
Variable getsize : string → option Z.
Variable getmtime : string → option Qc.
Implicit Types (t : tree) (g : list file_item).

Abbreviation best_row := (best_of getsize getmtime).
Abbreviation keep_best := (λ g, kept_only (best_row g) g).

Lemma best_of_paths g g' : map text1 g = map text1 g' → best_row g = best_row g'.
Proof.
  intros Hp. unfold best_of.
  assert (∀ g, imap (λ j it, info getsize getmtime j (text1 it)) g
               = imap (info getsize getmtime) (text1 <$> g)) as Himap.
  { intros g0. by rewrite imap_fmap. }
  rewrite !Himap. change (text1 <$> g) with (map text1 g).
  change (text1 <$> g') with (map text1 g'). by rewrite Hp.
Qed.

Lemma kept_only_paths j0 g g' :
  map text1 g = map text1 g' → kept_only j0 g = kept_only j0 g'.
Proof.
  intros Hp. unfold kept_only.
  assert (∀ g, imap (λ j it, FileItem (text1 it)
                               (if decide (j = j0) then Checked else Unchecked)) g
               = imap (λ j p, FileItem p (if decide (j = j0) then Checked else Unchecked))
                      (text1 <$> g)) as Himap.
  { intros g0. by rewrite imap_fmap. }
  rewrite !Himap. change (text1 <$> g) with (map text1 g).
  change (text1 <$> g') with (map text1 g'). by rewrite Hp.
Qed.

Lemma kept_only_text j0 g : map text1 (kept_only j0 g) = map text1 g.
Proof.
  unfold kept_only. change (map text1 ?l) with (text1 <$> l).
  rewrite fmap_imap. rewrite <- (imap_const text1 g). by apply imap_ext.
Qed.

Lemma keep_best_paths g g' : map text1 g = map text1 g' → keep_best g = keep_best g'.
Proof.
  intros Hp. cbv beta. rewrite (best_of_paths g g') by done. by apply kept_only_paths.
Qed.

Lemma keep_best_tree t t' : paths t = paths t' → keep_best <$> t = keep_best <$> t'.
Proof.
  unfold paths. revert t'. induction t as [|g t IH]; intros [|g' t'] Hp; try done.
  cbn [map] in Hp. injection Hp as Hg Ht. rewrite !fmap_cons. f_equal.
  - by apply keep_best_paths.
  - by apply IH.
Qed.

Lemma paths_keep_best t : paths (keep_best <$> t) = paths t.
Proof.
  unfold paths. induction t as [|g t IH]; [done|].
  rewrite fmap_cons. cbn [map]. by rewrite IH, kept_only_text.
Qed.

(** The unchecked rows of a group in which one row alone is checked. *)
Lemma unchecked_kept_only k j0 g :
  map text1 (filter (λ it, checkState it = Unchecked)
               (imap (λ j it, FileItem (text1 it)
                                (if decide (k + j = j0) then Checked else Unchecked)) g))
  = if decide (k ≤ j0) then delete (j0 - k) (map text1 g) else map text1 g.
Proof.
  revert k. induction g as [|x g IH]; intros k.
  { simpl. by case_decide. }
  rewrite imap_cons.
  rewrite (imap_ext _ (λ j it, FileItem (text1 it)
                                 (if decide (S k + j = j0) then Checked else Unchecked)) g).
  2:{ intros j it _. simpl. do 2 f_equal. repeat case_decide; try done; lia. }
  rewrite filter_cons. cbn [checkState]. specialize (IH (S k)).
  destruct (decide (k + 0 = j0)) as [Heq|Hne].
  - rewrite decide_False by done. rewrite IH.
    rewrite decide_False by lia. rewrite decide_True by lia.
    replace (j0 - k) with 0 by lia. done.
  - rewrite decide_True by done. cbn [map text1]. rewrite IH.
    destruct (decide (S k ≤ j0)) as [Hle|Hgt].
    + rewrite decide_True by lia. replace (j0 - k) with (S (j0 - S k)) by lia. done.
    + rewrite decide_False by lia. done.
Qed.

Lemma plan_keep_best t :
  get_selected_files_to_delete (keep_best <$> t)
  = concat (map (λ g, delete (best_row g) (map text1 g)) t).
Proof.
  unfold get_selected_files_to_delete. f_equal.
  induction t as [|g t IH]; [done|]. rewrite fmap_cons. cbn [map]. rewrite IH. f_equal.
  pose proof (unchecked_kept_only 0 (best_row g) g) as H.
  rewrite decide_True, Nat.sub_0_r in H by lia. exact H.
Qed.

End AutoSelectMore.

(** X10: [auto_select_files] followed by [get_selected_files_to_delete]: the
    files to delete are, group by group and in row order, all paths of the
    group but the one of the row the sort puts first.  The outcome depends
    on the paths of the tree alone, not on what was checked before, so that
    running the command again changes nothing. *)
Theorem auto_select_deletes_all_but_best
    (getsize : string → option Z) (getmtime : string → option Qc)
    (t : list (list Selection.file_item)) :
  ∃ t',
    Selection.auto_select_files getsize getmtime t = Returns (t', []) ∧
    Selection.paths t' = Selection.paths t ∧
    Selection.get_selected_files_to_delete t'
    = concat (map (λ g, delete (Selection.best_of getsize getmtime g)
                          (map Selection.text1 g)) t) ∧
    ∀ t2, Selection.paths t2 = Selection.paths t →
          Selection.auto_select_files getsize getmtime t2 = Returns (t', []).
Proof.
  exists ((λ g, Selection.kept_only (Selection.best_of getsize getmtime g) g) <$> t).
  split_and!.
  - apply auto_select_files_spec.
  - apply paths_keep_best.
  - apply plan_keep_best.
  - intros t2 Hp. rewrite auto_select_files_spec. do 2 f_equal.
    by apply keep_best_tree.
Qed.

(** *** [on_detection_complete] *)

Section PopulateFacts.
Import Selection.
Variable has_icon : string → bool.
Implicit Types (t : tree) (g : list file_item) (group : list string).

Abbreviation unchecked_rows group := (map (λ p, FileItem p Unchecked) group).
Abbreviation shown group := (kept_only 0 (unchecked_rows group)).
Abbreviation shown_warnings :=
  (λ group : list string,
     if group is [] then [] else [KeepOneWarning; KeepOneWarning]).

Lemma append_row_children t i g x :
  t !! i = Some g → children (alter (λ g, g ++ [x]) i t) i = g ++ [x].
Proof. intros Hg. unfold children. by rewrite list_lookup_alter_eq, Hg. Qed.

Lemma append_row_child t i g x :
  t !! i = Some g → child (alter (λ g, g ++ [x]) i t) i (length g) = Some x.
Proof.
  intros Hg. unfold child. rewrite (append_row_children t i g) by done.
  by apply list_lookup_middle.
Qed.

Lemma append_row_count t i g x :
  t !! i = Some g →
  selected_count (alter (λ g, g ++ [x]) i t) i
  = selected_count t i + (if decide (checkState x = Checked) then 1 else 0).
Proof.
  intros Hg. unfold selected_count. rewrite (append_row_children t i g) by done.
  unfold children. rewrite Hg. simpl. rewrite filter_app, length_app. f_equal.
  rewrite filter_cons, filter_nil. by case_decide.
Qed.

Lemma append_row_store t i g p s s' :
  t !! i = Some g →
  store (alter (λ g, g ++ [FileItem p s]) i t) i (length g) s'
  = alter (λ g, g ++ [FileItem p s']) i t.
Proof.
  intros Hg. unfold store. rewrite list_alter_alter_eq.
  apply list_alter_ext; [|done]. intros g' Hg'. simpl.
  assert (g' = g) as -> by congruence.
  rewrite alter_app_r_alt by lia. by rewrite Nat.sub_diag.
Qed.

(** The first row of a group: the slot checks it when its name is set, and
    again when the code unchecks it. *)
Lemma fill_row_first t i g p :
  t !! i = Some g → selected_count t i = 0 →
  fill_row has_icon t i p
  = Returns (alter (λ g, g ++ [FileItem p Checked]) i t, [KeepOneWarning; KeepOneWarning]).
Proof.
  intros Hg Hzero. unfold fill_row, emit, recursion_limit.
  assert (Hch : children t i = g) by (unfold children; by rewrite Hg).
  rewrite Hch.
  set (t0 := alter (λ g, g ++ [FileItem p Unchecked]) i t).
  set (t1 := alter (λ g, g ++ [FileItem p Checked]) i t).
  assert (Hc0 : child t0 i (length g) = Some (FileItem p Unchecked))
    by (by apply append_row_child).
  assert (Hz0 : selected_count t0 i = 0).
  { unfold t0. rewrite (append_row_count t i g) by done. simpl. lia. }
  assert (Hn1 : selected_count t1 i ≠ 0).
  { unfold t1. rewrite (append_row_count t i g) by done. simpl. lia. }
  assert (H01 : store t0 i (length g) Checked = t1) by (by apply append_row_store).
  assert (H10 : store t1 i (length g) Unchecked = t0) by (by apply append_row_store).
  assert (Hslot0 : on_selection_changed 1000 t0 (FileRow i (length g)) 0
                   = Returns (t1, [KeepOneWarning])).
  { rewrite (slot_restores 997 t0 i (length g) _ Hc0 Hz0). by rewrite H01. }
  assert (Hslot1 : ∀ column, on_selection_changed 1000 t1 (FileRow i (length g)) column
                             = Returns (t1, [])).
  { intros column. by apply (slot_keeps 999). }
  rewrite Hslot0. unfold and_then at 1. cbn [mbind outcome_bind].
  rewrite Hslot1. unfold and_then at 1. cbn [mbind outcome_bind].
  rewrite H10, Hslot0. unfold and_then at 1. cbn [mbind outcome_bind].
  rewrite (slot_group 999). unfold and_then at 1. cbn [mbind outcome_bind].
  rewrite Hslot1. unfold and_then. cbn [mbind outcome_bind].
  destruct (has_icon p); [rewrite Hslot1|]; done.
Qed.

(** A later row: a row of the group is checked, and the slot has nothing
    to do. *)
Lemma fill_row_later t i g p :
  t !! i = Some g → selected_count t i ≠ 0 →
  fill_row has_icon t i p = Returns (alter (λ g, g ++ [FileItem p Unchecked]) i t, []).
Proof.
  intros Hg Hn. unfold fill_row, emit, recursion_limit.
  assert (Hch : children t i = g) by (unfold children; by rewrite Hg).
  rewrite Hch.
  set (t0 := alter (λ g, g ++ [FileItem p Unchecked]) i t).
  assert (Hn0 : selected_count t0 i ≠ 0).
  { unfold t0. rewrite (append_row_count t i g) by done. simpl. lia. }
  assert (H00 : store t0 i (length g) Unchecked = t0) by (by apply append_row_store).
  assert (Hslot : ∀ column, on_selection_changed 1000 t0 (FileRow i (length g)) column
                            = Returns (t0, [])).
  { intros column. by apply (slot_keeps 999). }
  rewrite Hslot. unfold and_then at 1. cbn [mbind outcome_bind].
  rewrite Hslot. unfold and_then at 1. cbn [mbind outcome_bind].
  rewrite H00, Hslot. unfold and_then at 1. cbn [mbind outcome_bind].
  rewrite (slot_group 999). unfold and_then at 1. cbn [mbind outcome_bind].
  rewrite Hslot. unfold and_then. cbn [mbind outcome_bind].
  destruct (has_icon p); [rewrite Hslot|]; done.
Qed.

Lemma fill_rows_later t i g group :
  t !! i = Some g → selected_count t i ≠ 0 →
  fill_rows has_icon t i group
  = Returns (alter (λ g, g ++ unchecked_rows group) i t, []).
Proof.
  revert t g. induction group as [|p group IH]; intros t g Hg Hn; cbn [fill_rows map].
  { rewrite list_alter_id; [done|]. intros g'. by rewrite app_nil_r. }
  rewrite (fill_row_later t i g) by done. unfold and_then. cbn [mbind outcome_bind].
  rewrite (IH _ (g ++ [FileItem p Unchecked])).
  - simpl. rewrite list_alter_alter_eq. do 2 f_equal.
    apply list_alter_ext; [|done]. intros g' _. simpl. by rewrite <- app_assoc.
  - by rewrite list_lookup_alter_eq, Hg.
  - rewrite (append_row_count t i g) by done. lia.
Qed.

Lemma kept_only_first x g :
  Forall (λ it, checkState it = Unchecked) g →
  kept_only 0 (x :: g) = FileItem (text1 x) Checked :: g.
Proof.
  intros Hg. unfold kept_only. rewrite imap_cons. f_equal.
  rewrite <- (list_fmap_id g) at 2. rewrite <- (imap_const id g).
  apply imap_ext. intros j it Hit. simpl.
  eapply Forall_forall in Hg; [|by eapply list_elem_of_lookup_2].
  destruct it as [p s]. simpl in *. by subst s.
Qed.

Lemma unchecked_rows_Forall group :
  Forall (λ it, checkState it = Unchecked) (unchecked_rows group).
Proof. induction group; by constructor. Qed.

Lemma fill_rows_fresh t i group :
  t !! i = Some [] →
  fill_rows has_icon t i group
  = Returns (alter (λ _, shown group) i t, shown_warnings group).
Proof.
  intros Hg. destruct group as [|p group]; cbn [fill_rows].
  { f_equal. f_equal. apply list_eq. intros i'.
    destruct (decide (i = i')) as [<-|Hne].
    - by rewrite list_lookup_alter_eq, Hg.
    - by rewrite list_lookup_alter_ne. }
  rewrite (fill_row_first t i []); [|done|].
  2:{ unfold selected_count, children. by rewrite Hg. }
  unfold and_then. cbn [mbind outcome_bind].
  rewrite (fill_rows_later _ i [FileItem p Checked]).
  - simpl. rewrite list_alter_alter_eq. do 2 f_equal.
    apply list_alter_ext; [|done]. intros g' Hg'. assert (g' = []) as -> by congruence.
    cbn [map]. rewrite kept_only_first by apply unchecked_rows_Forall. done.
  - by rewrite list_lookup_alter_eq, Hg.
  - rewrite (append_row_count t i []) by done. simpl. lia.
Qed.

Lemma add_group_spec t group :
  add_group has_icon t group = Returns (t ++ [shown group], shown_warnings group).
Proof.
  unfold add_group, recursion_limit.
  rewrite (slot_group 999). unfold and_then at 1. cbn [mbind outcome_bind].
  rewrite (slot_group 999). unfold and_then. cbn [mbind outcome_bind].
  rewrite fill_rows_fresh by (by apply list_lookup_middle).
  simpl. do 2 f_equal. rewrite alter_app_r_alt by lia. by rewrite Nat.sub_diag.
Qed.

Lemma populate_spec t duplicate_groups :
  populate has_icon t duplicate_groups
  = Returns (t ++ map (λ group, shown group) duplicate_groups,
             concat (map shown_warnings duplicate_groups)).
Proof.
  revert t. induction duplicate_groups as [|group rest IH]; intros t; cbn [populate map].
  { by rewrite app_nil_r. }
  rewrite add_group_spec. unfold and_then. cbn [mbind outcome_bind].
  rewrite IH. simpl. by rewrite <- app_assoc.
Qed.

Lemma shown_paths group : map text1 (shown group) = group.
Proof.
  rewrite kept_only_text. induction group as [|p group IH]; [done|].
  cbn [map text1]. by rewrite IH.
Qed.

Lemma shown_plan group :
  map text1 (filter (λ it, checkState it = Unchecked) (shown group)) = drop 1 group.
Proof.
  pose proof (unchecked_kept_only 0 0 (unchecked_rows group)) as H.
  rewrite decide_True in H by lia. etransitivity; [exact H|].
  destruct group as [|p group]; [done|]. cbn [map text1 delete]. simpl. clear H.
  induction group as [|q group IH]; [done|]. cbn [map text1 drop] in *. by rewrite IH.
Qed.

End PopulateFacts.

(** X11: [on_detection_complete] does not show the groups with every row
    unchecked, as its calls of [setCheckState(0, Qt.Unchecked)] suggest: the
    slot, connected while the tree is filled, checks the first row of each
    group, once when its name is set and again when the code unchecks it,
    with a warning each time.  The tree ends with the first row of every
    group checked and the others unchecked, so that all but the first file
    of each group are selected for deletion. *)
Theorem detection_complete_keeps_first_rows
    (has_icon : string → bool) (duplicate_groups : list (list string)) :
  ∃ t,
    Selection.on_detection_complete has_icon duplicate_groups
    = Returns (t, concat (map (λ group : list string,
                                 if group is [] then []
                                 else [Selection.KeepOneWarning; Selection.KeepOneWarning])
                              duplicate_groups)) ∧
    t = map (λ group, Selection.kept_only 0
                        (map (λ p, Selection.FileItem p Selection.Unchecked) group))
            duplicate_groups ∧
    Selection.paths t = duplicate_groups ∧
    Selection.get_selected_files_to_delete t = concat (map (drop 1) duplicate_groups).
Proof.
  eexists. split_and!.
  - unfold Selection.on_detection_complete. rewrite populate_spec. done.
  - done.
  - unfold Selection.paths. induction duplicate_groups as [|group rest IH]; [done|].
    cbn [map app]. simpl in IH. rewrite IH. f_equal. apply shown_paths.
  - unfold Selection.get_selected_files_to_delete. f_equal.
    induction duplicate_groups as [|group rest IH]; [done|].
    cbn [map app]. simpl in IH. rewrite IH. f_equal. apply shown_plan.
Qed.

(** *** [DeduplicationThread.run] *)

(** X12: Whatever the method, the paths and the threshold, the thread emits
    exactly one result, and every group of it has at least two members.
    With the feature method the run never fails.  When the run fails, the
    result is the empty list and the progress never reaches 100. *)
Theorem worker_emits_one_result
    (image_hash : string → string → option string)
    (descriptors : Type) (detect : string → option descriptors)
    (good_matches : descriptors → descriptors → option nat)
    (image_paths : list string) (method : string) (threshold : Z) :
  let signals :=
    Worker.run image_hash detect good_matches image_paths method threshold in
  ∃ groups,
    Worker.results signals = [groups] ∧
    Forall (λ g, 2 ≤ length g) groups ∧
    (method ≠ "感知哈希" → Worker.LogSignal Worker.Failed ∉ signals) ∧
    (Worker.LogSignal Worker.Failed ∈ signals →
       groups = [] ∧ Worker.ProgressSignal 100 ∉ signals) ∧
    (Worker.LogSignal Worker.Failed ∉ signals →
       signals = [Worker.LogSignal Worker.Started; Worker.ProgressSignal 100;
                  Worker.ResultSignal groups;
                  Worker.LogSignal (Worker.Finished (length groups))]).
Proof.
  intros signals. subst signals. unfold Worker.run.
  assert (Hno : ∀ groups : list (list string),
            Worker.LogSignal Worker.Failed
            ∉ [Worker.LogSignal Worker.Started; Worker.ProgressSignal 100;
               Worker.ResultSignal groups;
               Worker.LogSignal (Worker.Finished (length groups))]).
  { intros groups Hin.
    repeat (apply elem_of_cons in Hin as [Hin|Hin]; [discriminate Hin|]).
    by apply elem_of_nil in Hin. }
  assert (Hfail : Worker.ProgressSignal 100
                  ∉ [Worker.LogSignal Worker.Started; Worker.LogSignal Worker.Failed;
                     Worker.ResultSignal []]).
  { intros Hin.
    repeat (apply elem_of_cons in Hin as [Hin|Hin]; [discriminate Hin|]).
    by apply elem_of_nil in Hin. }
  destruct (decide (method = "感知哈希")) as [Hm|Hm].
  - destruct (HashClusterer.find_duplicate_groups image_hash image_paths "phash" threshold)
      as [groups|e] eqn:Hrun.
    + exists groups. split_and!; [done | | done | by intros ?%Hno | done].
      unfold HashClusterer.find_duplicate_groups in Hrun.
      apply outcome_bind_returns in Hrun as (d & _ & [= <-]).
      apply Forall_forall. intros g [Hlen _]%list_elem_of_filter. lia.
    + exists []. split_and!; [done | done | done | done |].
      intros Hnot. exfalso. apply Hnot. set_solver.
  - destruct (run_spec detect good_matches threshold image_paths)
      as (groups & trace & Hrun & _ & Hsize & _).
    unfold FeatureClusterer.find_duplicate_groups_by_sift. rewrite Hrun. simpl.
    exists groups. split_and!; [done | done | by intros _ ?%Hno | by intros ?%Hno | done].
Qed.

(** ** The deletion loop, the export and the cleanup *)

Section DeleteMore.
Import Exporter.
Context {world : Type}.
Variable path_exists : world → string → bool.
Variable os_remove : world → string → world * bool.

Abbreviation delete_loop := (delete_files path_exists os_remove).

Lemma delete_files_app files1 files2 w deleted_count error_count :
  delete_loop w (files1 ++ files2) deleted_count error_count
  = let '(w1, d1, e1, trace1) := delete_loop w files1 deleted_count error_count in
    let '(w2, d2, e2, trace2) := delete_loop w1 files2 d1 e1 in
    (w2, d2, e2, trace1 ++ trace2).
Proof.
  revert w deleted_count error_count.
  induction files1 as [|p files1 IH]; intros w d e; cbn [app delete_files].
  { by destruct (delete_loop w files2 d e) as [[[??]?]?]. }
  destruct (path_exists w p).
  - destruct (os_remove w p) as [w1 returned]. destruct returned.
    + destruct (path_exists w1 p); cbn [negb].
      * rewrite IH. destruct (delete_loop w1 files1 d (S e)) as [[[w2 d2] e2] tr2].
        by destruct (delete_loop w2 files2 d2 e2) as [[[??]?]?].
      * rewrite IH. destruct (delete_loop w1 files1 (S d) e) as [[[w2 d2] e2] tr2].
        by destruct (delete_loop w2 files2 d2 e2) as [[[??]?]?].
    + rewrite IH. destruct (delete_loop w1 files1 d (S e)) as [[[w2 d2] e2] tr2].
      by destruct (delete_loop w2 files2 d2 e2) as [[[??]?]?].
  - rewrite IH. destruct (delete_loop w files1 d e) as [[[w2 d2] e2] tr2].
    by destruct (delete_loop w2 files2 d2 e2) as [[[??]?]?].
Qed.

Lemma count_outcome_total (r : list (string * entry_outcome)) :
  count_outcome OutcomeDeleted r + count_outcome OutcomeFailed r
  + count_outcome OutcomeNotFound r = length r.
Proof.
  induction r as [|[p o] r IH]; [done|].
  rewrite !count_outcome_cons. cbn [snd length].
  destruct o; repeat case_decide; try done; lia.
Qed.

Lemma count_outcome_removed (r : list (string * entry_outcome)) :
  length (filter (λ x, x.2 ≠ OutcomeNotFound) r)
  = count_outcome OutcomeDeleted r + count_outcome OutcomeFailed r.
Proof.
  induction r as [|[p o] r IH]; [done|].
  rewrite !count_outcome_cons, filter_cons. cbn [snd].
  destruct o; repeat case_decide; try done; cbn [length]; lia.
Qed.

Lemma removals_app (trace1 trace2 : list event) :
  removals (trace1 ++ trace2) = removals trace1 ++ removals trace2.
Proof. unfold removals. by rewrite omap_app. Qed.

End DeleteMore.

(** X13: The deletion loop accounts for every entry of the plan: the entries
    counted as deleted, those counted as failed and those reported absent
    add up to the length of the plan; [os.remove] is called once for each
    entry counted, and the paths it is called on are taken from the plan
    in order. *)
Theorem delete_files_accounting
    (world : Type) (path_exists : world → string → bool)
    (os_remove : world → string → world * bool)
    (w : world) (files_to_delete : list string) :
  ∃ w' deleted_count error_count trace,
    Exporter.delete_files path_exists os_remove w files_to_delete 0 0
    = (w', deleted_count, error_count, trace) ∧
    deleted_count + error_count
    + Exporter.count_outcome Exporter.OutcomeNotFound (Exporter.report trace)
    = length files_to_delete ∧
    length (Exporter.removals trace) = deleted_count + error_count ∧
    Exporter.removals trace `sublist_of` files_to_delete.
Proof.
  destruct (delete_files_spec path_exists os_remove files_to_delete w 0 0)
    as (w' & trace & Hrun & Hrep & Hrem).
  eexists _, _, _, _. split; [exact Hrun|]. cbn [Nat.add]. split_and!.
  - rewrite count_outcome_total. by rewrite <- Hrep, length_fmap.
  - rewrite Hrem, length_fmap. apply count_outcome_removed.
  - rewrite Hrem, <- Hrep. apply fmap_sublist, sublist_filter.
Qed.

(** X14: Deleting a plan in two parts, the second from the state and the
    counters the first ended with, is deleting the whole plan. *)
Theorem delete_files_in_two_parts
    (world : Type) (path_exists : world → string → bool)
    (os_remove : world → string → world * bool)
    (w : world) (files1 files2 : list string) (deleted_count error_count : nat) :
  ∃ w1 d1 e1 trace1 w2 d2 e2 trace2,
    Exporter.delete_files path_exists os_remove w files1 deleted_count error_count
    = (w1, d1, e1, trace1) ∧
    Exporter.delete_files path_exists os_remove w1 files2 d1 e1
    = (w2, d2, e2, trace2) ∧
    Exporter.delete_files path_exists os_remove w (files1 ++ files2)
      deleted_count error_count
    = (w2, d2, e2, trace1 ++ trace2).
Proof.
  pose proof (delete_files_app path_exists os_remove files1 files2 w
                deleted_count error_count) as Happ.
  destruct (Exporter.delete_files path_exists os_remove w files1
              deleted_count error_count) as [[[w1 d1] e1] trace1].
  destruct (Exporter.delete_files path_exists os_remove w1 files2 d1 e1)
    as [[[w2 d2] e2] trace2] eqn:Hsecond.
  by exists w1, d1, e1, trace1, w2, d2, e2, trace2.
Qed.

(** X15: When none of the files of the plan exists, the loop calls [os.remove]
    for none, leaves the file system and the counters as they are, and
    reports each file as absent: absent files are no errors. *)
Theorem delete_files_all_absent
    (world : Type) (path_exists : world → string → bool)
    (os_remove : world → string → world * bool)
    (w : world) (files_to_delete : list string) (deleted_count error_count : nat) :
  (∀ p, p ∈ files_to_delete → path_exists w p = false) →
  Exporter.delete_files path_exists os_remove w files_to_delete deleted_count error_count
  = (w, deleted_count, error_count,
     map (λ p, Exporter.Log (Exporter.NotFound p)) files_to_delete).
Proof.
  induction files_to_delete as [|p files IH]; intros Habsent; [done|].
  cbn [Exporter.delete_files map]. rewrite Habsent by left.
  rewrite IH; [done|]. intros q Hq. apply Habsent. by right.
Qed.

Lemma delete_files_all_absent_witness :
  Exporter.delete_files Sample.fake_exists Sample.fake_remove
    ["b.png"] ["a.png"; "c.png"] 0 0
  = (["b.png"], 0, 0,
     [Exporter.Log (Exporter.NotFound "a.png"); Exporter.Log (Exporter.NotFound "c.png")]).
Proof.
  apply (delete_files_all_absent _ Sample.fake_exists Sample.fake_remove
           ["b.png"] ["a.png"; "c.png"] 0 0).
  intros p Hp.
  repeat (apply elem_of_cons in Hp as [->|Hp]; [reflexivity|]).
  by apply elem_of_nil in Hp.
Defined.

Section ExportMore.
Import Exporter.
Context {world : Type}.
Variable path_exists : world → string → bool.
Variable os_remove : world → string → world * bool.
Variable write_file : world → string → list string → world * bool.
Variable path_join : string → string → string.

Abbreviation export := (export_results path_exists os_remove write_file path_join).
Abbreviation audit_record directory :=
  (path_join directory "duplicates.txt", "重复结果文本文件").

Lemma removals_sublist (w : world) files deleted_count error_count :
  removals (delete_files path_exists os_remove w files deleted_count error_count).2
  `sublist_of` files.
Proof.
  destruct (delete_files_spec path_exists os_remove files w deleted_count error_count)
    as (w' & trace & -> & Hrep & Hrem). cbn [snd].
  rewrite Hrem, <- Hrep. apply fmap_sublist, sublist_filter.
Qed.

(** What a run of [export_results] does to the controller and which files
    it removes. *)
Lemma export_results_controller c directory reply_yes w w' c' trace :
  export c directory reply_yes w = (w', c', trace) →
  let files_to_delete := Selection.get_selected_files_to_delete (duplicate_tree c) in
  let content := audit_text (duplicate_groups c) files_to_delete in
  duplicate_groups c' = duplicate_groups c ∧
  duplicate_tree c' = duplicate_tree c ∧
  removals trace `sublist_of` files_to_delete ∧
  (reply_yes = false → removals trace = []) ∧
  ((∀ p text, FileWritten p text ∈ trace →
      p = path_join directory "duplicates.txt" ∧ text = content ∧
      generated_files c' = generated_files c ++ [audit_record directory]) ∧
   ((∀ p text, FileWritten p text ∉ trace) →
      c' = c ∧ removals trace = [])).
Proof.
  intros Hrun files_to_delete content. unfold export_results in Hrun.
  fold files_to_delete in Hrun. fold content in Hrun.
  assert (Hnil : @nil string `sublist_of` files_to_delete) by apply sublist_nil_l.
  destruct (decide (duplicate_groups c = [])).
  { simplify_eq. split_and!; try done. by intros p text ?%elem_of_nil. }
  destruct (decide (directory = "")).
  { simplify_eq. split_and!; try done. by intros p text ?%elem_of_nil. }
  destruct (decide (files_to_delete = [])).
  { simplify_eq. split_and!; try done. intros p text Hin. not_in_record Hin. }
  destruct (write_file w (path_join directory "duplicates.txt") content) as [w1 written].
  destruct written.
  2:{ simplify_eq. split_and!; try done. intros p text Hin. not_in_record Hin. }
  destruct reply_yes.
  - pose proof (removals_sublist w1 files_to_delete 0 0) as Hsub.
    pose proof (delete_files_events path_exists os_remove files_to_delete w1 0 0) as Hev.
    destruct (delete_files path_exists os_remove w1 files_to_delete 0 0)
      as [[[w2 d] e] tr].
    simplify_eq. cbn [snd] in *.
    assert (Hrem : removals (FileWritten (path_join directory "duplicates.txt") content
                               :: Box (ConfirmDelete (length files_to_delete))
                               :: tr ++ [Box (DeleteDone d e); Log (Exported directory);
                                         Box (ExportDone directory)])
                   = removals tr).
    { change (removals (?x :: ?y :: ?l)) with (removals l) at 1.
      rewrite removals_app. apply (right_id_L [] (++)). }
    rewrite Hrem. split_and!; try done.
    + intros p text [[= -> ->]|Hin]%elem_of_cons; [done|].
      apply elem_of_cons in Hin as [[=]|Hin].
      apply elem_of_app in Hin as [Hin|Hin].
      * apply Hev in Hin as [[q [=]]|[entry [=]]].
      * not_in_record Hin.
    + intros Hno. exfalso. eapply Hno. by left.
  - simplify_eq. split_and!; try done.
    + intros p text [[= -> ->]|Hin]%elem_of_cons; [done|]. not_in_record Hin.
    + intros Hno. exfalso. eapply Hno. by left.
Qed.

End ExportMore.



(** X17: Exporting twice to the same directory records the audit file twice:
    when both runs write the file, the second run starts from the tree and
    the groups of the first, writes the same text, and appends a second
    record of the same path to the generated files. *)
Theorem export_twice_records_audit_twice
    (world : Type) (path_exists : world → string → bool)
    (os_remove : world → string → world * bool)
    (write_file : world → string → list string → world * bool)
    (path_join : string → string → string)
    (c : Exporter.controller) (directory : string) (reply1 reply2 : bool)
    (w w1 v v2 : world) (c1 c2 : Exporter.controller)
    (trace1 trace2 : list Exporter.event) (p1 p2 : string) (text1 text2 : list string) :
  Exporter.export_results path_exists os_remove write_file path_join
    c directory reply1 w = (w1, c1, trace1) →
  Exporter.export_results path_exists os_remove write_file path_join
    c1 directory reply2 v = (v2, c2, trace2) →
  Exporter.FileWritten p1 text1 ∈ trace1 →
  Exporter.FileWritten p2 text2 ∈ trace2 →
  p1 = p2 ∧ text1 = text2 ∧
  Exporter.generated_files c2
  = Exporter.generated_files c
    ++ [(path_join directory "duplicates.txt", "重复结果文本文件");
        (path_join directory "duplicates.txt", "重复结果文本文件")].
Proof.
  intros Hrun1 Hrun2 Hw1 Hw2.
  destruct (export_results_controller _ _ _ _ _ _ _ _ _ _ _ Hrun1)
    as (Hg1 & Ht1 & _ & _ & Hrec1 & _).
  destruct (export_results_controller _ _ _ _ _ _ _ _ _ _ _ Hrun2)
    as (_ & _ & _ & _ & Hrec2 & _).
  destruct (Hrec1 _ _ Hw1) as (-> & -> & Hgen1).
  destruct (Hrec2 _ _ Hw2) as (-> & -> & Hgen2).
  rewrite Hg1, Ht1. split_and!; [done..|].
  by rewrite Hgen2, Hgen1, <- app_assoc.
Qed.

Lemma export_twice_records_audit_twice_witness :
  ∃ v2 c2 trace2,
    Exporter.export_results Sample.fake_exists Sample.fake_remove
      Sample.fake_write Sample.fake_join
      (Exporter.export_results Sample.fake_exists Sample.fake_remove
         Sample.fake_write Sample.fake_join Sample.one_group "out" true
         ["a.png"; "c.png"]).1.2
      "out" false ["a.png"]
    = (v2, c2, trace2) ∧
    Exporter.generated_files c2
    = [("out/duplicates.txt", "重复结果文本文件");
       ("out/duplicates.txt", "重复结果文本文件")].
Proof.
  destruct (Exporter.export_results Sample.fake_exists Sample.fake_remove
              Sample.fake_write Sample.fake_join Sample.one_group "out" true
              ["a.png"; "c.png"]) as [[w1 c1] trace1] eqn:Hrun1.
  cbn [fst snd].
  destruct (Exporter.export_results Sample.fake_exists Sample.fake_remove
              Sample.fake_write Sample.fake_join c1 "out" false ["a.png"])
    as [[v2 c2] trace2] eqn:Hrun2.
  exists v2, c2, trace2. split; [done|].
  pose proof (export_twice_records_audit_twice _ _ _ _ _ _ _ _ _ _ _ _ _ _ _ _ _
                "out/duplicates.txt" "out/duplicates.txt"
                (Exporter.audit_text [["a.png"; "c.png"]] ["c.png"])
                (Exporter.audit_text [["a.png"; "c.png"]] ["c.png"])
                Hrun1 Hrun2) as Htwice.
  vm_compute in Hrun1. injection Hrun1 as _ <- <-.
  vm_compute in Hrun2. injection Hrun2 as _ _ <-.
  destruct Htwice as (_ & _ & Hgen); [by left | by left |].
  exact Hgen.
Defined.

(** *** [cleanup_generated_files] *)

Section CleanupMore.
Import Exporter.
Context {world : Type}.
Variable path_exists : world → string → bool.
Variable os_remove : world → string → world * bool.

Lemma deletions_of_loop (trace : list event) :
  Cleanup.deletions (Cleanup.Deletion <$> trace) = trace.
Proof.
  induction trace as [|e trace IH]; [done|]. rewrite fmap_cons.
  change (Cleanup.deletions (Cleanup.Deletion e :: (Cleanup.Deletion <$> trace)))
    with (e :: Cleanup.deletions (Cleanup.Deletion <$> trace)).
  by rewrite IH.
Qed.

Lemma deletions_app (trace1 trace2 : list Cleanup.event) :
  Cleanup.deletions (trace1 ++ trace2)
  = Cleanup.deletions trace1 ++ Cleanup.deletions trace2.
Proof. unfold Cleanup.deletions. apply omap_app. Qed.

Lemma deletions_box (d : Cleanup.dialog) (trace : list Cleanup.event) :
  Cleanup.deletions (Cleanup.Box d :: trace) = Cleanup.deletions trace.
Proof. reflexivity. Qed.

End CleanupMore.

(** X18: A confirmed cleanup forgets every record, whatever became of the
    files: the generated files are empty afterwards, also when a deletion
    failed, and the next cleanup finds nothing to clean.  It calls
    [os.remove] only on recorded paths, in their order; the groups and the
    tree are not touched.  With the reply No, or with nothing recorded,
    the controller and the file system are as before and nothing is
    removed. *)
Theorem cleanup_forgets_every_record
    (world : Type) (path_exists : world → string → bool)
    (os_remove : world → string → world * bool)
    (c : Exporter.controller) (w : world) :
  let cleared :=
    Exporter.Controller (Exporter.duplicate_groups c) (Exporter.duplicate_tree c) [] in
  (∃ w' trace,
     Cleanup.cleanup_generated_files path_exists os_remove c true w
     = (w', cleared, trace) ∧
     Exporter.removals (Cleanup.deletions trace)
     `sublist_of` (Exporter.generated_files c).*1 ∧
     ∀ reply v,
       Cleanup.cleanup_generated_files path_exists os_remove cleared reply v
       = (v, cleared, [Cleanup.Box Cleanup.NothingToClean]))
  ∧
  (∃ trace,
     Cleanup.cleanup_generated_files path_exists os_remove c false w = (w, c, trace) ∧
     Cleanup.deletions trace = [])
  ∧
  (Exporter.generated_files c = [] →
   ∀ reply,
     Cleanup.cleanup_generated_files path_exists os_remove c reply w
     = (w, c, [Cleanup.Box Cleanup.NothingToClean])).
Proof.
  intros cleared. unfold Cleanup.cleanup_generated_files. split_and!.
  - destruct (decide (Exporter.generated_files c = [])) as [Hnil|Hrec].
    + exists w, [Cleanup.Box Cleanup.NothingToClean]. split_and!.
      * do 2 f_equal. subst cleared. destruct c. simpl in *. by subst.
      * apply sublist_nil_l.
      * done.
    + pose proof (removals_sublist path_exists os_remove w
                    (Exporter.generated_files c).*1 0 0) as Hsub.
      destruct (Exporter.delete_files path_exists os_remove w
                  (Exporter.generated_files c).*1 0 0) as [[[w' d] e] tr].
      eexists _, _. split_and!; [done | | done].
      cbn [snd] in Hsub.
      rewrite deletions_box, deletions_app, deletions_of_loop, deletions_box.
      change (Cleanup.deletions []) with (@nil Exporter.event).
      by rewrite (right_id_L [] (++)).
  - destruct (decide (Exporter.generated_files c = [])); by eexists.
  - intros Hnil reply. by rewrite decide_True.
Qed.

(** ** [add_images], and a file added twice *)

Section AddImages.
Import ImageList.
Variable path_exists : string → bool.
Variable pixmap_raises : string → bool.

Abbreviation accepted' := (accepted path_exists pixmap_raises).

Lemma accepted_cons file files :
  accepted' (file :: files)
  = if negb (path_exists file) then accepted' files
    else if pixmap_raises file then accepted' files
    else file :: accepted' files.
Proof.
  unfold accepted. rewrite filter_cons.
  destruct (path_exists file), (pixmap_raises file); cbn [negb];
    case_decide; naive_solver.
Qed.

Lemma add_loop_spec image_paths files added_count :
  ∃ log,
    add_loop path_exists pixmap_raises image_paths files added_count
    = (image_paths ++ accepted' files, added_count + length (accepted' files), log) ∧
    ∀ n, Added n ∉ log.
Proof.
  revert image_paths added_count.
  induction files as [|file files IH]; intros image_paths n; cbn [add_loop].
  { exists []. split; [|by intros ? ?%elem_of_nil].
    unfold accepted. rewrite filter_nil, app_nil_r. cbn [length]. by rewrite Nat.add_0_r. }
  rewrite accepted_cons.
  destruct (negb (path_exists file)).
  - destruct (IH image_paths n) as (log & -> & Hlog). eexists. split; [done|].
    intros m [[=]|Hin]%elem_of_cons. by eapply Hlog.
  - destruct (pixmap_raises file).
    + destruct (IH image_paths n) as (log & -> & Hlog). eexists. split; [done|].
      intros m [[=]|Hin]%elem_of_cons. by eapply Hlog.
    + destruct (IH (image_paths ++ [file]) (S n)) as (log & -> & Hlog).
      exists log. split; [|done]. rewrite <- app_assoc. cbn [app length].
      by rewrite Nat.add_succ_r.
Qed.

Lemma add_images_spec image_paths files :
  ∃ log,
    add_images path_exists pixmap_raises image_paths files
    = (image_paths ++ accepted' files,
       log ++ if decide (0 < length (accepted' files))
              then [Added (length (accepted' files))] else []) ∧
    ∀ n, Added n ∉ log.
Proof.
  unfold add_images. destruct (decide (files = [])) as [->|Hfiles].
  { exists []. split; [|by intros ? ?%elem_of_nil].
    unfold accepted. rewrite filter_nil, app_nil_r. done. }
  destruct (add_loop_spec image_paths files 0) as (log & -> & Hlog).
  by exists log.
Qed.

End AddImages.

(** X19: [add_images] appends to the list, in the order of the selection,
    the files that exist and for which the [try] block does not raise.
    Whether a thumbnail could be loaded plays no part: when nothing raises,
    every existing file of the selection is appended, image or not.  The
    paths listed before stay in front, and a file that is already listed is
    listed again.  One line reports the number added, when it is not
    zero. *)
Theorem add_images_appends_accepted
    (path_exists pixmap_raises : string → bool) (image_paths files : list string) :
  let added := ImageList.accepted path_exists pixmap_raises files in
  ∃ log,
    ImageList.add_images path_exists pixmap_raises image_paths files
    = (image_paths ++ added, log) ∧
    (∀ n, ImageList.Added n ∈ log ↔ n = length added ∧ 0 < n) ∧
    added `sublist_of` files ∧
    ((∀ file, pixmap_raises file = false) →
     added = filter (λ file, path_exists file = true) files).
Proof.
  intros added.
  destruct (add_images_spec path_exists pixmap_raises image_paths files)
    as (log & Hrun & Hlog).
  fold added in Hrun. eexists. split; [exact Hrun|]. split_and!.
  - intros n. rewrite elem_of_app. split.
    + intros [Hin|Hin]; [by apply Hlog in Hin|].
      case_decide; [|by apply elem_of_nil in Hin].
      apply list_elem_of_singleton in Hin. by injection Hin as ->.
    + intros [-> Hpos]. right. rewrite decide_True by done. by left.
  - apply sublist_filter.
  - intros Hquiet. apply list_filter_iff. intros file. split; [by intros [? _]|].
    intros Hfile. split; [done | apply Hquiet].
Qed.

Section AddedTwice.
Variable image_hash : string → string → option string.

Lemma hash_same_path_twice (a h : string) (threshold : Z) :
  image_hash "phash" a = Some h → Hex.is_hex h = true → (0 ≤ threshold)%Z →
  HashClusterer.find_duplicate_groups image_hash [a; a] "phash" threshold
  = Returns [[a; a]].
Proof.
  intros Hh Hhex Ht. unfold HashClusterer.find_duplicate_groups.
  assert (Hc : HashClusterer.compute_hash image_hash a "phash" = Some h).
  { unfold HashClusterer.compute_hash. rewrite decide_True; [done|]. set_solver. }
  assert (Hs1 : HashClusterer.step image_hash "phash" threshold [] a
                = Returns [(h, [a])]).
  { unfold HashClusterer.step. by rewrite Hc. }
  assert (Hs2 : HashClusterer.step image_hash "phash" threshold [(h, [a])] a
                = Returns [(h, [a; a])]).
  { unfold HashClusterer.step. rewrite Hc.
    change (Dict.keys [(h, [a])]) with [h]. cbn [HashClusterer.first_match].
    rewrite (hamming_self h Hhex). cbn [mbind outcome_bind].
    rewrite decide_True by (change (Z.of_nat 0) with 0%Z; lia).
    cbn [mbind outcome_bind Dict.append]. by rewrite decide_True. }
  cbn [HashClusterer.loop]. rewrite Hs1. cbn [mbind outcome_bind].
  rewrite Hs2. cbn [mbind outcome_bind mret outcome_ret].
  change (Dict.values [(h, [a; a])]) with [[a; a]].
  rewrite filter_cons, decide_True by (simpl; lia). by rewrite filter_nil.
Qed.

Lemma shown_tree_plan (duplicate_groups : list (list string)) :
  Selection.get_selected_files_to_delete
    (map (λ group, Selection.kept_only 0
                     (map (λ p, Selection.FileItem p Selection.Unchecked) group))
         duplicate_groups)
  = concat (map (drop 1) duplicate_groups).
Proof.
  unfold Selection.get_selected_files_to_delete. f_equal.
  induction duplicate_groups as [|group rest IH]; [done|].
  cbn [map]. cbn [map] in IH. rewrite IH. f_equal. apply shown_plan.
Qed.

End AddedTwice.

(** X20: A file added twice is grouped with itself and selected for deletion:
    [add_images] lists it twice, the hash method puts the two entries in
    one group of two, [on_detection_complete] keeps the first row and
    leaves the second unchecked, and the plan of [export_results] then
    holds the path of the only copy. *)
Theorem file_added_twice_selected_for_deletion
    (path_exists pixmap_raises : string → bool)
    (image_hash : string → string → option string)
    (descriptors : Type) (detect : string → option descriptors)
    (good_matches : descriptors → descriptors → option nat)
    (has_icon : string → bool) (a h : string) (threshold : Z) :
  path_exists a = true → pixmap_raises a = false →
  image_hash "phash" a = Some h → Hex.is_hex h = true → (0 ≤ threshold)%Z →
  let image_paths :=
    (ImageList.add_images path_exists pixmap_raises
       (ImageList.add_images path_exists pixmap_raises [] [a]).1 [a]).1 in
  image_paths = [a; a] ∧
  Worker.results (Worker.run image_hash detect good_matches image_paths
                    "感知哈希" threshold)
  = [[[a; a]]] ∧
  ∃ t warnings,
    Selection.on_detection_complete has_icon [[a; a]] = Returns (t, warnings) ∧
    Selection.get_selected_files_to_delete t = [a].
Proof.
  intros Hex Hpix Hh Hhex Ht image_paths.
  assert (Hpaths : image_paths = [a; a]).
  { subst image_paths.
    destruct (add_images_spec path_exists pixmap_raises [] [a]) as (log1 & -> & _).
    cbn [fst].
    destruct (add_images_spec path_exists pixmap_raises
                ([] ++ ImageList.accepted path_exists pixmap_raises [a]) [a])
      as (log2 & -> & _).
    cbn [fst]. rewrite accepted_cons, Hex, Hpix. cbn [negb].
    unfold ImageList.accepted. by rewrite filter_nil. }
  split; [done|]. rewrite Hpaths. split.
  - unfold Worker.run. rewrite decide_True by done.
    by rewrite (hash_same_path_twice image_hash a h threshold).
  - unfold Selection.on_detection_complete. rewrite populate_spec.
    eexists _, _. split; [done|].
    rewrite app_nil_l. by rewrite shown_tree_plan.
Qed.

Lemma file_added_twice_selected_for_deletion_witness :
  Worker.results (Worker.run Sample.exact Sample.three_features Sample.one_good_match
                    ["a.png"; "a.png"] "感知哈希" 0)
  = [[["a.png"; "a.png"]]] ∧
  ∃ t warnings,
    Selection.on_detection_complete (λ _, false) [["a.png"; "a.png"]]
    = Returns (t, warnings) ∧
    Selection.get_selected_files_to_delete t = ["a.png"].
Proof.
  destruct (file_added_twice_selected_for_deletion
              (λ _, true) (λ _, false) Sample.exact nat Sample.three_features
              Sample.one_good_match (λ _, false) "a.png" "a" 0)
    as (_ & Hrun & Hplan); [reflexivity..| lia |].
  split; [exact Hrun | exact Hplan].
Defined.
